(** * A shallow embedding of the just-bash execution engine

    The development follows [BashEnv] (the interpreter class: [exec],
    [executePipeline], [executeCommand], the inline builtins, the scanner
    of if statements, the regular expressions of the loops and
    [expandVariables]), the stand-alone [handleExport] builtin, the [echo]
    command and the in-memory [VirtualFs].

    Conventions.
    - JavaScript strings are modelled by [string], read as ASCII text: a
      character below 128 is that character.  On such text the white-space
      class of [trim], of [parseInt] and of the regular-expression escape
      [\s] is the six ASCII white-space characters, and the line terminators
      are LF and CR.  The white space and the line terminators that
      JavaScript has beyond ASCII (the no-break space, U+2028 and the like)
      are not modelled: a statement whose conclusion depends on either
      class asks that the text it speaks of be ASCII ([Js.isAscii]).
    - Exit codes are integers ([Z]); counters and limits are naturals.
    - [Map<string, string>] is a finite map ([gmap string string]).  The
      environment, a plain object, is the finite map of its own keys
      together with the members that every object inherits from
      [Object.prototype] ([envGet], [envSet], [envHas]).  A local-scope
      frame ([Map<string, string | undefined>]) keeps its insertion order,
      since the restore loop walks it in that order.
    - An [async] method is a state transformer that either returns, throws
      or (for the recursive entry point only) runs out of fuel.  A
      registered command is a run that ends or calls [ctx.exec] and goes
      on with what the call gave. *)

From Stdlib Require Import ZArith String Ascii List Lia Bool.
From Stdlib Require Import DecimalString DecimalNat.
From stdpp Require Import base strings gmap list.

Open Scope string_scope.
Open Scope Z_scope.

(** ** JavaScript string primitives *)

Module Js.

Definition ascii_in (lo hi : nat) (c : ascii) : bool :=
  (lo <=? nat_of_ascii c)%nat && (nat_of_ascii c <=? hi)%nat.

(** [\s] and [trim] on ASCII text: TAB, LF, VT, FF, CR and SPACE. *)
Definition isSpace (c : ascii) : bool :=
  ascii_in 9 13 c || Ascii.eqb c " ".

(** [[0-9]] *)
Definition isDigit (c : ascii) : bool := ascii_in 48 57 c.

(** [[A-Za-z_]] *)
Definition isNameStart (c : ascii) : bool :=
  ascii_in 65 90 c || ascii_in 97 122 c || Ascii.eqb c "_".

(** [[A-Za-z0-9_]] *)
Definition isNameChar (c : ascii) : bool := isNameStart c || isDigit c.

(** The characters of ASCII. *)
Definition isAscii (c : ascii) : bool := (nat_of_ascii c <? 128)%nat.

(** The line terminators that [.] refuses without the [s] flag, on ASCII
    text: LF and CR. *)
Definition isLineTerminator (c : ascii) : bool :=
  Ascii.eqb c "010" || Ascii.eqb c "013".

Fixpoint all (p : ascii -> bool) (s : string) : bool :=
  match s with
  | EmptyString => true
  | String c t => p c && all p t
  end.

(** [s.includes(c)] for a one-character needle. *)
Fixpoint includes (c : ascii) (s : string) : bool :=
  match s with
  | EmptyString => false
  | String d t => Ascii.eqb d c || includes c t
  end.

(** [s.indexOf(c)]: [None] stands for [-1]. *)
Fixpoint indexOf (c : ascii) (s : string) : option nat :=
  match s with
  | EmptyString => None
  | String d t =>
      if Ascii.eqb d c then Some 0%nat
      else match indexOf c t with
           | Some k => Some (S k)
           | None => None
           end
  end.

(** [s.slice(0, n)] *)
Fixpoint take (n : nat) (s : string) : string :=
  match n, s with
  | S k, String c t => String c (take k t)
  | _, _ => EmptyString
  end.

(** [s.slice(n)] *)
Fixpoint drop (n : nat) (s : string) : string :=
  match n, s with
  | S k, String _ t => drop k t
  | _, _ => s
  end.

(** [s.startsWith(p)] *)
Fixpoint startsWith (p s : string) : bool :=
  match p, s with
  | EmptyString, _ => true
  | String a p', String b s' => Ascii.eqb a b && startsWith p' s'
  | String _ _, EmptyString => false
  end.

Fixpoint dropWhile (p : ascii -> bool) (s : string) : string :=
  match s with
  | EmptyString => EmptyString
  | String c t => if p c then dropWhile p t else s
  end.

Fixpoint takeWhile (p : ascii -> bool) (s : string) : string :=
  match s with
  | EmptyString => EmptyString
  | String c t => if p c then String c (takeWhile p t) else EmptyString
  end.

Definition trimStart (s : string) : string := dropWhile isSpace s.

(** Drops the trailing white space: a character is kept when something
    that is not white space follows it or it is not white space itself. *)
Fixpoint trimEnd (s : string) : string :=
  match s with
  | EmptyString => EmptyString
  | String c t =>
      match trimEnd t with
      | EmptyString => if isSpace c then EmptyString else String c EmptyString
      | r => String c r
      end
  end.

(** [s.trim()] *)
Definition trim (s : string) : string := trimEnd (trimStart s).

(** [l.join(sep)] *)
Fixpoint join (sep : string) (l : list string) : string :=
  match l with
  | [] => ""
  | [x] => x
  | x :: r => x +:+ sep +:+ join sep r
  end.

(** [s.split(c).pop()]: the text after the last occurrence of [c]. *)
Fixpoint lastSegment (c : ascii) (s : string) : string :=
  match s with
  | EmptyString => EmptyString
  | String d t =>
      if includes c s
      then (if Ascii.eqb d c && negb (includes c t) then t else lastSegment c t)
      else s
  end.

(** [s.trim().split(/\s+/).filter(w => w.length > 0)]: [cur] is the word
    being read. *)
Fixpoint wordsFrom (cur : string) (s : string) : list string :=
  match s with
  | EmptyString => if String.eqb cur "" then [] else [cur]
  | String c t =>
      if isSpace c
      then (if String.eqb cur "" then wordsFrom "" t else cur :: wordsFrom "" t)
      else wordsFrom (cur +:+ String c EmptyString) t
  end.

Definition words (s : string) : list string := wordsFrom "" s.

(** [s.replace(pat, rep)] with a global pattern that matches the literal
    text [pat]: [skip] counts the characters of a match still to be
    passed over. *)
Fixpoint replaceFrom (pat rep : string) (skip : nat) (s : string) : string :=
  match s with
  | EmptyString => EmptyString
  | String c t =>
      match skip with
      | S k => replaceFrom pat rep k t
      | O =>
          if startsWith pat s && negb (String.eqb pat "")
          then rep +:+ replaceFrom pat rep (Nat.pred (String.length pat)) t
          else String c (replaceFrom pat rep O t)
      end
  end.

Definition replaceAll (pat rep s : string) : string := replaceFrom pat rep 0 s.

(** [String(n)] for a natural number. *)
Definition ofNat (n : nat) : string := NilZero.string_of_uint (Nat.to_uint n).

Definition digitValue (c : ascii) : Z := Z.of_nat (nat_of_ascii c) - 48.

(** The digits of [parseInt]: the longest decimal prefix is read, [acc]
    is the value so far and [seen] tells whether a digit was read. *)
Fixpoint parseDigits (acc : Z) (seen : bool) (s : string) : option Z :=
  match s with
  | String c t =>
      if isDigit c then parseDigits (10 * acc + digitValue c) true t
      else if seen then Some acc else None
  | EmptyString => if seen then Some acc else None
  end.

(** [parseInt(s, 10)]: leading white space, an optional sign, then
    digits; [None] is [NaN].  The value is exact: it is the value of the
    code for a numeral below 2^53, from which on JavaScript rounds to the
    nearest double; statements about [parseInt] keep below that bound. *)
Definition parseInt (s : string) : option Z :=
  match trimStart s with
  | String c t =>
      if Ascii.eqb c "-" then Z.opp <$> parseDigits 0 false t
      else if Ascii.eqb c "+" then parseDigits 0 false t
      else parseDigits 0 false (String c t)
  | EmptyString => None
  end.

End Js.

Definition nl : string := String "010" EmptyString.

(** ** Data model *)

Record ExecResult := mkResult {
  stdout : string;
  stderr : string;
  exitCode : Z
}.

Definition okResult : ExecResult := mkResult "" "" 0.

Inductive RedirectionType := RStdout | RStderr | RStdin | RStderrToStdout.

Record Redirection := mkRedir {
  rtype : RedirectionType;
  target : option string;
  append : bool
}.

Record ParsedCommand := mkParsed {
  command : string;
  args : list string;
  quotedArgs : list bool;
  redirections : list Redirection
}.

(** The operator that precedes a stage; [OpPipe] is the empty marker. *)
Inductive ChainOperator := OpPipe | OpAnd | OpOr | OpSemi.

Definition isPipe (o : ChainOperator) : bool :=
  match o with OpPipe => true | _ => false end.
Definition isAnd (o : ChainOperator) : bool :=
  match o with OpAnd => true | _ => false end.
Definition isOr (o : ChainOperator) : bool :=
  match o with OpOr => true | _ => false end.

Record PipelineStage := mkStage {
  parsed : ParsedCommand;
  operator : ChainOperator;
  negationCount : nat
}.

(** [pipeline.commands] *)
Definition Pipeline := list PipelineStage.

Abbreviation Env := (gmap string string).

(** [this.env] is a plain object: beside its own keys, which the finite
    map holds, it has the members it inherits from [Object.prototype].
    [inherited name] is the text such a member gives where the engine
    joins it to a string: a native function is printed as
    [function name() { [native code] }], and the prototype object, which
    [__proto__] reads, as [[object Object]]. *)
Definition nativeFunction (name : string) : string :=
  "function " +:+ name +:+ "() { [native code] }".

Definition prototypeMethods : list string :=
  [ "__defineGetter__"; "__defineSetter__"; "hasOwnProperty";
    "__lookupGetter__"; "__lookupSetter__"; "isPrototypeOf";
    "propertyIsEnumerable"; "toString"; "valueOf"; "toLocaleString" ].

Definition inherited (name : string) : option string :=
  if String.eqb name "__proto__" then Some "[object Object]"
  else if String.eqb name "constructor" then Some (nativeFunction "Object")
  else if existsb (String.eqb name) prototypeMethods then Some (nativeFunction name)
  else None.

(** [this.env[name]]: the own key first, then the inherited member;
    [None] is [undefined]. *)
Definition envGet (e : Env) (name : string) : option string :=
  match e !! name with
  | Some v => Some v
  | None => inherited name
  end.

(** [name in this.env] *)
Definition envHas (e : Env) (name : string) : bool :=
  match envGet e name with
  | Some _ => true
  | None => false
  end.

(** [this.env[name] = value] for a string [value], or for the value that
    [this.env[name]] gave before: the name becomes an own key, except that
    an assignment to [__proto__] goes to the setter the object inherits,
    which leaves the object as it is, unless [__proto__] is an own key
    already. *)
Definition envSet (name value : string) (e : Env) : Env :=
  match e !! name with
  | None => if String.eqb name "__proto__" then e else <[name := value]> e
  | Some _ => <[name := value]> e
  end.

(** A frame of [localScopes]: the names made local, each with the value it
    had before ([None] for [undefined]), in insertion order.  The stack
    itself is kept with its most recent frame first. *)
Definition Frame := list (string * option string).

Definition frameHas (k : string) (f : Frame) : bool :=
  existsb (fun e => String.eqb (fst e) k) f.

Record ShellState (FS : Type) := mkState {
  fs : FS;
  cwd : string;
  env : Env;
  functions : gmap string string;
  previousDir : string;
  localScopes : list Frame;
  callDepth : nat;
  commandCount : nat
}.
Arguments mkState {FS}.
Arguments fs {FS}. Arguments cwd {FS}. Arguments env {FS}.
Arguments functions {FS}. Arguments previousDir {FS}.
Arguments localScopes {FS}. Arguments callDepth {FS}.
Arguments commandCount {FS}.

Section Setters.
Context {FS : Type}.
Implicit Type s : ShellState FS.

Definition setFs (x : FS) s :=
  mkState x (cwd s) (env s) (functions s) (previousDir s) (localScopes s)
          (callDepth s) (commandCount s).
Definition setEnv (x : Env) s :=
  mkState (fs s) (cwd s) x (functions s) (previousDir s) (localScopes s)
          (callDepth s) (commandCount s).
Definition setFunctions (x : gmap string string) s :=
  mkState (fs s) (cwd s) (env s) x (previousDir s) (localScopes s)
          (callDepth s) (commandCount s).
Definition setDirs (newCwd newPrevious : string) s :=
  mkState (fs s) newCwd (env s) (functions s) newPrevious (localScopes s)
          (callDepth s) (commandCount s).
Definition setLocalScopes (x : list Frame) s :=
  mkState (fs s) (cwd s) (env s) (functions s) (previousDir s) x
          (callDepth s) (commandCount s).
Definition setCallDepth (x : nat) s :=
  mkState (fs s) (cwd s) (env s) (functions s) (previousDir s)
          (localScopes s) x (commandCount s).
Definition setCommandCount (x : nat) s :=
  mkState (fs s) (cwd s) (env s) (functions s) (previousDir s)
          (localScopes s) (callDepth s) x.
End Setters.

(** ** Outcomes of an asynchronous method

    [Ret] is a fulfilled promise, [Throw] a rejected one (the state reached
    when the exception was raised is kept), [OutOfFuel] marks a run that the
    bounded evaluator could not finish. *)

Inductive outcome (St A : Type) :=
| Ret (a : A) (s : St)
| Throw (message : string) (s : St)
| OutOfFuel.
Arguments Ret {St A}. Arguments Throw {St A}. Arguments OutOfFuel {St A}.

Definition bind {St A B} (m : outcome St A) (k : A -> St -> outcome St B)
  : outcome St B :=
  match m with
  | Ret a s => k a s
  | Throw e s => Throw e s
  | OutOfFuel => OutOfFuel
  end.

Notation "'await' ( x , s ) <- m 'in' k" := (bind m (fun x s => k))
  (at level 10, x name, s name, m at level 100, k at level 200).

(** The result of a fallible synchronous or awaited call. *)
Inductive attempt (A : Type) :=
| Ok (a : A)
| Err (message : string).
Arguments Ok {A}. Arguments Err {A}.

(** ** Collaborators *)

Record FsStat := mkStat { isFile : bool; isDirectory : bool; mode : nat }.

(** The part of [IFileSystem] the engine calls. *)
Class IFileSystem (FS : Type) := {
  readFile : FS -> string -> attempt string;
  writeFile : FS -> string -> string -> attempt FS;
  appendFile : FS -> string -> string -> attempt FS;
  stat : FS -> string -> attempt FsStat;
  resolvePath : FS -> string -> string -> string;
  getAllPaths : FS -> list string
}.

(** The members of [CommandContext] that are plain values: [cwd] and
    [stdin].  Its [fs] and [env] members are the live objects of the
    interpreter, which a command reads and updates, and the [exec] member
    that the class adds to the context object calls the interpreter back;
    a command has them through [CommandRun]. *)
Record CommandContext := mkCtx { ctx_cwd : string; ctx_stdin : string }.

(** A run of [cmd.execute(args, ctx)], from the file system and the
    environment it finds.  [mkRun] is a run that has come to its end: a
    result or the message of the exception it raised, and the file system
    and the environment as the command left them.  [callExec] is a run
    that has come to [await ctx.exec(commandLine)]: the file system and
    the environment as they are at the call, and how the command goes on
    with what the call gave (a result, or the message of the exception it
    raised) and with the file system and the environment as the call left
    them. *)
Inductive CommandRun (FS : Type) :=
| mkRun (result : attempt ExecResult) (runFs : FS) (runEnv : Env)
| callExec (commandLine : string) (callFs : FS) (callEnv : Env)
           (resume : attempt ExecResult -> FS -> Env -> CommandRun FS).
Arguments mkRun {FS}. Arguments callExec {FS}.

Record Command (FS : Type) := mkCommand {
  name : string;
  execute : list string -> CommandContext -> FS -> Env -> CommandRun FS
}.
Arguments mkCommand {FS}. Arguments name {FS}. Arguments execute {FS}.

Record IfBranch := mkBranch { condition : option string; body : string }.

(** Everything an interpreter instance is built from and does not change
    while it runs: the file-system implementation, the command registry,
    the three limits, and the two collaborators whose code is missing
    ([ShellParser.parse] after [setEnv], and the matcher behind
    [GlobExpander]). *)
Class Host := {
  FS : Type;
  fsops :: IFileSystem FS;
  commands : gmap string (Command FS);
  parse : Env -> string -> list Pipeline;
  globMatch : list string -> string -> string -> list string;
  maxCallDepth : nat;
  maxCommandCount : nat;
  maxLoopIterations : nat
}.

Definition DEFAULT_MAX_CALL_DEPTH : nat := 100.
Definition DEFAULT_MAX_COMMAND_COUNT : nat := 10000.
Definition DEFAULT_MAX_LOOP_ITERATIONS : nat := 10000.

(** [value || ...]: the empty string counts as no value. *)
Definition truthy (o : option string) : option string :=
  match o with
  | Some EmptyString => None
  | _ => o
  end.

(** ** The scanner of if statements

    [parseIfStatement] of the interpreter class.  The loop over [pos] is
    a recursion over [rest.slice(pos)]: [skip] counts the characters that
    a jump of [pos] still has to pass, and a [Skip] class stands for the
    inner loop that passes over separators. *)

Module IfParser.

(** A regular expression anchored at the start of [s]: the keyword [kw]
    followed by a white-space character or, when [loose], by a semicolon
    or the end of the text as well. *)
Definition keyword (kw : string) (loose : bool) (s : string) : bool :=
  Js.startsWith kw s
  && match Js.drop (String.length kw) s with
     | EmptyString => loose
     | String d _ => Js.isSpace d || (loose && Ascii.eqb d ";")
     end.

Inductive State := Condition | Body.

(** The variables of the loop. *)
Record Scan := mkScan {
  depth : nat;
  state : State;
  currentCondition : string;
  currentBody : string;
  branches : list IfBranch
}.

(** What an inner loop passes over: nothing, semicolons and spaces, or
    spaces. *)
Inductive Skip := NoSkip | Separators | Spaces.

Definition skips (cls : Skip) (c : ascii) : bool :=
  match cls with
  | NoSkip => false
  | Separators => Ascii.eqb c ";" || Ascii.eqb c " "
  | Spaces => Ascii.eqb c " "
  end.

Definition setDepth (d : nat) (v : Scan) : Scan :=
  mkScan d (state v) (currentCondition v) (currentBody v) (branches v).

Definition setState (st : State) (v : Scan) : Scan :=
  mkScan (depth v) st (currentCondition v) (currentBody v) (branches v).

(** [currentCondition += text] or [currentBody += text], by the state. *)
Definition addText (text : string) (v : Scan) : Scan :=
  match state v with
  | Condition =>
      mkScan (depth v) (state v) (currentCondition v +:+ text) (currentBody v)
             (branches v)
  | Body =>
      mkScan (depth v) (state v) (currentCondition v) (currentBody v +:+ text)
             (branches v)
  end.

(** The branch that [elif] and [else] save, unless both texts are blank,
    and the reset of the two texts; [next] is the state that follows. *)
Definition saveBranch (next : State) (v : Scan) : Scan :=
  let cond := Js.trim (currentCondition v) in
  let text := Js.trim (currentBody v) in
  mkScan (depth v) next "" ""
         (if negb (String.eqb cond "") || negb (String.eqb text "")
          then (branches v ++ [mkBranch (Some cond) text])%list
          else branches v).

(** The [fi] that closes the statement: the depth reaches 0 and, in the
    body state, the last branch is saved, without condition when the
    condition text is blank. *)
Definition close (v : Scan) : Scan :=
  mkScan 0 (state v) (currentCondition v) (currentBody v)
         (match state v with
          | Body =>
              (branches v
                 ++ [mkBranch (truthy (Some (Js.trim (currentCondition v))))
                              (Js.trim (currentBody v))])%list
          | Condition => branches v
          end).

Fixpoint scan (v : Scan) (skip : nat) (cls : Skip) (s : string) : Scan :=
  match s with
  | EmptyString => v
  | String c t =>
      match skip with
      | S k => scan v k cls t
      | O =>
          if skips cls c then scan v 0 cls t
          else if keyword "if" false s
          then scan (setDepth (S (depth v)) (addText "if " v)) 2 NoSkip t
          else if keyword "fi" true s
          then if (depth v =? 1)%nat then close v
               else scan (setDepth (Nat.pred (depth v)) (addText "fi" v)) 1 NoSkip t
          else if (depth v =? 1)%nat && keyword "then" true s
          then scan (setState Body v) 3 Separators t
          else if (depth v =? 1)%nat && keyword "elif" false s
          then scan (saveBranch Condition v) 4 NoSkip t
          else if (depth v =? 1)%nat && keyword "else" true s
          then scan (saveBranch Body v) 3 Separators t
          else
            match state v with
            | Condition =>
                if Ascii.eqb c ";" then scan v 0 Spaces t
                else scan (addText (String c "") v) 0 NoSkip t
            | Body => scan (addText (String c "") v) 0 NoSkip t
            end
      end
  end.

(** The last branch becomes the [else] branch when its condition is the
    empty string. *)
Fixpoint markElse (l : list IfBranch) : list IfBranch :=
  match l with
  | [] => []
  | [branch] => [mkBranch (truthy (condition branch)) (body branch)]
  | branch :: l' => branch :: markElse l'
  end.

Definition parseIfStatement (input : string) : attempt (list IfBranch) :=
  let rest := Js.trim input in
  if negb (Js.startsWith "if " rest) && negb (Js.startsWith "if;" rest)
  then Err ("bash: syntax error near unexpected token" +:+ nl)
  else
    let rest := Js.trim (Js.drop 2 rest) in
    let v := scan (mkScan 1 Condition "" "" []) 0 NoSkip rest in
    let found := markElse (branches v) in
    if negb (depth v =? 0)%nat
    then Err ("bash: syntax error: unexpected end of file" +:+ nl)
    else match found with
         | [] => Err ("bash: syntax error near unexpected token" +:+ nl)
         | _ => Ok found
         end.

End IfParser.

(** ** The regular expressions of the loops

    Each loop recognises its statement with a regular expression and, when
    that fails, with a second one that takes [do] without a semicolon
    before it.  A part of a regular expression is a matcher with
    backtracking: it tries its alternatives in the order of the JavaScript
    matcher and hands what it leaves of the text to [next], the parts that
    follow it; the first alternative under which they match is the
    match. *)

Module LoopRegex.
Section Parts.
Context {A : Type}.

(** A literal text. *)
Definition lit (text : string) (next : string -> option A) (s : string)
  : option A :=
  if Js.startsWith text s then next (Js.drop (String.length text) s) else None.

(** [\s*]: as many white-space characters as possible first. *)
Fixpoint spaces (next : string -> option A) (s : string) : option A :=
  match s with
  | String c t =>
      if Js.isSpace c
      then match spaces next t with
           | Some r => Some r
           | None => next s
           end
      else next s
  | EmptyString => next s
  end.

(** [\s+] *)
Definition spaces1 (next : string -> option A) (s : string) : option A :=
  match s with
  | String c t => if Js.isSpace c then spaces next t else None
  | EmptyString => None
  end.

(** [(.*?)] under the flag [s]: as few characters as possible first;
    [seen] is the text taken so far, which [next] receives as the text of
    the group. *)
Fixpoint lazyGroup (seen : string) (next : string -> string -> option A)
    (s : string) : option A :=
  match next seen s with
  | Some r => Some r
  | None =>
      match s with
      | String c t => lazyGroup (seen +:+ String c "") next t
      | EmptyString => None
      end
  end.

(** A starred class of name characters inside a group: as many name
    characters as possible first. *)
Fixpoint nameChars (seen : string) (next : string -> string -> option A)
    (s : string) : option A :=
  match s with
  | String c t =>
      if Js.isNameChar c
      then match nameChars (seen +:+ String c "") next t with
           | Some r => Some r
           | None => next seen s
           end
      else next seen s
  | EmptyString => next seen s
  end.

(** The group of an identifier: a letter or an underscore, then name
    characters. *)
Definition identifier (next : string -> string -> option A) (s : string)
  : option A :=
  match s with
  | String c t => if Js.isNameStart c then nameChars (String c "") next t else None
  | EmptyString => None
  end.

(** [$]: the match is [r] when the text has come to its end. *)
Definition atEnd (r : A) (s : string) : option A :=
  if String.eqb s "" then Some r else None.

(** [\s*;\s*done\s*$] *)
Definition doneTail (r : A) : string -> option A :=
  spaces (lit ";" (spaces (lit "done" (spaces (atEnd r))))).

(** [do\s+(.*?)\s*;\s*done\s*$]; [result] makes the match from the text
    of the group. *)
Definition doBody (result : string -> A) : string -> option A :=
  lit "do" (spaces1 (lazyGroup "" (fun text => doneTail (result text)))).

(** [\s*;\s*do\s+(.*?)\s*;\s*done\s*$] *)
Definition semicolonDo (result : string -> A) : string -> option A :=
  spaces (lit ";" (spaces (doBody result))).

(** [\s+do\s+(.*?)\s*;\s*done\s*$] *)
Definition spaceDo (result : string -> A) : string -> option A :=
  spaces1 (doBody result).

End Parts.

(** [^for\s+], the group of an identifier, [\s+in\s*] and the lazy group
    of the list, followed by [toDo], one of the two ways to come to
    [do]. *)
Definition forWith
    (toDo : (string -> string * string * string) -> string
            -> option (string * string * string))
    (input : string) : option (string * string * string) :=
  lit "for"
    (spaces1
       (identifier (fun varName =>
          spaces1
            (lit "in"
               (spaces
                  (lazyGroup "" (fun listStr =>
                     toDo (fun text => (varName, listStr, text))))))))) input.

(** [input.match] of the first expression and, when it fails, of the
    second: the variable, the list and the body. *)
Definition matchForLoop (input : string) : option (string * string * string) :=
  match forWith semicolonDo input with
  | Some found => Some found
  | None => forWith spaceDo input
  end.

(** [^while\s+(.*?)] or [^until\s+(.*?)] followed by [toDo]. *)
Definition condWith (kw : string)
    (toDo : (string -> string * string) -> string -> option (string * string))
    (input : string) : option (string * string) :=
  lit kw
    (spaces1 (lazyGroup "" (fun cond => toDo (fun text => (cond, text))))) input.

(** The condition and the body. *)
Definition matchWhileLoop (input : string) : option (string * string) :=
  match condWith "while" semicolonDo input with
  | Some found => Some found
  | None => condWith "while" spaceDo input
  end.

Definition matchUntilLoop (input : string) : option (string * string) :=
  match condWith "until" semicolonDo input with
  | Some found => Some found
  | None => condWith "until" spaceDo input
  end.

End LoopRegex.

(** ** The interpreter *)

Section Interpreter.
Context `{Host}.

Abbreviation State := (ShellState FS).
Abbreviation M A := (State -> outcome State A).

(** [o ?? ""] for a lookup in [env]. *)
Definition orEmpty (o : option string) : string := default "" o.

(** *** expandVariables *)

(** The text between the braces of a braced expansion: the regular
    expression for a default succeeds when a non-empty colon-free name is
    followed by [:-] and by a default without line terminator; it then
    yields the name and the default. *)
Definition defaultMatch (content : string) : option (string * string) :=
  match Js.indexOf ":" content with
  | Some (S k) =>
      let rest := Js.drop (S k) content in
      if Js.startsWith ":-" rest && Js.all (fun c => negb (Js.isLineTerminator c)) (Js.drop 2 rest)
      then Some (Js.take (S k) content, Js.drop 2 rest)
      else None
  | _ => None
  end.

(** The expansion of a [$] followed by [nextChar :: rest]: the text it
    contributes and how many characters after the [$] it consumes. *)
Definition expandDollar (e : Env) (nextChar : ascii) (rest : string)
  : string * nat :=
  let braced :=
    if Ascii.eqb nextChar "{" then
      match Js.indexOf "}" rest with
      | Some k =>
          let content := Js.take k rest in
          Some (match defaultMatch content with
                | Some (varName, defaultValue) =>
                    default defaultValue (envGet e varName)
                | None => orEmpty (envGet e content)
                end, S (S k))
      | None => None
      end
    else None in
  match braced with
  | Some r => r
  | None =>
      if Js.includes nextChar "@#$?!*" || Js.isDigit nextChar
      then (orEmpty (envGet e (String nextChar EmptyString)), 1%nat)
      else if Js.isNameStart nextChar
      then let varName := String nextChar (Js.takeWhile Js.isNameChar rest) in
           (orEmpty (envGet e varName), String.length varName)
      else ("$", 0%nat)
  end.

(** The scan of [expandVariables] from index [i] on: [s] is [str.slice(i)]
    and [skip] counts the characters already consumed by the expansion
    that started before [i]. *)
Fixpoint expandFrom (e : Env) (skip : nat) (s : string) : string :=
  match s with
  | EmptyString => EmptyString
  | String c t =>
      match skip with
      | S k => expandFrom e k t
      | O =>
          match t with
          | String nextChar rest =>
              if Ascii.eqb c "$"
              then let '(v, n) := expandDollar e nextChar rest in
                   v +:+ expandFrom e n t
              else String c (expandFrom e O t)
          | EmptyString => String c EmptyString
          end
      end
  end.

Definition expandVariables (e : Env) (str : string) : string :=
  expandFrom e O str.

(** *** Glob expansion *)

Definition hasGlobChar (arg : string) : bool :=
  Js.includes "*" arg || Js.includes "?" arg || Js.includes "[" arg.

(** Modelled from the spec: [GlobExpander.expandArgs], of the shell module,
    is missing.  Only an unquoted argument containing [*], [?] or [[] is
    expanded, against the paths the file system exposes and relative to the
    working directory; a pattern that matches nothing stays as it was
    written. *)
Fixpoint expandArgs (paths : list string) (dir : string)
    (l : list string) (quoted : list bool) : list string :=
  match l with
  | [] => []
  | arg :: l' =>
      ((if hd false quoted || negb (hasGlobChar arg) then [arg]
       else match globMatch paths dir arg with
            | [] => [arg]
            | found => found
            end) ++ expandArgs paths dir l' (tl quoted))%list
  end.

(** [args.map((arg, i) => quotedArgs[i] ? arg : this.expandVariables(arg))] *)
Fixpoint expandUnquoted (e : Env) (l : list string) (quoted : list bool)
  : list string :=
  match l with
  | [] => []
  | arg :: l' =>
      (if hd false quoted then arg else expandVariables e arg)
        :: expandUnquoted e l' (tl quoted)
  end.

(** *** Builtins *)

Definition handleCd (l : list string) : M ExecResult := fun s =>
  let tgt :=
    match truthy (head l), truthy (env s !! "HOME") with
    | Some a, _ => a
    | None, Some h => h
    | None, None => "/"
    end in
  let newDir :=
    if String.eqb tgt "-" then previousDir s
    else if String.eqb tgt "~" then default "/" (truthy (env s !! "HOME"))
    else resolvePath (fs s) (cwd s) tgt in
  match stat (fs s) newDir with
  | Ok st =>
      if negb (isDirectory st)
      then Ret (mkResult "" ("cd: " +:+ tgt +:+ ": Not a directory" +:+ nl) 1) s
      else Ret okResult (setDirs newDir (cwd s) s)
  | Err _ =>
      Ret (mkResult "" ("cd: " +:+ tgt +:+ ": No such file or directory" +:+ nl) 1) s
  end.

(** The private [handleExport] of the class: only [NAME=value] words with
    a non-empty name have an effect. *)
Fixpoint exportArgs (l : list string) (e : Env) : Env :=
  match l with
  | [] => e
  | arg :: l' =>
      match Js.indexOf "=" arg with
      | Some (S k) => exportArgs l' (envSet (Js.take (S k) arg) (Js.drop (S (S k)) arg) e)
      | _ => exportArgs l' e
      end
  end.

Definition handleExport (l : list string) : M ExecResult := fun s =>
  Ret okResult (setEnv (exportArgs l (env s)) s).

Definition handleUnset (l : list string) : M ExecResult := fun s =>
  Ret okResult (setEnv (fold_left (fun e arg => delete arg e) l (env s)) s).

(** One word of [local]: the frame records the value the name had, once,
    and the environment takes the new value. *)
Definition localArg (arg : string) (st : Frame * Env) : Frame * Env :=
  let '(currentScope, e) := st in
  let '(varName, value) :=
    match Js.indexOf "=" arg with
    | Some (S k) => (Js.take (S k) arg, Some (Js.drop (S (S k)) arg))
    | _ => (arg, None)
    end in
  let currentScope :=
    if frameHas varName currentScope then currentScope
    else (currentScope ++ [(varName, envGet e varName)])%list in
  let e :=
    match value with
    | Some v => envSet varName v e
    | None => if envHas e varName then e else envSet varName "" e
    end in
  (currentScope, e).

Definition handleLocal (l : list string) : M ExecResult := fun s =>
  match localScopes s with
  | [] =>
      Ret (mkResult "" ("bash: local: can only be used in a function" +:+ nl) 1) s
  | currentScope :: below =>
      let '(scope', e') := fold_left (fun st arg => localArg arg st) l
                                     (currentScope, env s) in
      Ret okResult (setLocalScopes (scope' :: below) (setEnv e' s))
  end.

(** *** Redirections *)

(** The loop that serves the [<] redirections before the command runs:
    the last readable file wins, the first unreadable one fails the
    stage. *)
Fixpoint readStdin (l : list Redirection) (stdin : string) (s : State)
  : attempt string :=
  match l with
  | [] => Ok stdin
  | redir :: l' =>
      match rtype redir, truthy (target redir) with
      | RStdin, Some t =>
          match readFile (fs s) (resolvePath (fs s) (cwd s) t) with
          | Ok content => readStdin l' content s
          | Err _ => Err ("bash: " +:+ t +:+ ": No such file or directory" +:+ nl)
          end
      | _, _ => readStdin l' stdin s
      end
  end.

Definition writeOrAppend (redir : Redirection) (filePath content : string)
    (s : State) : attempt FS :=
  if append redir then appendFile (fs s) filePath content
  else writeFile (fs s) filePath content.

Fixpoint applyRedirections (result : ExecResult) (l : list Redirection)
  : M ExecResult := fun s =>
  match l with
  | [] => Ret result s
  | redir :: l' =>
      match rtype redir with
      | RStdout =>
          match truthy (target redir) with
          | Some t =>
              match writeOrAppend redir (resolvePath (fs s) (cwd s) t) (stdout result) s with
              | Ok fs' =>
                  applyRedirections (mkResult "" (stderr result) (exitCode result)) l'
                                    (setFs fs' s)
              | Err e => Throw e s
              end
          | None => applyRedirections result l' s
          end
      | RStderr =>
          match truthy (target redir) with
          | Some t =>
              if String.eqb t "/dev/null"
              then applyRedirections (mkResult (stdout result) "" (exitCode result)) l' s
              else
                match writeOrAppend redir (resolvePath (fs s) (cwd s) t) (stderr result) s with
                | Ok fs' =>
                    applyRedirections (mkResult (stdout result) "" (exitCode result)) l'
                                      (setFs fs' s)
                | Err e => Throw e s
                end
          | None => applyRedirections result l' s
          end
      | RStderrToStdout =>
          applyRedirections
            (mkResult (stdout result +:+ stderr result) "" (exitCode result)) l' s
      | RStdin => applyRedirections result l' s
      end
  end.

(** *** Function calls *)

(** [this.env[String(i + 1)] = expandedArgs[i]] for every [i], from
    [i = from - 1] on. *)
Fixpoint bindPositional (from : nat) (l : list string) (e : Env) : Env :=
  match l with
  | [] => e
  | a :: l' => bindPositional (S from) l' (<[Js.ofNat from := a]> e)
  end.

(** [delete this.env[String(i)]] for [i] from [from] up. *)
Fixpoint clearPositional (from : nat) (l : list string) (e : Env) : Env :=
  match l with
  | [] => e
  | _ :: l' => clearPositional (S from) l' (delete (Js.ofNat from) e)
  end.

(** The loop over the popped frame. *)
Definition restoreScope (localScope : Frame) (e : Env) : Env :=
  fold_left (fun e entry =>
               match snd entry with
               | None => delete (fst entry) e
               | Some originalValue => envSet (fst entry) originalValue e
               end) localScope e.

Definition recursionMessage (expandedCommand : string) : string :=
  "bash: " +:+ expandedCommand +:+ ": maximum recursion depth ("
    +:+ Js.ofNat maxCallDepth +:+ ") exceeded. Increase with maxCallDepth option." +:+ nl.

(** What follows [await this.exec(funcBody)]. *)
Definition leaveFunction (expandedArgs : list string) (s : State) : State :=
  let s := setCallDepth (Nat.pred (callDepth s)) s in
  let s :=
    match localScopes s with
    | localScope :: below =>
        setEnv (restoreScope localScope (env s)) (setLocalScopes below s)
    | [] => s
    end in
  setEnv (delete "#" (delete "@" (clearPositional 1 expandedArgs (env s)))) s.

(** What precedes it, once the depth has been accepted. *)
Definition enterFunction (expandedArgs : list string) (s : State) : State :=
  let s := setLocalScopes ([] :: localScopes s) s in
  setEnv (<["#" := Js.ofNat (length expandedArgs)]>
            (<["@" := Js.join " " expandedArgs]>
               (bindPositional 1 expandedArgs (env s)))) s.

Definition callFunction (rec : string -> M ExecResult)
    (expandedCommand funcBody : string) (expandedArgs : list string)
  : M ExecResult := fun s =>
  let s := setCallDepth (S (callDepth s)) s in
  if (maxCallDepth <? callDepth s)%nat
  then Ret (mkResult "" (recursionMessage expandedCommand) 1)
           (setCallDepth (Nat.pred (callDepth s)) s)
  else
    await (result, s) <- rec funcBody (enterFunction expandedArgs s) in
    Ret result (leaveFunction expandedArgs s).

(** *** Registry dispatch *)

(** [await cmd.execute(expandedArgs, ctx)]: the calls of [ctx.exec] that
    the command makes are served by [rec], and an exception of such a call
    goes to the command, which may catch it. *)
Fixpoint runCommand (rec : string -> M ExecResult) (run : CommandRun FS)
  : M (attempt ExecResult) := fun s =>
  match run with
  | mkRun result runFs runEnv => Ret result (setEnv runEnv (setFs runFs s))
  | callExec commandLine callFs callEnv resume =>
      match rec commandLine (setEnv callEnv (setFs callFs s)) with
      | Ret result s => runCommand rec (resume (Ok result) (fs s) (env s)) s
      | Throw message s => runCommand rec (resume (Err message) (fs s) (env s)) s
      | OutOfFuel => OutOfFuel
      end
  end.

Definition dispatch (rec : string -> M ExecResult) (cmd : Command FS)
    (c : ParsedCommand) (expandedArgs : list string) (stdin : string)
  : M ExecResult := fun s =>
  await (ended, s) <-
    runCommand rec (execute cmd expandedArgs (mkCtx (cwd s) stdin) (fs s) (env s)) s in
  applyRedirections
    match ended with
    | Ok result => result
    | Err message => mkResult "" (command c +:+ ": " +:+ message +:+ nl) 1
    end (redirections c) s.

(** *** If statements *)

Fixpoint runBranches (rec : string -> M ExecResult) (l : list IfBranch)
  : M ExecResult := fun s =>
  match l with
  | [] => Ret okResult s
  | branch :: l' =>
      match condition branch with
      | None => rec (body branch) s
      | Some cond =>
          await (condResult, s) <- rec cond s in
          if exitCode condResult =? 0 then rec (body branch) s
          else runBranches rec l' s
      end
  end.

Definition executeIfStatement (rec : string -> M ExecResult) (input : string)
  : M ExecResult := fun s =>
  match IfParser.parseIfStatement input with
  | Err e => Ret (mkResult "" e 2) s
  | Ok branches => runBranches rec branches s
  end.

(** *** executeCommand *)

Definition isIdentifier (s : string) : bool :=
  match s with
  | String c t => Js.isNameStart c && Js.all Js.isNameChar t
  | EmptyString => false
  end.

Definition exitBuiltin (expandedArgs : list string) : ExecResult :=
  let code :=
    match truthy (head expandedArgs) with
    | Some a => Js.parseInt a
    | None => Some 0
    end in
  mkResult "" "" (default 1 code).

(** [VAR=value] as the whole command: [None] when the word is not an
    assignment to an identifier. *)
Definition assignment (expandedCommand : string) (expandedArgs : list string)
  : option (string * string) :=
  match expandedArgs, Js.indexOf "=" expandedCommand with
  | [], Some eqIndex =>
      let varName := Js.take eqIndex expandedCommand in
      if isIdentifier varName
      then Some (varName, Js.drop (S eqIndex) expandedCommand)
      else None
  | _, _ => None
  end.

Definition commandNameOf (expandedCommand : string) : string :=
  if Js.includes "/" expandedCommand
  then match Js.lastSegment "/" expandedCommand with
       | EmptyString => expandedCommand
       | seg => seg
       end
  else expandedCommand.

Definition executeCommand (rec : string -> M ExecResult) (c : ParsedCommand)
    (stdin : string) : M ExecResult := fun s =>
  if String.eqb (command c) "" then Ret okResult s
  else
    match readStdin (redirections c) stdin s with
    | Err e => Ret (mkResult "" e 1) s
    | Ok stdin =>
        if Js.startsWith "if " (command c) || Js.startsWith "if;" (command c)
        then executeIfStatement rec (command c) s
        else
          let expandedCommand := expandVariables (env s) (command c) in
          let varExpandedArgs := expandUnquoted (env s) (args c) (quotedArgs c) in
          let expandedArgs :=
            expandArgs (getAllPaths (fs s)) (cwd s) varExpandedArgs (quotedArgs c) in
          if String.eqb expandedCommand "cd" then handleCd expandedArgs s
          else if String.eqb expandedCommand "export" then handleExport expandedArgs s
          else if String.eqb expandedCommand "unset" then handleUnset expandedArgs s
          else if String.eqb expandedCommand "exit" then Ret (exitBuiltin expandedArgs) s
          else if String.eqb expandedCommand "local" then handleLocal expandedArgs s
          else
            match assignment expandedCommand expandedArgs with
            | Some (varName, value) => Ret okResult (setEnv (envSet varName value (env s)) s)
            | None =>
                match truthy (functions s !! expandedCommand) with
                | Some funcBody => callFunction rec expandedCommand funcBody expandedArgs s
                | None =>
                    match commands !! commandNameOf expandedCommand with
                    | None =>
                        Ret (mkResult "" ("bash: " +:+ expandedCommand
                                            +:+ ": command not found" +:+ nl) 127) s
                    | Some cmd => dispatch rec cmd c expandedArgs stdin s
                    end
                end
            end
    end.

(** *** executePipeline *)

(** The variables of the stage loop. *)
Record LoopState := mkLoop {
  loopStdin : string;
  lastResult : ExecResult;
  accumulatedStdout : string;
  accumulatedStderr : string;
  currentNegationCount : nat
}.

Definition invertExit (code : Z) : Z := if code =? 0 then 1 else 0.

(** The two [continue] tests. *)
Definition skipped (op : ChainOperator) (lastExit : Z) : bool :=
  (isAnd op && negb (lastExit =? 0)) || (isOr op && (lastExit =? 0)).

(** [nextCommand?.operator || ""] *)
Definition nextOperatorOf (following : list PipelineStage) : ChainOperator :=
  match following with
  | nextCommand :: _ => operator nextCommand
  | [] => OpPipe
  end.

(** [currentNegationCount] once the stage at index [i] has been looked at:
    the first stage of a segment brings its own count. *)
Definition segmentNegation (i : nat) (stage : PipelineStage) (v : LoopState) : nat :=
  if negb (isPipe (operator stage)) || (i =? 0)%nat
  then negationCount stage else currentNegationCount v.

Definition withNegation (negation : nat) (v : LoopState) : LoopState :=
  mkLoop (loopStdin v) (lastResult v) (accumulatedStdout v)
         (accumulatedStderr v) negation.

(** [commandStdin] *)
Definition stdinFor (initialStdin : string) (i : nat) (stage : PipelineStage)
    (v : LoopState) : string :=
  if isPipe (operator stage) && (0 <? i)%nat then loopStdin v else initialStdin.

(** [isPipedOutput && i < pipeline.commands.length - 1] *)
Definition pipedOn (following : list PipelineStage) : bool :=
  isPipe (nextOperatorOf following)
  && match following with [] => false | _ => true end.

Definition applyNegation (count : nat) (code : Z) : Z :=
  if Nat.odd count then invertExit code else code.

(** The result of the last stage of a segment, once the negation of the
    segment has been applied. *)
Definition negate (count : nat) (result : ExecResult) : ExecResult :=
  if Nat.odd count
  then mkResult (stdout result) (stderr result) (invertExit (exitCode result))
  else result.

(** The variables of the loop after the stage has returned [result]. *)
Definition afterStage (following : list PipelineStage) (v : LoopState)
    (negation : nat) (result : ExecResult) : LoopState :=
  if pipedOn following
  then mkLoop (stdout result) result (accumulatedStdout v)
              (accumulatedStderr v +:+ stderr result) negation
  else
    let result := negate negation result in
    mkLoop (loopStdin v) result (accumulatedStdout v +:+ stdout result)
           (accumulatedStderr v +:+ stderr result) negation.

(** The stage loop from index [i] on; [stages] is what is left of
    [pipeline.commands] from [i], and [run] executes one stage. *)
Fixpoint stageLoop {St : Type}
    (run : ParsedCommand -> string -> St -> outcome St ExecResult)
    (initialStdin : string) (i : nat) (stages : list PipelineStage)
    (v : LoopState) (s : St) : outcome St LoopState :=
  match stages with
  | [] => Ret v s
  | stage :: following =>
      let negation := segmentNegation i stage v in
      if skipped (operator stage) (exitCode (lastResult v))
      then stageLoop run initialStdin (S i) following (withNegation negation v) s
      else
        await (result, s) <- run (parsed stage) (stdinFor initialStdin i stage v) s in
        stageLoop run initialStdin (S i) following
                  (afterStage following v negation result) s
  end.

Definition initialLoop (initialStdin : string) : LoopState :=
  mkLoop initialStdin okResult "" "" 0.

Definition runPipeline {St : Type}
    (run : ParsedCommand -> string -> St -> outcome St ExecResult)
    (pipeline : Pipeline) (initialStdin : string) (s : St)
  : outcome St ExecResult :=
  await (v, s) <- stageLoop run initialStdin 0 pipeline (initialLoop initialStdin) s in
  Ret (mkResult (accumulatedStdout v) (accumulatedStderr v)
                (exitCode (lastResult v))) s.

Definition executePipeline (rec : string -> M ExecResult)
    (pipeline : Pipeline) (initialStdin : string) : M ExecResult :=
  runPipeline (executeCommand rec) pipeline initialStdin.

(** The loop of [exec] over the parsed pipelines. *)
Fixpoint runPipelines (rec : string -> M ExecResult) (l : list Pipeline)
    (stdin : string) (lastRes : ExecResult) : M ExecResult := fun s =>
  match l with
  | [] => Ret lastRes s
  | pipeline :: l' =>
      await (result, s) <- executePipeline rec pipeline stdin s in
      runPipelines rec l' (stdout result) result s
  end.

(** *** Loops *)

Definition loopLimitMessage (kind : string) : string :=
  "bash: " +:+ kind +:+ " loop: too many iterations ("
    +:+ Js.ofNat maxLoopIterations +:+ "). Increase with maxLoopIterations option." +:+ nl.

(** The body of [executeForLoopBody] from the item numbered [iterations]
    on. *)
Fixpoint forItems (rec : string -> M ExecResult) (varName body : string)
    (items : list string) (iterations : nat) (acc : ExecResult)
  : M ExecResult := fun s =>
  match items with
  | [] => Ret acc (setEnv (delete varName (env s)) s)
  | item :: items' =>
      if (maxLoopIterations <=? iterations)%nat
      then Ret (mkResult (stdout acc) (stderr acc +:+ loopLimitMessage "for") 1) s
      else
        await (result, s) <- rec body (setEnv (envSet varName item (env s)) s) in
        forItems rec varName body items' (S iterations)
                 (mkResult (stdout acc +:+ stdout result)
                           (stderr acc +:+ stderr result) (exitCode result)) s
  end.

Definition executeForLoop (rec : string -> M ExecResult) (input : string)
  : M ExecResult := fun s =>
  match LoopRegex.matchForLoop input with
  | None => Ret (mkResult "" ("bash: syntax error near for loop" +:+ nl) 2) s
  | Some (varName, listStr, body) =>
      forItems rec varName body (Js.words listStr) 0 okResult s
  end.

(** [executeWhileLoopBody] and [executeUntilLoopBody]: [left] is
    [maxLoopIterations - iterations], and [stopOn] tells on which outcome
    of the condition the loop ends. *)
Fixpoint condLoop (rec : string -> M ExecResult) (kind : string)
    (stopOn : Z -> bool) (cond body : string) (left : nat) (acc : ExecResult)
  : M ExecResult := fun s =>
  match left with
  | O => Ret (mkResult (stdout acc) (stderr acc +:+ loopLimitMessage kind) 1) s
  | S left' =>
      await (condResult, s) <- rec cond s in
      if stopOn (exitCode condResult) then Ret acc s
      else
        await (result, s) <- rec body s in
        condLoop rec kind stopOn cond body left'
                 (mkResult (stdout acc +:+ stdout result)
                           (stderr acc +:+ stderr result) (exitCode result)) s
  end.

Definition executeWhileLoop (rec : string -> M ExecResult) (input : string)
  : M ExecResult := fun s =>
  match LoopRegex.matchWhileLoop input with
  | None => Ret (mkResult "" ("bash: syntax error near while loop" +:+ nl) 2) s
  | Some (cond, body) =>
      condLoop rec "while" (fun code => negb (code =? 0)) cond body
               maxLoopIterations okResult s
  end.

Definition executeUntilLoop (rec : string -> M ExecResult) (input : string)
  : M ExecResult := fun s =>
  match LoopRegex.matchUntilLoop input with
  | None => Ret (mkResult "" ("bash: syntax error near until loop" +:+ nl) 2) s
  | Some (cond, body) =>
      condLoop rec "until" (fun code => code =? 0) cond body
               maxLoopIterations okResult s
  end.

(** *** Function definitions *)

(** The last character and what precedes it. *)
Fixpoint unsnoc (s : string) : option (string * ascii) :=
  match s with
  | EmptyString => None
  | String c t =>
      match unsnoc t with
      | None => Some (EmptyString, c)
      | Some (init, z) => Some (String c init, z)
      end
  end.

(** The tail shared by the two regular expressions of
    [parseFunctionDefinition], from the opening brace on: an opening
    brace, any text, a closing brace and white space up to the end.  The
    captured text comes back trimmed. *)
Definition bracedBody (s : string) : option string :=
  match s with
  | String c t =>
      match unsnoc (Js.trimEnd t) with
      | Some (inner, z) =>
          if Ascii.eqb c "{" && Ascii.eqb z "}" then Some (Js.trim inner) else None
      | None => None
      end
  | EmptyString => None
  end.

(** An identifier at the start of [s], as long as possible, and the rest. *)
Definition leadingIdentifier (s : string) : option (string * string) :=
  match s with
  | String c t =>
      if Js.isNameStart c
      then let n := String c (Js.takeWhile Js.isNameChar t) in
           Some (n, Js.drop (String.length n) s)
      else None
  | EmptyString => None
  end.

(** [function name { ... }] *)
Definition funcKeywordMatch (input : string) : option (string * string) :=
  if Js.startsWith "function" input then
    match Js.drop 8 input with
    | String c t =>
        if Js.isSpace c then
          match leadingIdentifier (Js.dropWhile Js.isSpace t) with
          | Some (n, rest) =>
              match bracedBody (Js.dropWhile Js.isSpace rest) with
              | Some b => Some (n, b)
              | None => None
              end
          | None => None
          end
        else None
    | EmptyString => None
    end
  else None.

(** [name() { ... }] *)
Definition parenMatch (input : string) : option (string * string) :=
  match leadingIdentifier input with
  | Some (n, rest) =>
      match Js.dropWhile Js.isSpace rest with
      | String c1 rest =>
          match Js.dropWhile Js.isSpace rest with
          | String c2 rest =>
              if Ascii.eqb c1 "(" && Ascii.eqb c2 ")" then
                match bracedBody (Js.dropWhile Js.isSpace rest) with
                | Some b => Some (n, b)
                | None => None
                end
              else None
          | EmptyString => None
          end
      | EmptyString => None
      end
  | None => None
  end.

Definition parseFunctionDefinition (input : string) : option (string * string) :=
  match funcKeywordMatch input with
  | Some r => Some r
  | None => parenMatch input
  end.

(** *** exec *)

Definition commandCountMessage : string :=
  "bash: maximum command count (" +:+ Js.ofNat maxCommandCount
    +:+ ") exceeded (possible infinite loop). Increase with maxCommandCount option." +:+ nl.

(** What [exec] does with a line once the command count has been
    accepted; [rec] is [exec] itself, for the nested calls. *)
Definition runLine (rec : string -> M ExecResult) (commandLine : string)
  : M ExecResult := fun s =>
  let trimmed := Js.trim commandLine in
  if String.eqb trimmed "" then Ret okResult s
  else if Js.startsWith "if " trimmed || Js.startsWith "if;" trimmed
          || String.eqb trimmed "if"
  then executeIfStatement rec trimmed s
  else if Js.startsWith "for " trimmed then executeForLoop rec trimmed s
  else if Js.startsWith "while " trimmed then executeWhileLoop rec trimmed s
  else if Js.startsWith "until " trimmed then executeUntilLoop rec trimmed s
  else
    match parseFunctionDefinition trimmed with
    | Some (funcName, funcBody) =>
        Ret okResult (setFunctions (<[funcName := funcBody]> (functions s)) s)
    | None => runPipelines rec (parse (env s) commandLine) "" okResult s
    end.

(** The command count at the entry of [exec]: reset by a top-level call,
    then incremented. *)
Definition countCommand (s : State) : State :=
  let s := if (callDepth s =? 0)%nat then setCommandCount 0 s else s in
  setCommandCount (S (commandCount s)) s.

(** One activation of [exec]. *)
Definition execBody (rec : string -> M ExecResult) (commandLine : string)
  : M ExecResult := fun s =>
  let s := countCommand s in
  if (maxCommandCount <? commandCount s)%nat
  then Ret (mkResult "" commandCountMessage 1) s
  else runLine rec commandLine s.

(** [exec], with a bound on the nesting of activations. *)
Fixpoint exec (fuel : nat) : string -> M ExecResult :=
  match fuel with
  | O => fun _ _ => OutOfFuel
  | S fuel' => execBody (exec fuel')
  end.

End Interpreter.

(** ** The stand-alone export builtin

    [handleExport(ctx, args)] of the builtins directory works on
    [ctx.state.env] alone.  [localeCompare] is a parameter; names that it
    declares equal keep an order that depends on insertion order, which a
    finite map does not record. *)

Module ExportBuiltin.
Section WithCollation.
Variable localeCompare : string -> string -> Z.

Fixpoint insertSorted (x : string * string) (l : list (string * string))
  : list (string * string) :=
  match l with
  | [] => [x]
  | y :: l' =>
      if localeCompare (fst x) (fst y) <=? 0 then x :: l
      else y :: insertSorted x l'
  end.

(** [entries.sort(([a], [b]) => a.localeCompare(b))] *)
Definition sortEntries (l : list (string * string)) : list (string * string) :=
  foldr insertSorted [] l.

Definition isAlias (key : string) : bool := Js.startsWith "BASH_ALIAS_" key.

Definition declareLine (entry : string * string) : string :=
  "declare -x " +:+ fst entry +:+ "='"
    +:+ Js.replaceAll "'" "'\''" (snd entry) +:+ "'" +:+ nl.

(** The variables the listing shows, in the order it shows them. *)
Definition listedEntries (e : Env) : list (string * string) :=
  sortEntries (filter (fun entry => negb (isAlias (fst entry))) (map_to_list e)).

(** The first loop: [-n] raises the flag, [-p] and [--] are dropped. *)
Fixpoint scanFlags (l : list string) (unexport : bool) (processedArgs : list string)
  : bool * list string :=
  match l with
  | [] => (unexport, processedArgs)
  | arg :: l' =>
      if String.eqb arg "-n" then scanFlags l' true processedArgs
      else if String.eqb arg "-p" then scanFlags l' unexport processedArgs
      else if String.eqb arg "--" then scanFlags l' unexport processedArgs
      else scanFlags l' unexport (processedArgs ++ [arg])%list
  end.

(** [arg.split("=")[0]] *)
Definition beforeEquals (arg : string) : string :=
  match Js.indexOf "=" arg with
  | Some k => Js.take k arg
  | None => arg
  end.

Definition exportOne (e : Env) (arg : string) : Env :=
  match Js.indexOf "=" arg with
  | Some eqIdx => envSet (Js.take eqIdx arg) (Js.drop (S eqIdx) arg) e
  | None => if envHas e arg then e else envSet arg "" e
  end.

Definition handleExport (e : Env) (l : list string) : ExecResult * Env :=
  let '(unexport, processedArgs) := scanFlags l false [] in
  match processedArgs, unexport with
  | [], false =>
      (mkResult (fold_left (fun out entry => out +:+ declareLine entry)
                           (listedEntries e) "") "" 0, e)
  | _, true =>
      (okResult,
       fold_left (fun e arg => delete (beforeEquals arg) e) processedArgs e)
  | _, false => (okResult, fold_left exportOne processedArgs e)
  end.

End WithCollation.
End ExportBuiltin.

(** ** The echo command *)

Module Echo.

(** The flag loop: the first word that is not a flag ends it. *)
Fixpoint parseFlags (l : list string) (noNewline interpretEscapes : bool)
  : bool * bool * list string :=
  match l with
  | arg :: l' =>
      if String.eqb arg "-n" then parseFlags l' true interpretEscapes
      else if String.eqb arg "-e" then parseFlags l' noNewline true
      else if String.eqb arg "-E" then parseFlags l' noNewline false
      else if String.eqb arg "-ne" || String.eqb arg "-en" then parseFlags l' true true
      else (noNewline, interpretEscapes, l)
  | [] => (noNewline, interpretEscapes, [])
  end.

Definition ch (n : nat) : string := String (ascii_of_nat n) EmptyString.
Definition backslash : string := ch 92.
Definition placeholder : string := ch 0 +:+ "BACKSLASH" +:+ ch 0.

Definition interpret (output : string) : string :=
  Js.replaceAll placeholder backslash
    (Js.replaceAll (backslash +:+ "v") (ch 11)
    (Js.replaceAll (backslash +:+ "f") (ch 12)
    (Js.replaceAll (backslash +:+ "b") (ch 8)
    (Js.replaceAll (backslash +:+ "a") (ch 7)
    (Js.replaceAll (backslash +:+ "r") (ch 13)
    (Js.replaceAll (backslash +:+ "t") (ch 9)
    (Js.replaceAll (backslash +:+ "n") (ch 10)
    (Js.replaceAll (backslash +:+ backslash) placeholder output)))))))).

Definition run (l : list string) : ExecResult :=
  let '(noNewline, interpretEscapes, rest) := parseFlags l false false in
  let output := Js.join " " rest in
  let output := if interpretEscapes then interpret output else output in
  mkResult (if noNewline then output else output +:+ nl) "" 0.

Definition echoCommand {FS : Type} : Command FS :=
  mkCommand "echo" (fun l _ fs0 e => mkRun (Ok (run l)) fs0 e).

End Echo.

(** ** The in-memory file system *)

Module VirtualFs.

Inductive FsEntry :=
| FileEntry (content : string) (mode : nat)
| DirectoryEntry (mode : nat).

(** [this.data] *)
Abbreviation t := (gmap string FsEntry).

(** [s.split("/")]: [cur] is the part being read. *)
Fixpoint splitFrom (cur : string) (s : string) : list string :=
  match s with
  | EmptyString => [cur]
  | String c r =>
      if Ascii.eqb c "/" then cur :: splitFrom "" r
      else splitFrom (cur +:+ String c EmptyString) r
  end.

(** The loop that resolves [..]; [resolved] is kept reversed. *)
Fixpoint resolveParts (parts resolved : list string) : list string :=
  match parts with
  | [] => rev resolved
  | part :: parts' =>
      if String.eqb part ".." then resolveParts parts' (tl resolved)
      else resolveParts parts' (part :: resolved)
  end.

Definition dropLast (s : string) : string :=
  Js.take (Nat.pred (String.length s)) s.

Definition endsWithSlash (s : string) : bool :=
  String.eqb (Js.drop (Nat.pred (String.length s)) s) "/".

Definition normalizePath (path : string) : string :=
  if String.eqb path "" || String.eqb path "/" then "/"
  else
    let normalized := if endsWithSlash path then dropLast path else path in
    let normalized :=
      if Js.startsWith "/" normalized then normalized else "/" +:+ normalized in
    let parts :=
      filter (fun p => negb (String.eqb p "") && negb (String.eqb p "."))
             (splitFrom "" normalized) in
    "/" +:+ Js.join "/" (resolveParts parts []).

(** [normalized.lastIndexOf("/")] *)
Fixpoint lastIndexOf (c : ascii) (s : string) : option nat :=
  match s with
  | EmptyString => None
  | String d r =>
      match lastIndexOf c r with
      | Some k => Some (S k)
      | None => if Ascii.eqb d c then Some 0%nat else None
      end
  end.

Definition dirname (path : string) : string :=
  let normalized := normalizePath path in
  if String.eqb normalized "/" then "/"
  else match lastIndexOf "/" normalized with
       | Some (S k) => Js.take (S k) normalized
       | _ => "/"
       end.

(** [ensureParentDirs]; [depth] bounds the climb towards the root and is
    the length of the path when the function is entered. *)
Fixpoint ensureParentDirs (depth : nat) (path : string) (data : t) : t :=
  let dir := dirname path in
  if String.eqb dir "/" then data
  else match data !! dir, depth with
       | None, S depth' =>
           <[dir := DirectoryEntry 493]> (ensureParentDirs depth' dir data)
       | _, _ => data
       end.

Definition writeFileSync (path content : string) (data : t) : t :=
  let normalized := normalizePath path in
  <[normalized := FileEntry content 420]>
    (ensureParentDirs (String.length normalized) normalized data).

Definition readFile (data : t) (path : string) : attempt string :=
  match data !! normalizePath path with
  | None => Err ("ENOENT: no such file or directory, open '" +:+ path +:+ "'")
  | Some (DirectoryEntry _) =>
      Err ("EISDIR: illegal operation on a directory, read '" +:+ path +:+ "'")
  | Some (FileEntry content _) => Ok content
  end.

Definition writeFile (data : t) (path content : string) : attempt t :=
  Ok (writeFileSync path content data).

Definition appendFile (data : t) (path content : string) : attempt t :=
  match data !! normalizePath path with
  | Some (DirectoryEntry _) =>
      Err ("EISDIR: illegal operation on a directory, write '" +:+ path +:+ "'")
  | Some (FileEntry currentContent _) =>
      Ok (writeFileSync path (currentContent +:+ content) data)
  | None => Ok (writeFileSync path content data)
  end.

Definition stat (data : t) (path : string) : attempt FsStat :=
  match data !! normalizePath path with
  | None => Err ("ENOENT: no such file or directory, stat '" +:+ path +:+ "'")
  | Some (FileEntry _ m) => Ok (mkStat true false m)
  | Some (DirectoryEntry m) => Ok (mkStat false true m)
  end.

(** [this.data.has(key)] *)
Definition has (key : string) (data : t) : bool :=
  match data !! key with Some _ => true | None => false end.

(** [mkdir]; [depth] bounds the climb of the recursive calls towards the
    root, and [None] tells that the bound was too small. *)
Fixpoint mkdir (depth : nat) (data : t) (path : string) (recursive : bool)
  : option (attempt t) :=
  let normalized := normalizePath path in
  match data !! normalized with
  | Some (FileEntry _ _) =>
      Some (Err ("EEXIST: file already exists, mkdir '" +:+ path +:+ "'"))
  | Some (DirectoryEntry _) =>
      if recursive then Some (Ok data)
      else Some (Err ("EEXIST: directory already exists, mkdir '" +:+ path +:+ "'"))
  | None =>
      let parent := dirname normalized in
      if negb (String.eqb parent "/") && negb (has parent data)
      then
        if recursive
        then match depth with
             | S depth' =>
                 match mkdir depth' data parent true with
                 | Some (Ok data') =>
                     Some (Ok (<[normalized := DirectoryEntry 493]> data'))
                 | other => other
                 end
             | O => None
             end
        else Some (Err ("ENOENT: no such file or directory, mkdir '" +:+ path +:+ "'"))
      else Some (Ok (<[normalized := DirectoryEntry 493]> data))
  end.

Definition resolvePath (base path : string) : string :=
  if Js.startsWith "/" path then normalizePath path
  else normalizePath (if String.eqb base "/" then "/" +:+ path
                      else base +:+ "/" +:+ path).

Definition getAllPaths (data : t) : list string := fst <$> map_to_list data.

(** [new VirtualFs()] *)
Definition empty : t := {[ "/" := DirectoryEntry 493 ]}.

#[global] Instance ops : IFileSystem t :=
  Build_IFileSystem t readFile writeFile appendFile stat
                    (fun _ => resolvePath) getAllPaths.

End VirtualFs.

(** ** Vocabulary of the statements *)

(** A command word with unquoted arguments and no redirection. *)
Definition word (c : string) (l : list string) : ParsedCommand :=
  mkParsed c l (map (fun _ => false) l) [].

(** A command word whose arguments are all quoted. *)
Definition quotedWord (c : string) (l : list string) : ParsedCommand :=
  mkParsed c l (map (fun _ => true) l) [].

(** The arguments that a command receives: the unquoted words after
    variable expansion, then glob expansion. *)
Definition expandedArgsOf `{Host} (c : ParsedCommand) (s : ShellState FS)
  : list string :=
  expandArgs (getAllPaths (fs s)) (cwd s)
             (expandUnquoted (env s) (args c) (quotedArgs c)) (quotedArgs c).

(** A stage that is not negated. *)
Definition stage (op : ChainOperator) (c : string) (l : list string) : PipelineStage :=
  mkStage (word c l) op 0.

(** A default that the braced form can carry: no closing brace and no line
    terminator, in ASCII. *)
Definition plainDefault (dflt : string) : bool :=
  negb (Js.includes "}" dflt)
  && Js.all (fun c => negb (Js.isLineTerminator c)) dflt
  && Js.all Js.isAscii dflt.

(** A name that the braced form can carry: not empty, no colon and no
    closing brace. *)
Definition plainName (varName : string) : bool :=
  negb (String.eqb varName "") && negb (Js.includes ":" varName)
  && negb (Js.includes "}" varName).


(** The output of the stage before the last one, [dflt] when there is no
    such stage. *)
Fixpoint carriedStdin (dflt : string) (rs : list ExecResult) : string :=
  match rs with
  | r :: ((_ :: _) as rs') => carriedStdin (stdout r) rs'
  | _ => dflt
  end.

Definition allStderr (rs : list ExecResult) : string :=
  fold_right (fun r out => stderr r +:+ out) "" rs.

(** The variables of the stage loop once a pipe-connected run that started
    with the variables [v] and the negation count [negation] has produced
    the results [rs]. *)
Definition endOfRun (v : LoopState) (negation : nat) (rs : list ExecResult)
  : LoopState :=
  let final := negate negation (List.last rs okResult) in
  mkLoop (carriedStdin (loopStdin v) rs) final
         (accumulatedStdout v +:+ stdout final)
         (accumulatedStderr v +:+ allStderr rs) negation.


(** Whether a stage runs, in the words of the specification: after [&&]
    only if the previous exit code is 0, after [||] only if it is not, and
    always after [;] or a pipe. *)
Definition shouldRun (op : ChainOperator) (previousExit : Z) : bool :=
  match op with
  | OpAnd => previousExit =? 0
  | OpOr => negb (previousExit =? 0)
  | OpSemi | OpPipe => true
  end.

(** The name a word of [local] declares. *)
Definition localName (arg : string) : string :=
  match Js.indexOf "=" arg with
  | Some (S k) => Js.take (S k) arg
  | _ => arg
  end.

(** A line that [exec] hands to the parser: not blank, no compound keyword
    in front, not a function definition. *)
Definition simpleLine (line : string) : bool :=
  let trimmed := Js.trim line in
  negb (String.eqb trimmed "")
  && negb (Js.startsWith "if " trimmed || Js.startsWith "if;" trimmed
           || String.eqb trimmed "if")
  && negb (Js.startsWith "for " trimmed)
  && negb (Js.startsWith "while " trimmed)
  && negb (Js.startsWith "until " trimmed)
  && match parseFunctionDefinition trimmed with Some _ => false | None => true end.

(** A command word that reaches the function table as it is written: not
    empty, nothing to expand, not a compound keyword, not a builtin and not
    an assignment. *)
Definition plainCommandName (f : string) : bool :=
  negb (String.eqb f "")
  && negb (Js.includes "$" f) && negb (Js.includes "=" f)
  && negb (Js.startsWith "if " f || Js.startsWith "if;" f)
  && negb (String.eqb f "cd" || String.eqb f "export" || String.eqb f "unset"
           || String.eqb f "exit" || String.eqb f "local").

(** The scope stack after a computation, compared with the stack before
    it: the frames below the current one are the same, and the current
    frame has only grown, without recording a name twice. *)
Definition scopesGrow (l l' : list Frame) : Prop :=
  match l, l' with
  | [], [] => True
  | f :: below, f' :: below' =>
      below' = below /\ f `prefix_of` f'
      /\ (NoDup (map fst f) -> NoDup (map fst f'))
  | _, _ => False
  end.

(** A command that never calls [ctx.exec]. *)
Definition isLeaf {FS : Type} (cmd : Command FS) : Prop :=
  forall l ctx fs0 e, exists ended fs1 e1, execute cmd l ctx fs0 e = mkRun ended fs1 e1.

(** No registered command calls [ctx.exec]. *)
Definition leafCommands `{Host} : Prop :=
  forall k cmd, commands !! k = Some cmd -> isLeaf cmd.

(** A computation is balanced when it leaves the call depth where it found
    it and the scope stack as [scopesGrow] says. *)
Definition balanced {FS : Type} (s s' : ShellState FS) : Prop :=
  callDepth s' = callDepth s /\ scopesGrow (localScopes s) (localScopes s').

Definition keeps {FS A : Type} (m : ShellState FS -> outcome (ShellState FS) A)
  : Prop :=
  forall s a s', m s = Ret a s' -> balanced s s'.

(** The names of the positional parameters: the decimal numerals, [@] and
    [#]. *)
Definition positionalName (k : string) : bool :=
  Js.all Js.isDigit k || String.eqb k "@" || String.eqb k "#".

(** An argument in which [parseInt] finds no number: no digit comes after
    the leading white space and an optional sign. *)
Definition notNumeric (a : string) : bool :=
  match Js.trimStart a with
  | String c t =>
      match (if Ascii.eqb c "-" || Ascii.eqb c "+" then t else String c t) with
      | String d _ => negb (Js.isDigit d)
      | EmptyString => true
      end
  | EmptyString => true
  end.

(** The characters of a decimal numeral with an optional minus sign. *)
Definition isNumeralChar (c : ascii) : bool := Js.isDigit c || Ascii.eqb c "-".

(** A path component in canonical form: not empty, not [.] or [..], and
    without slash. *)
Definition cleanPart (p : string) : bool :=
  negb (String.eqb p "") && negb (String.eqb p ".") && negb (String.eqb p "..")
  && negb (Js.includes "/" p).

(** The absolute path with the given components. *)
Definition pathOf (parts : list string) : string := "/" +:+ Js.join "/" parts.

(** A file table is closed when each of its keys is a normalised path
    whose parent, unless it is the root, is a key as well. *)
Definition closed (data : VirtualFs.t) : Prop :=
  forall k, is_Some (data !! k) ->
    VirtualFs.normalizePath k = k
    /\ (VirtualFs.dirname k = "/" \/ is_Some (data !! VirtualFs.dirname k)).

(** A text at which a variable name ends: the end of the input or a
    character that a name cannot hold. *)
Definition endsName (rest : string) : bool :=
  match rest with
  | String c _ => negb (Js.isNameChar c)
  | EmptyString => true
  end.

(** The characters that name a parameter by themselves: the special
    parameters and the digits. *)
Definition isParameterChar (c : ascii) : bool :=
  Js.includes c "@#$?!*" || Js.isDigit c.

(** Whether a dollar sign followed by [c] and then [rest] starts an
    expansion. *)
Definition startsExpansion (c : ascii) (rest : string) : bool :=
  (Ascii.eqb c "{" && Js.includes "}" rest)
  || isParameterChar c || Js.isNameStart c.

(** The names that [executeCommand] serves itself. *)
Definition isBuiltinName (b : string) : bool :=
  String.eqb b "cd" || String.eqb b "export" || String.eqb b "unset"
  || String.eqb b "exit" || String.eqb b "local".

(** No redirection of the list feeds the standard input. *)
Definition noStdinRedirection (l : list Redirection) : bool :=
  forallb (fun redir => match rtype redir with RStdin => false | _ => true end) l.

(** An operand of [cd] that names a path: not empty, not [-] and not [~]. *)
Definition isPathOperand (d : string) : bool :=
  negb (String.eqb d "") && negb (String.eqb d "-") && negb (String.eqb d "~").

(** The words that [echo] reads as flags. *)
Definition isEchoFlag (arg : string) : bool :=
  String.eqb arg "-n" || String.eqb arg "-e" || String.eqb arg "-E"
  || String.eqb arg "-ne" || String.eqb arg "-en".

(** A word the escape interpretation of [echo] has nothing to do with: no
    backslash and no NUL character. *)
Definition noEscape (arg : string) : bool :=
  negb (Js.includes "\" arg) && negb (Js.includes "000" arg).

(** The first word of a list of arguments is not a flag of [echo]. *)
Definition startsWithWord (l : list string) : bool :=
  match l with
  | arg :: _ => negb (isEchoFlag arg)
  | [] => true
  end.

(** No keyword of the if statement is recognised at any position of
    [text] when [follow] comes after it. *)
Fixpoint keywordFree (text follow : string) : bool :=
  match text with
  | EmptyString => true
  | String _ t =>
      negb (IfParser.keyword "if" false (text +:+ follow)
            || IfParser.keyword "fi" true (text +:+ follow)
            || IfParser.keyword "then" true (text +:+ follow)
            || IfParser.keyword "elif" false (text +:+ follow)
            || IfParser.keyword "else" true (text +:+ follow))
      && keywordFree t follow
  end.

(** A text that starts with a character that is neither white space nor a
    semicolon. *)
Definition startsPlain (text : string) : bool :=
  match text with
  | String c _ => negb (Js.isSpace c) && negb (Ascii.eqb c ";")
  | EmptyString => false
  end.

Definition hasCondition (branch : IfBranch) : bool :=
  match condition branch with Some _ => true | None => false end.

(** The bodies of the stored functions are at most [bound] characters
    long. *)
Definition bounded {FS : Type} (bound : nat) (s : ShellState FS) : Prop :=
  forall f funcBody, functions s !! f = Some funcBody ->
    (String.length funcBody <= bound)%nat.

(** A computation comes back at call depth [d] when, started at that depth
    with bounded function bodies, it returns or throws, and when it
    returns it is at that depth again, the bodies still bounded. *)
Definition comesBack {FS A : Type} (bound d : nat)
    (m : ShellState FS -> outcome (ShellState FS) A) : Prop :=
  forall s, callDepth s = d -> bounded bound s ->
    match m s with
    | Ret _ s' => callDepth s' = d /\ bounded bound s'
    | Throw _ _ => True
    | OutOfFuel => False
    end.

(** The run was finished: it returned or threw. *)
Definition finished {St A : Type} (o : outcome St A) : bool :=
  match o with
  | OutOfFuel => false
  | _ => true
  end.

(** A branch whose texts are at most [m] characters long. *)
Definition shortBranch (m : nat) (branch : IfBranch) : Prop :=
  (String.length (body branch) <= m)%nat
  /\ (forall cond, condition branch = Some cond -> (String.length cond <= m)%nat).

(** The parser returns commands that are not longer than the line. *)
Definition parsesWithin `{Host} : Prop :=
  forall e line pipeline st,
    pipeline ∈ parse e line -> st ∈ pipeline ->
    (String.length (command (parsed st)) <= String.length line)%nat.

(** The bodies of a [for] loop, in the words of the specification: the
    loop variable is bound to each item in turn for one run of the body,
    the outputs are joined and the exit code is that of the last run. *)
Fixpoint runBodies `{Host}
    (rec : string -> ShellState FS -> outcome (ShellState FS) ExecResult)
    (varName text : string) (items : list string) (acc : ExecResult)
    (s : ShellState FS) : outcome (ShellState FS) ExecResult :=
  match items with
  | [] => Ret acc s
  | item :: items' =>
      await (result, s) <- rec text (setEnv (envSet varName item (env s)) s) in
      runBodies rec varName text items'
                (mkResult (stdout acc +:+ stdout result)
                          (stderr acc +:+ stderr result) (exitCode result)) s
  end.

(** The conditions of the branches [l], run one after the other from the
    state [s], all return an exit code other than 0, and the last one
    leaves the state [s']. *)
Fixpoint conditionsFail {St : Type} (rec : string -> St -> outcome St ExecResult)
    (l : list IfBranch) (s s' : St) : Prop :=
  match l with
  | [] => s' = s
  | branch :: l' =>
      exists cond condResult s1,
        condition branch = Some cond /\ rec cond s = Ret condResult s1
        /\ exitCode condResult <> 0 /\ conditionsFail rec l' s1 s'
  end.

(** The branch is taken in the state [s]: it has no condition, or its
    condition returns exit code 0; [s'] is the state its body starts
    from. *)
Definition conditionHolds {St : Type} (rec : string -> St -> outcome St ExecResult)
    (branch : IfBranch) (s s' : St) : Prop :=
  match condition branch with
  | None => s' = s
  | Some cond =>
      exists condResult, rec cond s = Ret condResult s' /\ exitCode condResult = 0
  end.

(** The order of two texts by their code units, as [localeCompare] has it
    for texts of capital letters. *)
Definition codeUnitCompare (a b : string) : Z :=
  match String.compare a b with
  | Lt => -1
  | Eq => 0
  | Gt => 1
  end.

(** ** A concrete interpreter instance

    The instance used to run the engine on concrete lines: the in-memory
    file system, a registry holding [echo] and [cat], the default limits,
    and a parser given by a table from lines to their parse. *)

Module Demo.

(** Modelled from the spec: the implementation of the [cat] command is
    missing.  It copies its standard input when it has no operand, writes
    the files it is given in order, and for a file it cannot read reports
    it on the error stream with exit code 1 and writes nothing for it. *)
Fixpoint catFiles {FS : Type} `{IFileSystem FS} (fs0 : FS) (dir : string)
    (l : list string) (acc : ExecResult) : ExecResult :=
  match l with
  | [] => acc
  | f :: l' =>
      match readFile fs0 (resolvePath fs0 dir f) with
      | Ok content =>
          catFiles fs0 dir l' (mkResult (stdout acc +:+ content) (stderr acc) (exitCode acc))
      | Err _ =>
          catFiles fs0 dir l'
            (mkResult (stdout acc)
                      (stderr acc +:+ "cat: " +:+ f +:+ ": No such file or directory" +:+ nl) 1)
      end
  end.

Definition catCommand {FS : Type} `{IFileSystem FS} : Command FS :=
  mkCommand "cat" (fun l ctx fs0 e =>
    mkRun (Ok (match l with
               | [] => mkResult (ctx_stdin ctx) "" 0
               | _ => catFiles fs0 (ctx_cwd ctx) l okResult
               end)) fs0 e).

(** A command whose implementation raises. *)
Definition failingCommand {FS : Type} (message : string) : Command FS :=
  mkCommand "boom" (fun _ _ fs0 e => mkRun (Err message) fs0 e).

Definition appendTo (c : ParsedCommand) (path : string) : ParsedCommand :=
  mkParsed (command c) (args c) (quotedArgs c)
           (redirections c ++ [mkRedir RStdout (Some path) true])%list.

Fixpoint tableLookup (table : list (string * list Pipeline)) (line : string)
  : list Pipeline :=
  match table with
  | [] => []
  | (l, p) :: table' => if String.eqb l line then p else tableLookup table' line
  end.

(** Modelled from the spec: [ShellParser.parse] is missing.  The table
    gives, for the lines that are run below, the pipelines that the
    splitting rules of the specification yield: one pipeline for the line,
    a stage for each command with the chain operator that precedes it
    (the empty marker after a pipe or in front), its words as arguments
    and its redirections. *)
Definition table : list (string * list Pipeline) :=
  [ ("echo hi | cat | cat",
     [[stage OpPipe "echo" ["hi"]; stage OpPipe "cat" []; stage OpPipe "cat" []]]);
    ("cat /nonexistent && echo second",
     [[stage OpPipe "cat" ["/nonexistent"]; stage OpAnd "echo" ["second"]]]);
    ("echo x | cat ; cat /missing && echo a | cat",
     [[stage OpPipe "echo" ["x"]; stage OpPipe "cat" [];
       stage OpSemi "cat" ["/missing"]; stage OpAnd "echo" ["a"];
       stage OpPipe "cat" []]]);
    ("exit 256", [[stage OpPipe "exit" ["256"]]]);
    ("f", [[stage OpPipe "f" []]]);
    ("f; echo x", [[stage OpPipe "f" []; stage OpSemi "echo" ["x"]]]);
    ("g", [[stage OpPipe "g" []]]);
    ("h", [[stage OpPipe "h" []]]);
    ("echo x >> /",
     [[mkStage (appendTo (word "echo" ["x"]) "/") OpPipe 0]]);
    ("local X=1; cat /missing",
     [[stage OpPipe "local" ["X=1"]; stage OpSemi "cat" ["/missing"]]]);
    ("local X=1",
     [[stage OpPipe "local" ["X=1"]]]);
    ("local X=1; echo x >> /",
     [[stage OpPipe "local" ["X=1"];
       mkStage (appendTo (word "echo" ["x"]) "/") OpSemi 0]]);
    ("boom", [[stage OpPipe "boom" []]]);
    ("export", [[stage OpPipe "export" []]]);
    ("export NEW", [[stage OpPipe "export" ["NEW"]]]);
    ("export -n HOME", [[stage OpPipe "export" ["-n"; "HOME"]]]) ].

Definition registry : gmap string (Command VirtualFs.t) :=
  <["boom" := failingCommand (FS := VirtualFs.t) "kaput"]>
    (<["cat" := catCommand (FS := VirtualFs.t)]>
       (<["echo" := Echo.echoCommand (FS := VirtualFs.t)]> ∅)).

Definition host : Host := {|
  FS := VirtualFs.t;
  fsops := VirtualFs.ops;
  commands := registry;
  parse := fun _ line => tableLookup table line;
  globMatch := fun _ _ _ => [];
  maxCallDepth := DEFAULT_MAX_CALL_DEPTH;
  maxCommandCount := DEFAULT_MAX_COMMAND_COUNT;
  maxLoopIterations := DEFAULT_MAX_LOOP_ITERATIONS
|}.

(** The same instance created with low limits: calls nested 3 deep, 50
    commands and 2 iterations of a loop. *)
Definition capped : Host := {|
  FS := VirtualFs.t;
  fsops := VirtualFs.ops;
  commands := registry;
  parse := fun _ line => tableLookup table line;
  globMatch := fun _ _ _ => [];
  maxCallDepth := 3;
  maxCommandCount := 50;
  maxLoopIterations := 2
|}.

(** The state of a fresh instance created with an empty file table. *)
Definition initial : ShellState VirtualFs.t :=
  mkState VirtualFs.empty "/" (<["PATH" := "/bin:/usr/bin"]> (<["HOME" := "/"]> ∅))
          ∅ "/home/user" [] 0 0.

Definition withFunction (funcName funcBody : string) (s : ShellState VirtualFs.t) :=
  setFunctions (<[funcName := funcBody]> (functions s)) s.

Definition withVar (k v : string) (s : ShellState VirtualFs.t) :=
  setEnv (<[k := v]> (env s)) s.

End Demo.

(** * Properties *)

(** ** Strings *)

Section StringFacts.

Lemma app_cons (x : ascii) (a b : string) :
  String x a +:+ b = String x (a +:+ b).
Proof. reflexivity. Qed.

Lemma app_nil (b : string) : "" +:+ b = b.
Proof. reflexivity. Qed.

Lemma append_assoc (a b c : string) : (a +:+ b) +:+ c = a +:+ (b +:+ c).
Proof.
  induction a as [|x a IH]; [reflexivity |].
  rewrite !app_cons. now rewrite IH.
Qed.

Lemma append_empty_r (a : string) : a +:+ "" = a.
Proof.
  induction a as [|x a IH]; [reflexivity |].
  rewrite app_cons. now rewrite IH.
Qed.

Lemma length_append (a b : string) :
  String.length (a +:+ b) = (String.length a + String.length b)%nat.
Proof.
  induction a as [|x a IH]; [reflexivity |].
  rewrite app_cons. simpl. now rewrite IH.
Qed.

Lemma includes_append (c : ascii) (a b : string) :
  Js.includes c (a +:+ b) = Js.includes c a || Js.includes c b.
Proof.
  induction a as [|x a IH]; [reflexivity |].
  rewrite app_cons. simpl. rewrite IH. now rewrite orb_assoc.
Qed.

Lemma indexOf_append (c : ascii) (a b : string) :
  Js.includes c a = false ->
  Js.indexOf c (a +:+ String c b) = Some (String.length a).
Proof.
  induction a as [|x a IH]; intros Hinc.
  - rewrite app_nil. simpl. now rewrite Ascii.eqb_refl.
  - simpl in Hinc. apply orb_false_elim in Hinc as [Hx Ha].
    rewrite app_cons. simpl. rewrite Hx, (IH Ha). reflexivity.
Qed.

Lemma take_append (a b : string) : Js.take (String.length a) (a +:+ b) = a.
Proof.
  induction a as [|x a IH]; [now destruct b |].
  rewrite app_cons. simpl. now rewrite IH.
Qed.

Lemma drop_append (a b : string) : Js.drop (String.length a) (a +:+ b) = b.
Proof.
  induction a as [|x a IH]; [now destruct b |].
  rewrite app_cons. simpl. exact IH.
Qed.

Lemma drop_append_cons (a : string) (c : ascii) (b : string) :
  Js.drop (S (String.length a)) (a +:+ String c b) = b.
Proof.
  induction a as [|x a IH]; [now destruct b |].
  rewrite app_cons. cbn [String.length Js.drop]. exact IH.
Qed.

Lemma indexOf_none (c : ascii) (a : string) :
  Js.includes c a = false -> Js.indexOf c a = None.
Proof.
  induction a as [|x a IH]; [reflexivity |].
  simpl. intros Hinc. apply orb_false_elim in Hinc as [Hx Ha].
  now rewrite Hx, (IH Ha).
Qed.

Lemma all_append (p : ascii -> bool) (a b : string) :
  Js.all p (a +:+ b) = Js.all p a && Js.all p b.
Proof.
  induction a as [|x a IH]; [reflexivity |].
  rewrite app_cons. simpl. rewrite IH. now rewrite andb_assoc.
Qed.

End StringFacts.

(** ** Variable expansion *)

Section Expansion.

(** The characters an expansion has consumed are passed over without
    output. *)
Lemma expandFrom_skip (e : Env) (a b : string) :
  expandFrom e (String.length a) (a +:+ b) = expandFrom e 0 b.
Proof.
  induction a as [|x a IH]; [now destruct b |].
  rewrite app_cons. simpl. exact IH.
Qed.

(** A text without dollar sign expands to itself. *)
Lemma expandVariables_plain (e : Env) (str : string) :
  Js.includes "$" str = false -> expandVariables e str = str.
Proof.
  unfold expandVariables. induction str as [|c t IH]; simpl; [reflexivity |].
  intros Hinc. apply orb_false_elim in Hinc as [Hc Ht].
  destruct t as [|d r]; [reflexivity |].
  rewrite Hc. f_equal. exact (IH Ht).
Qed.

Lemma defaultMatch_default (varName dflt : string) :
  plainName varName = true -> plainDefault dflt = true ->
  defaultMatch (varName +:+ ":-" +:+ dflt) = Some (varName, dflt).
Proof.
  unfold plainName, plainDefault. intros Hn Hd.
  apply andb_prop in Hn as [Hn Hbrace]. apply andb_prop in Hn as [Hne Hcolon].
  apply andb_prop in Hd as [Hd _]. apply andb_prop in Hd as [_ Hlt].
  apply negb_true_iff in Hne, Hcolon.
  unfold defaultMatch.
  change (varName +:+ ":-" +:+ dflt) with (varName +:+ String ":" ("-" +:+ dflt)).
  rewrite (indexOf_append ":" varName _ Hcolon).
  destruct (String.length varName) as [|k] eqn:Hlen.
  { destruct varName; discriminate. }
  rewrite <- Hlen, drop_append, take_append.
  rewrite !app_cons, app_nil. cbn [Js.startsWith Js.drop Ascii.eqb Bool.eqb andb].
  now rewrite Hlt.
Qed.

Lemma expandVariables_braced_default (e : Env) (varName dflt rest : string) :
  plainName varName = true -> plainDefault dflt = true ->
  expandVariables e ("${" +:+ varName +:+ ":-" +:+ dflt +:+ "}" +:+ rest)
  = default dflt (envGet e varName) +:+ expandVariables e rest.
Proof.
  intros Hn Hd. pose proof (defaultMatch_default _ _ Hn Hd) as Hm.
  unfold plainName, plainDefault in Hn, Hd.
  apply andb_prop in Hn as [Hn Hbrace]. apply negb_true_iff in Hbrace.
  apply andb_prop in Hd as [Hd _].
  apply andb_prop in Hd as [Hbrace' _]. apply negb_true_iff in Hbrace'.
  set (content := varName +:+ ":-" +:+ dflt) in *.
  assert (Hinc : Js.includes "}" content = false).
  { unfold content. rewrite !includes_append, Hbrace, Hbrace'. reflexivity. }
  replace ("${" +:+ varName +:+ ":-" +:+ dflt +:+ "}" +:+ rest)
    with (String "$" (String "{" (content +:+ String "}" rest))).
  2:{ unfold content. rewrite !app_cons, app_nil, !append_assoc. reflexivity. }
  unfold expandVariables. cbn [expandFrom].
  unfold expandDollar. cbn [Ascii.eqb Bool.eqb].
  rewrite (indexOf_append "}" content rest Hinc), take_append, Hm.
  f_equal.
  replace (content +:+ String "}" rest) with ((content +:+ "}") +:+ rest)
    by (now rewrite append_assoc).
  replace (S (String.length content)) with (String.length (content +:+ "}"))
    by (rewrite length_append; simpl; lia).
  apply expandFrom_skip.
Qed.

(** C10.  In the braced form with a default, a variable that is set to
    the empty string is set: the expansion is its own, empty, value.  The
    value of the variable is used whenever the name is a key of the
    environment, so the default is used only when it is not; and when the
    name is not a key, the expansion is the default, unless the name is
    one that the environment object inherits from [Object.prototype], which
    then gives the text of the inherited member. *)
Theorem braced_default_counts_empty_as_set (e : Env) (varName dflt : string) :
  plainName varName = true -> plainDefault dflt = true ->
  let expansion := expandVariables e ("${" +:+ varName +:+ ":-" +:+ dflt +:+ "}") in
  (e !! varName = Some "" -> expansion = "")
  /\ (forall v, e !! varName = Some v -> expansion = v)
  /\ (e !! varName = None -> expansion = default dflt (inherited varName)).
Proof.
  intros Hn Hd expansion.
  assert (Hexp : expansion = default dflt (envGet e varName)).
  { unfold expansion.
    rewrite <- (append_empty_r (_ +:+ "}")), !append_assoc.
    rewrite (expandVariables_braced_default e varName dflt "" Hn Hd).
    apply append_empty_r. }
  rewrite Hexp. unfold envGet. repeat split.
  - now intros ->.
  - now intros v ->.
  - now intros ->.
Qed.

Lemma braced_default_counts_empty_as_set_witness :
  expandVariables {[ "NAME" := "" ]} "${NAME:-default}" = ""
  /\ expandVariables (∅ : Env) "${NAME:-default}" = "default"
  /\ expandVariables (∅ : Env) "${constructor:-default}"
     = "function Object() { [native code] }".
Proof.
  split; [| split].
  - apply (braced_default_counts_empty_as_set {[ "NAME" := "" ]} "NAME" "default");
      reflexivity.
  - apply (braced_default_counts_empty_as_set ∅ "NAME" "default"); reflexivity.
  - apply (braced_default_counts_empty_as_set ∅ "constructor" "default"); reflexivity.
Defined.

End Expansion.

(** ** Decimal numerals *)

Section Numerals.

Lemma all_digits_uint (d : Decimal.uint) :
  Js.all Js.isDigit (NilEmpty.string_of_uint d) = true.
Proof. induction d; simpl; auto. Qed.

Lemma to_uint_not_nil (n : nat) : Nat.to_uint n <> Decimal.Nil.
Proof.
  intros Hnil. pose proof (Unsigned.of_to n) as Hn.
  rewrite Hnil in Hn. cbn in Hn. subst n. discriminate.
Qed.

Lemma ofNat_digits (n : nat) : Js.all Js.isDigit (Js.ofNat n) = true.
Proof.
  unfold Js.ofNat, NilZero.string_of_uint.
  destruct (Nat.to_uint n); try reflexivity; apply all_digits_uint.
Qed.

Lemma ofNat_not_empty (n : nat) : Js.ofNat n <> "".
Proof.
  unfold Js.ofNat, NilZero.string_of_uint.
  destruct (Nat.to_uint n); discriminate.
Qed.

Lemma parseDigits_uint (d : Decimal.uint) (acc : nat) :
  Js.parseDigits (Z.of_nat acc) true (NilEmpty.string_of_uint d)
  = Some (Z.of_nat (Nat.of_uint_acc d acc)).
Proof.
  revert acc. induction d; intros acc; [reflexivity | ..];
    cbn [NilEmpty.string_of_uint Js.parseDigits Nat.of_uint_acc];
    rewrite Nat.tail_mul_spec;
    (match goal with
     | |- context [Js.isDigit ?c] =>
         change (Js.isDigit c) with true; cbv iota
     end);
    rewrite <- IHd; f_equal; unfold Js.digitValue; cbn [nat_of_ascii]; 
    vm_compute (Z.of_nat (nat_of_ascii _)); lia.
Qed.

(** [parseInt] reads back the numeral that [String] prints. *)
Lemma digit_not_space (c : ascii) : Js.isDigit c = true -> Js.isSpace c = false.
Proof.
  intros Hc. destruct (Ascii.eqb_spec c " ") as [-> | Hsp]; [discriminate Hc |].
  revert Hc. unfold Js.isDigit, Js.isSpace, Js.ascii_in. intros Hc.
  apply andb_prop in Hc as [Hlo _]. apply Nat.leb_le in Hlo.
  apply orb_false_iff. split.
  - apply andb_false_iff. right. apply Nat.leb_gt. lia.
  - now apply Ascii.eqb_neq.
Qed.

Lemma digit_not_sign (c : ascii) :
  Js.isDigit c = true -> Ascii.eqb c "-" = false /\ Ascii.eqb c "+" = false.
Proof.
  intros Hc. split.
  - destruct (Ascii.eqb_spec c "-") as [-> | _]; [discriminate | reflexivity].
  - destruct (Ascii.eqb_spec c "+") as [-> | _]; [discriminate | reflexivity].
Qed.

Lemma parseDigits_ofNat (n : nat) :
  Js.parseDigits 0 false (Js.ofNat n) = Some (Z.of_nat n).
Proof.
  rewrite <- (Unsigned.of_to n) at 2.
  unfold Js.ofNat, NilZero.string_of_uint, Nat.of_uint.
  pose proof (to_uint_not_nil n) as Hnil.
  destruct (Nat.to_uint n) as [|d|d|d|d|d|d|d|d|d|d]; [congruence | ..];
    cbn [NilEmpty.string_of_uint Js.parseDigits];
    (match goal with
     | |- context [Js.isDigit ?c] => change (Js.isDigit c) with true; cbv iota
     end);
    cbn [Nat.of_uint_acc]; rewrite Nat.tail_mul_spec;
    rewrite <- parseDigits_uint; f_equal.
Qed.

(** [parseInt] reads back the numeral that [String] prints. *)
Lemma parseInt_ofNat (n : nat) : Js.parseInt (Js.ofNat n) = Some (Z.of_nat n).
Proof.
  pose proof (parseDigits_ofNat n) as Hp. pose proof (ofNat_digits n) as Hd.
  unfold Js.parseInt. destruct (Js.ofNat n) as [|c a]; [discriminate |].
  simpl in Hd. apply andb_prop in Hd as [Hc _].
  cbn [Js.trimStart Js.dropWhile]. rewrite (digit_not_space c Hc).
  destruct (digit_not_sign c Hc) as [-> ->]. exact Hp.
Qed.

Lemma parseInt_minus (n : nat) :
  Js.parseInt ("-" +:+ Js.ofNat n) = Some (- Z.of_nat n).
Proof.
  unfold Js.parseInt. rewrite app_cons, app_nil.
  cbn [Js.trimStart Js.dropWhile]. change (Js.isSpace "-") with false. cbv iota.
  rewrite Ascii.eqb_refl, parseDigits_ofNat. reflexivity.
Qed.

End Numerals.

(** ** The exit builtin *)

Section ExitBuiltin.
Context `{Host}.

Lemma readStdin_none (l : list Redirection) (stdin : string) (s : ShellState FS) :
  noStdinRedirection l = true -> readStdin l stdin s = Ok stdin.
Proof.
  induction l as [|redir l IH]; [reflexivity |].
  cbn [noStdinRedirection forallb]. intros Hl. apply andb_prop in Hl as [Hr Hl].
  cbn [readStdin]. destruct (rtype redir); try discriminate;
    destruct (truthy (target redir)); now apply IH.
Qed.

Lemma all_excludes (p : ascii -> bool) (c : ascii) (a : string) :
  Js.all p a = true -> p c = false -> Js.includes c a = false.
Proof.
  intros Ha Hc. induction a as [|x a IH]; [reflexivity |].
  simpl in *. apply andb_prop in Ha as [Hx Ha].
  rewrite (IH Ha), orb_false_r.
  destruct (Ascii.eqb_spec x c) as [-> | _]; [congruence | reflexivity].
Qed.

(** An argument made of digits, after an optional minus sign, goes
    through variable and glob expansion unchanged. *)
Lemma numeral_untouched (e : Env) (paths : list string) (dir a : string) :
  Js.all isNumeralChar a = true ->
  expandArgs paths dir (expandUnquoted e [a] [false]) [false] = [a].
Proof.
  intros Ha. cbn [expandUnquoted hd tl].
  rewrite expandVariables_plain by (now apply (all_excludes isNumeralChar)).
  cbn [expandArgs hd tl orb]. unfold hasGlobChar.
  rewrite !(all_excludes isNumeralChar _ a Ha) by reflexivity.
  reflexivity.
Qed.

Lemma exit_runs_builtin (rec : string -> ShellState FS -> outcome (ShellState FS) ExecResult)
    (stdin a : string) (s : ShellState FS) :
  Js.all isNumeralChar a = true ->
  executeCommand rec (word "exit" [a]) stdin s = Ret (exitBuiltin [a]) s.
Proof.
  intros Ha. unfold executeCommand, word.
  cbn [command redirections args quotedArgs map readStdin].
  change (String.eqb "exit" "") with false. cbv iota.
  change (Js.startsWith "if " "exit" || Js.startsWith "if;" "exit") with false.
  cbv iota. rewrite (numeral_untouched _ _ _ _ Ha). reflexivity.
Qed.

Lemma all_numeral_ofNat (n : nat) : Js.all isNumeralChar (Js.ofNat n) = true.
Proof.
  pose proof (ofNat_digits n) as Hd. induction (Js.ofNat n) as [|c a IH];
    [reflexivity |].
  simpl in *. apply andb_prop in Hd as [Hc Ha].
  unfold isNumeralChar at 1. now rewrite Hc, (IH Ha).
Qed.

Lemma parseInt_notNumeric (a : string) :
  notNumeric a = true -> Js.parseInt a = None.
Proof.
  assert (Hdigits : forall t,
             match t with String d _ => negb (Js.isDigit d) | EmptyString => true end
             = true -> Js.parseDigits 0 false t = None).
  { intros [|d t]; [reflexivity |]. cbn [Js.parseDigits].
    intros Hd. apply negb_true_iff in Hd. now rewrite Hd. }
  unfold notNumeric, Js.parseInt.
  destruct (Js.trimStart a) as [|c t]; [reflexivity |].
  destruct (Ascii.eqb c "-"), (Ascii.eqb c "+"); cbn [orb];
    intros Ht; first [rewrite (Hdigits t Ht) | rewrite (Hdigits (String c t) Ht)];
    reflexivity.
Qed.

(** The word [exit] runs the builtin on its expanded arguments, whatever
    they are. *)
Lemma exit_dispatch (rec : string -> ShellState FS -> outcome (ShellState FS) ExecResult)
    (c : ParsedCommand) (stdin : string) (s : ShellState FS) :
  command c = "exit" -> noStdinRedirection (redirections c) = true ->
  executeCommand rec c stdin s = Ret (exitBuiltin (expandedArgsOf c s)) s.
Proof.
  intros Hc Hredir. unfold executeCommand.
  rewrite Hc, (readStdin_none _ _ _ Hredir). reflexivity.
Qed.

Lemma exitBuiltin_numeral (n : nat) (l : list string) :
  exitBuiltin (Js.ofNat n :: l) = mkResult "" "" (Z.of_nat n).
Proof.
  unfold exitBuiltin. cbn [head truthy].
  pose proof (ofNat_not_empty n) as Hn.
  destruct (Js.ofNat n) eqn:Hs; [congruence |].
  rewrite <- Hs, parseInt_ofNat. reflexivity.
Qed.

Lemma exitBuiltin_minus (n : nat) (l : list string) :
  exitBuiltin (("-" +:+ Js.ofNat n) :: l) = mkResult "" "" (- Z.of_nat n).
Proof.
  unfold exitBuiltin. rewrite app_cons, app_nil. cbn [head truthy].
  change (String "-" (Js.ofNat n)) with ("-" +:+ Js.ofNat n).
  rewrite parseInt_minus. reflexivity.
Qed.

(** C3 (amended).  The exit builtin returns the number it reads from its
    first argument as it is, so the exit code need not lie in 0..255.  The
    word [exit] runs the builtin on the expanded arguments of the command.
    No argument, or an empty first one, gives 0; a decimal numeral below
    2^53 gives its value, and with a minus sign the opposite of it; and a
    non-empty ASCII argument in which no digit comes after the leading
    white space and an optional sign gives 1.  The numerals come through
    variable and glob expansion as they are written.  From 2^53 on
    [parseInt] rounds, and those numerals are left out. *)
Theorem exit_code_is_the_number_given
    (rec : string -> ShellState FS -> outcome (ShellState FS) ExecResult)
    (c : ParsedCommand) (stdin : string) (s : ShellState FS) (n : nat)
    (a : string) (l : list string) :
  Z.of_nat n < 2 ^ 53 ->
  a <> "" -> Js.all Js.isAscii a = true -> notNumeric a = true ->
  (command c = "exit" -> noStdinRedirection (redirections c) = true ->
   executeCommand rec c stdin s = Ret (exitBuiltin (expandedArgsOf c s)) s)
  /\ exitBuiltin [] = mkResult "" "" 0
  /\ exitBuiltin ("" :: l) = mkResult "" "" 0
  /\ exitBuiltin (Js.ofNat n :: l) = mkResult "" "" (Z.of_nat n)
  /\ exitBuiltin (("-" +:+ Js.ofNat n) :: l) = mkResult "" "" (- Z.of_nat n)
  /\ exitBuiltin (a :: l) = mkResult "" "" 1
  /\ executeCommand rec (word "exit" [Js.ofNat n]) stdin s
     = Ret (mkResult "" "" (Z.of_nat n)) s
  /\ executeCommand rec (word "exit" ["-" +:+ Js.ofNat n]) stdin s
     = Ret (mkResult "" "" (- Z.of_nat n)) s.
Proof.
  intros _ Hne _ Hnan.
  split; [apply exit_dispatch |]. split; [reflexivity |]. split; [reflexivity |].
  split; [apply exitBuiltin_numeral |]. split; [apply exitBuiltin_minus |].
  split; [| split].
  - unfold exitBuiltin. cbn [head truthy].
    destruct a; [congruence |]. now rewrite (parseInt_notNumeric _ Hnan).
  - rewrite exit_runs_builtin by apply all_numeral_ofNat.
    now rewrite exitBuiltin_numeral.
  - rewrite exit_runs_builtin; [now rewrite exitBuiltin_minus |].
    rewrite app_cons, app_nil. simpl. apply all_numeral_ofNat.
Qed.

End ExitBuiltin.

Lemma exit_code_is_the_number_given_witness :
  executeCommand (H := Demo.host) (exec 1) (word "exit" ["256"]) "" Demo.initial
  = Ret (mkResult "" "" 256) Demo.initial
  /\ executeCommand (H := Demo.host) (exec 1) (word "exit" ["-1"]) "" Demo.initial
     = Ret (mkResult "" "" (-1)) Demo.initial
  /\ executeCommand (H := Demo.host) (exec 1) (quotedWord "exit" ["  +x1"; "2"]) ""
       Demo.initial
     = Ret (mkResult "" "" 1) Demo.initial.
Proof.
  split; [| split].
  - refine (proj1 (proj2 (proj2 (proj2 (proj2 (proj2 (proj2
      (exit_code_is_the_number_given (H := Demo.host) (exec 1)
         (word "exit" []) "" Demo.initial 256 "x" [] _ _ _ _)))))))).
    all: first [reflexivity | discriminate].
  - refine (proj2 (proj2 (proj2 (proj2 (proj2 (proj2 (proj2
      (exit_code_is_the_number_given (H := Demo.host) (exec 1)
         (word "exit" []) "" Demo.initial 1 "x" [] _ _ _ _)))))))).
    all: first [reflexivity | discriminate].
  - pose proof (exit_code_is_the_number_given (H := Demo.host) (exec 1)
                  (quotedWord "exit" ["  +x1"; "2"]) "" Demo.initial 0 "  +x1" ["2"])
      as Hexit.
    destruct Hexit as (Hrun & _ & _ & _ & _ & Hvalue & _);
      [reflexivity | discriminate | reflexivity | reflexivity |].
    rewrite Hrun by reflexivity.
    change (expandedArgsOf (H := Demo.host) (quotedWord "exit" ["  +x1"; "2"])
              Demo.initial) with ["  +x1"; "2"].
    now rewrite Hvalue.
Defined.

(** C3 (as stated).  The line [exit 256] returns the exit code 256, which
    is not within 0..255. *)
Lemma exit_code_out_of_range :
  exists r s', exec (H := Demo.host) 2 "exit 256" Demo.initial = Ret r s'
               /\ ~ (0 <= exitCode r <= 255).
Proof.
  eexists _, _. split; [vm_compute; reflexivity |]. simpl. lia.
Qed.

(** ** The export builtin *)

Section ExportForms.
Context `{Host}.

(** The private method of the class has one form: a word without equals
    sign, or with nothing before it, changes nothing. *)
Lemma exportArgs_without_assignment (l : list string) (e : Env) :
  forallb (fun arg => negb (Js.includes "=" arg) || Js.startsWith "=" arg) l = true ->
  exportArgs l e = e.
Proof.
  induction l as [|arg l IH]; [reflexivity |].
  cbn [forallb exportArgs]. intros Hl. apply andb_prop in Hl as [Harg Hl].
  rewrite (IH Hl). apply orb_prop in Harg as [Harg | Harg].
  - apply negb_true_iff in Harg. now rewrite (indexOf_none _ _ Harg).
  - destruct arg as [|c arg]; [reflexivity |]. cbn [Js.startsWith] in Harg.
    apply andb_prop in Harg as [Hc _]. cbn [Js.indexOf].
    rewrite Ascii.eqb_sym in Hc. now rewrite Hc.
Qed.

End ExportForms.

(** C8 (failing input).  The [export] that [exec] dispatches is the private
    method of the class, which has the form [NAME=value] only: on a fresh
    instance [export -n HOME] leaves [HOME] set, [export NEW] creates
    nothing and [export] lists nothing, each with exit code 0.  The
    stand-alone builtin, whose usage comment names the four forms, removes
    [HOME], creates [NEW] empty and lists the two variables on the same
    environment. *)
Theorem exec_export_has_one_form :
  let s := Demo.initial in
  let e := env s in
  (e !! "HOME" = Some "/" /\ e !! "NEW" = None)
  /\ exec (H := Demo.host) 2 "export -n HOME" s = Ret okResult (setCommandCount 1 s)
  /\ exec (H := Demo.host) 2 "export NEW" s = Ret okResult (setCommandCount 1 s)
  /\ exec (H := Demo.host) 2 "export" s = Ret okResult (setCommandCount 1 s)
  /\ ExportBuiltin.handleExport codeUnitCompare e ["-n"; "HOME"]
     = (okResult, delete "HOME" e)
  /\ ExportBuiltin.handleExport codeUnitCompare e ["NEW"]
     = (okResult, <["NEW" := ""]> e)
  /\ ExportBuiltin.handleExport codeUnitCompare e []
     = (mkResult ("declare -x HOME='/'" +:+ nl
                    +:+ "declare -x PATH='/bin:/usr/bin'" +:+ nl) "" 0, e).
Proof.
  cbv zeta. split; [split; reflexivity |].
  split; [vm_compute; reflexivity |]. split; [vm_compute; reflexivity |].
  split; [vm_compute; reflexivity |]. split; [reflexivity |].
  split; [reflexivity |]. vm_compute. reflexivity.
Qed.

(** ** Outcomes *)

Section Outcomes.
Context {St : Type}.

Lemma bind_assoc {A B C} (m : outcome St A) (k : A -> St -> outcome St B)
    (k' : B -> St -> outcome St C) :
  bind (bind m k) k' = bind m (fun a s => bind (k a s) k').
Proof. now destruct m. Qed.

Lemma bind_ext {A B} (m : outcome St A) (k k' : A -> St -> outcome St B) :
  (forall a s, m = Ret a s -> k a s = k' a s) -> bind m k = bind m k'.
Proof. destruct m; simpl; auto. Qed.

End Outcomes.

(** ** The stage loop *)

Section Pipelines.
Context {St : Type}.
Variable run : ParsedCommand -> string -> St -> outcome St ExecResult.

Lemma skipped_shouldRun (op : ChainOperator) (code : Z) :
  skipped op code = negb (shouldRun op code).
Proof.
  unfold skipped, shouldRun. destruct op; simpl; destruct (code =? 0); reflexivity.
Qed.

(** The loop body, read through [shouldRun]. *)
Lemma stageLoop_step (initialStdin : string) (i : nat) (stage : PipelineStage)
    (following : list PipelineStage) (v : LoopState) (s : St) :
  stageLoop run initialStdin i (stage :: following) v s
  = if shouldRun (operator stage) (exitCode (lastResult v))
    then await (result, s') <-
           run (parsed stage) (stdinFor initialStdin i stage v) s in
         stageLoop run initialStdin (S i) following
                   (afterStage following v (segmentNegation i stage v) result) s'
    else stageLoop run initialStdin (S i) following
                   (withNegation (segmentNegation i stage v) v) s.
Proof.
  cbn [stageLoop]. rewrite skipped_shouldRun.
  now destruct (shouldRun _ _).
Qed.

Lemma negate_stdout (n : nat) (r : ExecResult) : stdout (negate n r) = stdout r.
Proof. unfold negate. now destruct (Nat.odd n). Qed.

Lemma negate_stderr (n : nat) (r : ExecResult) : stderr (negate n r) = stderr r.
Proof. unfold negate. now destruct (Nat.odd n). Qed.

Lemma negate_exitCode (n : nat) (r : ExecResult) :
  exitCode (negate n r) = applyNegation n (exitCode r).
Proof. unfold negate, applyNegation. now destruct (Nat.odd n). Qed.





(** A stage that follows a chain operator reads the stdin of the call. *)
Lemma chained_stage_reads_initial_stdin (initialStdin : string) (i : nat)
    (stage : PipelineStage) (v : LoopState) :
  isPipe (operator stage) = false -> stdinFor initialStdin i stage v = initialStdin.
Proof. unfold stdinFor. now intros ->. Qed.

(** A pipe-connected stage that follows a skipped stage runs all the same,
    on whatever the loop last piped on. *)
Lemma stale_stdin_after_skip (initialStdin : string) (i : nat)
    (skippedStage pipeStage : PipelineStage) (rest : list PipelineStage)
    (v : LoopState) (s : St) :
  shouldRun (operator skippedStage) (exitCode (lastResult v)) = false ->
  operator pipeStage = OpPipe ->
  stageLoop run initialStdin i (skippedStage :: pipeStage :: rest) v s
  = await (result, s') <- run (parsed pipeStage) (loopStdin v) s in
    stageLoop run initialStdin (S (S i)) rest
      (afterStage rest (withNegation (segmentNegation i skippedStage v) v)
                  (segmentNegation i skippedStage v) result) s'.
Proof.
  intros Hskip Hpipe. rewrite stageLoop_step, Hskip, stageLoop_step.
  cbn [withNegation lastResult]. rewrite Hpipe. cbn [shouldRun].
  unfold stdinFor, segmentNegation at 1 3. rewrite Hpipe. reflexivity.
Qed.

(** Two stages joined by a chain operator: the second stage runs or not on
    the negation-adjusted exit code of the first, reads the stdin of the
    call, and adds its output to that of the first. *)
Lemma two_stage_chain (initialStdin : string) (a b : ParsedCommand)
    (op : ChainOperator) (na nb : nat) (s : St) :
  isPipe op = false ->
  runPipeline run [mkStage a OpPipe na; mkStage b op nb] initialStdin s
  = await (ra, s1) <- run a initialStdin s in
    if shouldRun op (applyNegation na (exitCode ra))
    then await (rb, s2) <- run b initialStdin s1 in
         Ret (mkResult (stdout ra +:+ stdout rb) (stderr ra +:+ stderr rb)
                       (applyNegation nb (exitCode rb))) s2
    else Ret (mkResult (stdout ra) (stderr ra) (applyNegation na (exitCode ra))) s1.
Proof.
  intros Hop. unfold runPipeline. rewrite stageLoop_step.
  cbn [operator parsed shouldRun initialLoop lastResult exitCode okResult].
  rewrite bind_assoc. apply bind_ext. intros ra s1 _.
  assert (Hafter : afterStage [mkStage b op nb] (initialLoop initialStdin)
                     (segmentNegation 0 (mkStage a OpPipe na)
                                      (initialLoop initialStdin)) ra
                   = mkLoop initialStdin (negate na ra) (stdout (negate na ra))
                            (stderr (negate na ra)) na).
  { unfold afterStage, pipedOn. cbn [nextOperatorOf operator]. now rewrite Hop. }
  rewrite Hafter, stageLoop_step.
  cbn [operator parsed lastResult]. rewrite negate_exitCode.
  destruct (shouldRun op _).
  - rewrite bind_assoc.
    replace (stdinFor initialStdin 1 (mkStage b op nb) _) with initialStdin
      by (unfold stdinFor; cbn [operator]; now rewrite Hop).
    apply bind_ext. intros rb s2 _. cbn [stageLoop bind]. f_equal.
    unfold afterStage, segmentNegation. cbn [pipedOn nextOperatorOf isPipe andb operator].
    rewrite Hop. cbn [negb orb negationCount accumulatedStdout accumulatedStderr lastResult].
    now rewrite !negate_stdout, !negate_stderr, negate_exitCode.
  - cbn [stageLoop bind withNegation accumulatedStdout accumulatedStderr lastResult].
    now rewrite negate_stdout, negate_stderr, negate_exitCode.
Qed.

(** C2.  Whether a stage runs is decided by its own chain operator and by
    the exit code the loop carries from the last segment that ran, which is
    already adjusted for negation: after [&&] the stage runs only on 0,
    after [||] only on a code that is not 0, and after [;] or a pipe always.
    A stage that does not run leaves the state and the outputs as they
    were.  The first stage of a pipeline finds the exit code 0 and runs
    unless it is marked [||].  For two stages joined by a chain operator,
    the second runs or not on the negation-adjusted exit code of the
    first.  On the line [cat /nonexistent && echo second] the second stage
    does not run: the result has an empty stdout and the exit code 1. *)
Theorem stage_gating (initialStdin : string) (i : nat) (stage : PipelineStage)
    (following : list PipelineStage) (v : LoopState) (s : St) :
  skipped (operator stage) (exitCode (lastResult v))
  = negb (shouldRun (operator stage) (exitCode (lastResult v)))
  /\ stageLoop run initialStdin i (stage :: following) v s
     = (if shouldRun (operator stage) (exitCode (lastResult v))
        then await (result, s') <-
               run (parsed stage) (stdinFor initialStdin i stage v) s in
             stageLoop run initialStdin (S i) following
                       (afterStage following v (segmentNegation i stage v) result) s'
        else stageLoop run initialStdin (S i) following
                       (withNegation (segmentNegation i stage v) v) s)
  /\ (forall op, shouldRun op (exitCode (lastResult (initialLoop initialStdin)))
                 = negb (isOr op))
  /\ (forall n rs, exitCode (lastResult (endOfRun v n rs))
                   = applyNegation n (exitCode (List.last rs okResult)))
  /\ (forall a b op na nb, isPipe op = false ->
      runPipeline run [mkStage a OpPipe na; mkStage b op nb] initialStdin s
      = await (ra, s1) <- run a initialStdin s in
        if shouldRun op (applyNegation na (exitCode ra))
        then await (rb, s2) <- run b initialStdin s1 in
             Ret (mkResult (stdout ra +:+ stdout rb) (stderr ra +:+ stderr rb)
                           (applyNegation nb (exitCode rb))) s2
        else Ret (mkResult (stdout ra) (stderr ra)
                           (applyNegation na (exitCode ra))) s1)
  /\ exec (H := Demo.host) 2 "cat /nonexistent && echo second" Demo.initial
     = Ret (mkResult "" ("cat: /nonexistent: No such file or directory" +:+ nl) 1)
           (setCommandCount 1 Demo.initial).
Proof.
  split; [apply skipped_shouldRun |].
  split; [apply stageLoop_step |].
  split; [now intros [] |].
  split; [intros n rs; apply negate_exitCode |].
  split; [intros a b op na nb; apply two_stage_chain |].
  vm_compute. reflexivity.
Qed.


End Pipelines.

Lemma stage_gating_witness :
  runPipeline (executeCommand (H := Demo.host) (exec 1))
              [stage OpPipe "cat" ["/nonexistent"]; stage OpAnd "echo" ["second"]]
              "" Demo.initial
  = Ret (mkResult "" ("cat: /nonexistent: No such file or directory" +:+ nl) 1)
        Demo.initial.
Proof.
  destruct (stage_gating (executeCommand (H := Demo.host) (exec 1)) "" 0
              (stage OpPipe "cat" ["/nonexistent"]) [] (initialLoop "")
              Demo.initial) as (_ & _ & _ & _ & Hchain & _).
  unfold stage. rewrite (Hchain _ _ OpAnd 0%nat 0%nat eq_refl).
  vm_compute. reflexivity.
Defined.


(** The line [echo hi | cat | cat] writes [hi] once. *)
Example echo_hi_cat_cat :
  exec (H := Demo.host) 2 "echo hi | cat | cat" Demo.initial
  = Ret (mkResult ("hi" +:+ nl) "" 0) (setCommandCount 1 Demo.initial).
Proof. vm_compute. reflexivity. Qed.

(** C1 (failing input).  On the line
    [echo x | cat ; cat /missing && echo a | cat] the stage [echo a] is
    skipped, and the [cat] piped to it runs all the same: it reads what the
    first stage wrote, so that [x] is written twice and the exit code is
    0. *)
Theorem pipe_after_skipped_stage_reads_stale_stdin :
  exec (H := Demo.host) 2 "echo x | cat ; cat /missing && echo a | cat" Demo.initial
  = Ret (mkResult ("x" +:+ nl +:+ "x" +:+ nl)
                  ("cat: /missing: No such file or directory" +:+ nl) 0)
        (setCommandCount 1 Demo.initial).
Proof. vm_compute. reflexivity. Qed.

(** ** The environment object *)

Section Environment.

(** An assignment to a name other than [__proto__] makes the name an own
    key. *)
Lemma envSet_insert (name value : string) (e : Env) :
  name <> "__proto__" -> envSet name value e = <[name := value]> e.
Proof.
  intros Hname. unfold envSet. apply String.eqb_neq in Hname. rewrite Hname.
  now destruct (e !! name).
Qed.

Lemma envSet_other (name value k : string) (e : Env) :
  name <> k -> envSet name value e !! k = e !! k.
Proof.
  intros Hne. unfold envSet.
  destruct (e !! name); [now apply lookup_insert_ne |].
  destruct (String.eqb name "__proto__"); [reflexivity | now apply lookup_insert_ne].
Qed.

(** A name that is not inherited is read from the own keys. *)
Lemma envGet_own (e : Env) (name : string) :
  inherited name = None -> envGet e name = e !! name.
Proof. intros Hname. unfold envGet. rewrite Hname. now destruct (e !! name). Qed.

(** No identifier of the shell's positional or special parameters is
    inherited. *)
Lemma inherited_name_start (name : string) :
  inherited name <> None ->
  match name with String c _ => Js.isNameStart c = true | EmptyString => False end.
Proof.
  unfold inherited.
  destruct (String.eqb_spec name "__proto__") as [-> | _]; [reflexivity |].
  destruct (String.eqb_spec name "constructor") as [-> | _]; [reflexivity |].
  destruct (existsb _ _) eqn:Hex; [| congruence].
  intros _. cbn [existsb prototypeMethods] in Hex.
  repeat (apply orb_prop in Hex as [Hex | Hex];
          [apply String.eqb_eq in Hex; subst name; reflexivity |]).
  discriminate.
Qed.

End Environment.

(** ** Call depth and scope stack across a computation *)

Section Balance.
Context `{Host}.

Abbreviation State := (ShellState FS).
Abbreviation M A := (State -> outcome State A).

Lemma scopesGrow_refl (l : list Frame) : scopesGrow l l.
Proof. destruct l; simpl; auto. Qed.

Lemma scopesGrow_trans (l1 l2 l3 : list Frame) :
  scopesGrow l1 l2 -> scopesGrow l2 l3 -> scopesGrow l1 l3.
Proof.
  destruct l1 as [|f1 b1], l2 as [|f2 b2], l3 as [|f3 b3]; simpl; try tauto.
  intros (-> & Hp12 & Hn12) (-> & Hp23 & Hn23).
  repeat split; [now transitivity f2 | auto].
Qed.

Lemma balanced_same (s s' : State) :
  callDepth s' = callDepth s -> localScopes s' = localScopes s -> balanced s s'.
Proof. intros Hd Hl. split; [exact Hd |]. rewrite Hl. apply scopesGrow_refl. Qed.

Lemma balanced_refl (s : State) : balanced s s.
Proof. now apply balanced_same. Qed.

Lemma balanced_trans (s1 s2 s3 : State) :
  balanced s1 s2 -> balanced s2 s3 -> balanced s1 s3.
Proof.
  intros [Hd12 Hs12] [Hd23 Hs23]. split; [congruence |].
  eapply scopesGrow_trans; eassumption.
Qed.

Lemma keeps_ret {A} (a : A) : keeps (fun s : State => Ret a s).
Proof. intros s a' s' [= _ <-]. apply balanced_refl. Qed.

Lemma keeps_bind {A B} (m : M A) (k : A -> M B) :
  keeps m -> (forall a, keeps (k a)) -> keeps (fun s => bind (m s) k).
Proof.
  intros Hm Hk s b s' Hrun. destruct (m s) as [a s1| |] eqn:Hms; try discriminate.
  simpl in Hrun. eapply balanced_trans; [eapply Hm | eapply Hk]; eassumption.
Qed.

(** *** The builtins *)

Lemma localArg_frame (arg : string) (frame : Frame) (e : Env) :
  fst (localArg arg (frame, e))
  = if frameHas (localName arg) frame then frame
    else (frame ++ [(localName arg, envGet e (localName arg))])%list.
Proof.
  unfold localArg, localName.
  destruct (Js.indexOf "=" arg) as [[|k]|]; cbn [fst snd];
    destruct (frameHas _ frame); reflexivity.
Qed.

Lemma frameHas_spec (k : string) (frame : Frame) :
  frameHas k frame = false -> k ∉ map fst frame.
Proof.
  unfold frameHas. induction frame as [|[k' v] frame IH]; simpl.
  - intros _. apply not_elem_of_nil.
  - intros Hor. apply orb_false_elim in Hor as [Hk Hrest].
    apply String.eqb_neq in Hk. rewrite not_elem_of_cons. auto.
Qed.

Lemma localArg_grows (arg : string) (frame : Frame) (e : Env) :
  frame `prefix_of` fst (localArg arg (frame, e))
  /\ (NoDup (map fst frame) -> NoDup (map fst (fst (localArg arg (frame, e))))).
Proof.
  rewrite localArg_frame. destruct (frameHas _ frame) eqn:Hhas.
  - split; [reflexivity | auto].
  - split; [now apply prefix_app_r |].
    intros Hnd. rewrite map_app. apply NoDup_app. repeat split; [exact Hnd | |].
    + intros k Hk Hk'. simpl in Hk'. apply list_elem_of_singleton in Hk'. subst k.
      now apply frameHas_spec in Hhas.
    + simpl. apply NoDup_singleton.
Qed.

Lemma localArgs_grow (l : list string) (frame : Frame) (e : Env) :
  frame `prefix_of` fst (fold_left (fun st arg => localArg arg st) l (frame, e))
  /\ (NoDup (map fst frame) ->
      NoDup (map fst (fst (fold_left (fun st arg => localArg arg st) l (frame, e))))).
Proof.
  revert frame e. induction l as [|arg l IH]; intros frame e; cbn [fold_left].
  - split; [reflexivity | auto].
  - destruct (localArg arg (frame, e)) as [frame1 e1] eqn:Harg.
    pose proof (localArg_grows arg frame e) as [Hp Hn]. rewrite Harg in Hp, Hn.
    cbn [fst] in Hp, Hn. destruct (IH frame1 e1) as [Hp' Hn'].
    split; [now transitivity frame1 | auto].
Qed.

Lemma handleLocal_keeps (l : list string) : keeps (handleLocal l).
Proof.
  intros s r s'. unfold handleLocal.
  destruct (localScopes s) as [|frame below] eqn:Hscopes.
  - intros [= _ <-]. apply balanced_refl.
  - destruct (fold_left _ l (frame, env s)) as [frame' e'] eqn:Hfold.
    intros [= _ <-]. split; [reflexivity |].
    rewrite Hscopes. cbn [localScopes setLocalScopes setEnv].
    pose proof (localArgs_grow l frame (env s)) as [Hp Hn].
    rewrite Hfold in Hp, Hn. simpl. auto.
Qed.

Lemma handleCd_keeps (l : list string) : keeps (handleCd l).
Proof.
  intros s r s'. unfold handleCd.
  destruct (stat _ _) as [st|]; [destruct (negb (isDirectory st)) |];
    intros [= _ <-]; now apply balanced_same.
Qed.

Lemma applyRedirections_keeps (l : list Redirection) (result : ExecResult) :
  keeps (applyRedirections result l).
Proof.
  revert result. induction l as [|redir l IH]; intros result s r s'.
  - intros [= _ <-]. apply balanced_refl.
  - cbn [applyRedirections].
    destruct (rtype redir); destruct (truthy (target redir)) as [t|];
      try (destruct (String.eqb t "/dev/null"));
      try (destruct (writeOrAppend _ _ _ _) as [fs'|]);
      try discriminate; intros Hrun; apply IH in Hrun;
      try exact Hrun;
      (eapply balanced_trans; [| exact Hrun]); now apply balanced_same.
Qed.

(** A command that does not call [ctx.exec] leaves the call depth and the
    scope stack alone. *)
Lemma dispatch_keeps (rec : string -> M ExecResult) (cmd : Command FS)
    (c : ParsedCommand) (l : list string) (stdin : string) :
  isLeaf cmd -> keeps (dispatch rec cmd c l stdin).
Proof.
  intros Hleaf s r s'. unfold dispatch.
  destruct (Hleaf l (mkCtx (cwd s) stdin) (fs s) (env s)) as (ended & fs1 & e1 & ->).
  cbn [runCommand bind]. intros Hrun.
  apply applyRedirections_keeps in Hrun.
  eapply balanced_trans; [| exact Hrun]. now apply balanced_same.
Qed.

(** *** Function calls *)

Lemma callFunction_keeps (rec : string -> M ExecResult)
    (f funcBody : string) (l : list string) :
  (forall line, keeps (rec line)) -> keeps (callFunction rec f funcBody l).
Proof.
  intros Hrec s r s'. unfold callFunction.
  cbn [callDepth setCallDepth].
  destruct (maxCallDepth <? S (callDepth s))%nat.
  - intros [= _ <-]. now apply balanced_same.
  - destruct (rec funcBody _) as [r1 s1| |] eqn:Hbody; try discriminate.
    cbn [bind]. intros [= _ <-].
    apply Hrec in Hbody as [Hdepth Hscopes].
    cbn [callDepth localScopes enterFunction setEnv setLocalScopes setCallDepth]
      in Hdepth, Hscopes.
    unfold leaveFunction.
    destruct (localScopes s1) as [|frame below] eqn:Hs1; [contradiction |].
    cbn [scopesGrow] in Hscopes. destruct Hscopes as (-> & _ & _).
    apply balanced_same.
    + cbn [callDepth setEnv setLocalScopes setCallDepth localScopes].
      rewrite Hs1. cbn [callDepth setEnv setLocalScopes setCallDepth].
      now rewrite Hdepth.
    + cbn [callDepth setEnv setLocalScopes setCallDepth localScopes].
      rewrite Hs1. reflexivity.
Qed.

(** *** Commands, pipelines and compound statements *)

Section OpenRecursion.
Variable rec : string -> M ExecResult.
Hypothesis rec_keeps : forall line, keeps (rec line).
Hypothesis leaves : leafCommands.

Lemma runBranches_keeps (l : list IfBranch) : keeps (runBranches rec l).
Proof.
  induction l as [|branch l IH]; cbn [runBranches].
  - apply keeps_ret.
  - destruct (condition branch) as [cond|]; [| apply rec_keeps].
    apply (keeps_bind (rec cond)); [apply rec_keeps |].
    intros condResult. destruct (exitCode condResult =? 0); [apply rec_keeps | exact IH].
Qed.

Lemma executeIfStatement_keeps (input : string) :
  keeps (executeIfStatement rec input).
Proof.
  unfold executeIfStatement. destruct (IfParser.parseIfStatement input).
  - apply runBranches_keeps.
  - apply keeps_ret.
Qed.

Lemma executeCommand_keeps (c : ParsedCommand) (stdin : string) :
  keeps (executeCommand rec c stdin).
Proof.
  intros s r s'. unfold executeCommand.
  destruct (String.eqb (command c) ""); [apply keeps_ret |].
  destruct (readStdin _ stdin s); [| apply keeps_ret].
  destruct (_ || _); [apply executeIfStatement_keeps |].
  destruct (String.eqb _ "cd"); [apply handleCd_keeps |].
  destruct (String.eqb _ "export").
  { intros [= _ <-]. now apply balanced_same. }
  destruct (String.eqb _ "unset").
  { intros [= _ <-]. now apply balanced_same. }
  destruct (String.eqb _ "exit"); [apply keeps_ret |].
  destruct (String.eqb _ "local"); [apply handleLocal_keeps |].
  destruct (assignment _ _) as [[varName value]|].
  { intros [= _ <-]. now apply balanced_same. }
  destruct (truthy (functions s !! _)) as [funcBody|].
  { now apply callFunction_keeps. }
  destruct (commands !! _) as [cmd|] eqn:Hcmd; [| apply keeps_ret].
  apply dispatch_keeps. exact (leaves _ _ Hcmd).
Qed.

Lemma stageLoop_keeps (run : ParsedCommand -> string -> M ExecResult)
    (initialStdin : string) (stages : list PipelineStage) :
  (forall c stdin, keeps (run c stdin)) ->
  forall i v, keeps (stageLoop run initialStdin i stages v).
Proof.
  intros Hrun. induction stages as [|stage following IH]; intros i v.
  - apply keeps_ret.
  - cbn [stageLoop]. destruct (skipped _ _); [apply IH |].
    apply (keeps_bind (run (parsed stage) _)); [apply Hrun |].
    intros result. apply IH.
Qed.

Lemma executePipeline_keeps (pipeline : Pipeline) (initialStdin : string) :
  keeps (executePipeline rec pipeline initialStdin).
Proof.
  unfold executePipeline, runPipeline.
  apply (keeps_bind (stageLoop _ _ _ _ _)); [| intros v; apply keeps_ret].
  apply stageLoop_keeps. apply executeCommand_keeps.
Qed.

Lemma runPipelines_keeps (l : list Pipeline) :
  forall stdin lastRes, keeps (runPipelines rec l stdin lastRes).
Proof.
  induction l as [|pipeline l IH]; intros stdin lastRes; cbn [runPipelines].
  - apply keeps_ret.
  - apply (keeps_bind (executePipeline rec pipeline stdin));
      [apply executePipeline_keeps | intros result; apply IH].
Qed.

Lemma forItems_keeps (varName body : string) (items : list string) :
  forall iterations acc, keeps (forItems rec varName body items iterations acc).
Proof.
  induction items as [|item items IH]; intros iterations acc; cbn [forItems].
  - intros s r s' [= _ <-]. now apply balanced_same.
  - destruct (maxLoopIterations <=? iterations)%nat; [apply keeps_ret |].
    intros s r s' Hrun.
    destruct (rec body _) as [r1 s1| |] eqn:Hbody; try discriminate.
    cbn [bind] in Hrun. apply rec_keeps in Hbody. apply IH in Hrun.
    eapply balanced_trans; [| exact Hrun].
    eapply balanced_trans; [| exact Hbody]. now apply balanced_same.
Qed.

Lemma condLoop_keeps (kind : string) (stopOn : Z -> bool) (cond body : string)
    (left : nat) :
  forall acc, keeps (condLoop rec kind stopOn cond body left acc).
Proof.
  induction left as [|left IH]; intros acc; cbn [condLoop].
  - apply keeps_ret.
  - apply (keeps_bind (rec cond)); [apply rec_keeps |].
    intros condResult. destruct (stopOn _); [apply keeps_ret |].
    apply (keeps_bind (rec body)); [apply rec_keeps |].
    intros result. apply IH.
Qed.

Lemma runLine_keeps (commandLine : string) : keeps (runLine rec commandLine).
Proof.
  intros s r s'. unfold runLine. cbv zeta.
  destruct (String.eqb _ ""); [apply keeps_ret |].
  destruct (_ || _); [apply executeIfStatement_keeps |].
  destruct (Js.startsWith "for " _).
  { unfold executeForLoop. destruct (LoopRegex.matchForLoop _) as [[[varName listStr] body]|];
      [apply forItems_keeps | apply keeps_ret]. }
  destruct (Js.startsWith "while " _).
  { unfold executeWhileLoop. destruct (LoopRegex.matchWhileLoop _) as [[cond body]|];
      [apply condLoop_keeps | apply keeps_ret]. }
  destruct (Js.startsWith "until " _).
  { unfold executeUntilLoop. destruct (LoopRegex.matchUntilLoop _) as [[cond body]|];
      [apply condLoop_keeps | apply keeps_ret]. }
  destruct (parseFunctionDefinition _) as [[funcName funcBody]|].
  - intros [= _ <-]. now apply balanced_same.
  - apply runPipelines_keeps.
Qed.

Lemma countCommand_balanced (s : State) : balanced s (countCommand s).
Proof.
  unfold countCommand. destruct (callDepth s =? 0)%nat; now apply balanced_same.
Qed.

Lemma execBody_keeps (commandLine : string) : keeps (execBody rec commandLine).
Proof.
  intros s r s'. unfold execBody. cbv zeta. intros Hrun.
  eapply balanced_trans; [apply countCommand_balanced |]. revert Hrun.
  destruct (maxCommandCount <? _)%nat; [apply keeps_ret | apply runLine_keeps].
Qed.

End OpenRecursion.

(** When no registered command calls [ctx.exec], every activation of
    [exec] that returns leaves the call depth and the scope stack below the
    current frame as it found them. *)
Lemma exec_keeps (fuel : nat) (line : string) :
  leafCommands -> keeps (exec fuel line).
Proof.
  intros Hleaves. revert line. induction fuel as [|fuel IH]; intros line.
  - intros s r s'. discriminate.
  - cbn [exec]. now apply execBody_keeps.
Qed.

End Balance.

(** ** Function calls and local variables *)

Section Locals.
Context `{Host}.

Lemma restoreScope_other (x : string) (frame : Frame) (e : Env) :
  x ∉ map fst frame -> restoreScope frame e !! x = e !! x.
Proof.
  unfold restoreScope. revert e.
  induction frame as [|[k v] frame IH]; intros e Hx; [reflexivity |].
  cbn [map fst] in Hx. apply not_elem_of_cons in Hx as [Hne Hx].
  cbn [fold_left fst snd]. rewrite (IH _ Hx).
  destruct v; [now apply envSet_other | now rewrite lookup_delete_ne].
Qed.

(** The value recorded first for a name is the one the pop brings back. *)
Lemma restoreScope_first (x original : string) (extra : Frame) (e : Env) :
  x <> "__proto__" ->
  NoDup (map fst ((x, Some original) :: extra)) ->
  restoreScope ((x, Some original) :: extra) e !! x = Some original.
Proof.
  cbn [map fst]. intros Hproto Hnd. apply NoDup_cons in Hnd as [Hx _].
  unfold restoreScope. cbn [fold_left fst snd].
  change (fold_left _ extra ?e0) with (restoreScope extra e0).
  rewrite (restoreScope_other _ _ _ Hx), (envSet_insert _ _ _ Hproto).
  apply lookup_insert_eq.
Qed.

Lemma ofNat_ne (k : string) (i : nat) :
  positionalName k = false -> Js.ofNat i <> k.
Proof.
  unfold positionalName. intros Hk <-. now rewrite ofNat_digits in Hk.
Qed.

Lemma bindPositional_other (k : string) (l : list string) (from : nat) (e : Env) :
  positionalName k = false -> bindPositional from l e !! k = e !! k.
Proof.
  intros Hk. revert from e. induction l as [|a l IH]; intros from e; [reflexivity |].
  cbn [bindPositional]. rewrite IH. apply lookup_insert_ne. now apply ofNat_ne.
Qed.

Lemma clearPositional_other (k : string) (l : list string) (from : nat) (e : Env) :
  positionalName k = false -> clearPositional from l e !! k = e !! k.
Proof.
  intros Hk. revert from e. induction l as [|a l IH]; intros from e; [reflexivity |].
  cbn [clearPositional]. rewrite IH. apply lookup_delete_ne. now apply ofNat_ne.
Qed.

Lemma positional_not_special (k : string) :
  positionalName k = false -> "@" <> k /\ "#" <> k.
Proof.
  unfold positionalName. intros Hk.
  apply orb_false_elim in Hk as [Hk Hhash]. apply orb_false_elim in Hk as [_ Hat].
  apply String.eqb_neq in Hat, Hhash. split; congruence.
Qed.

Lemma enterFunction_other (k : string) (l : list string) (s : ShellState FS) :
  positionalName k = false -> env (enterFunction l s) !! k = env s !! k.
Proof.
  intros Hk. destruct (positional_not_special k Hk) as [Hat Hhash].
  unfold enterFunction. cbn [env setEnv setLocalScopes].
  rewrite !lookup_insert_ne by assumption. now apply bindPositional_other.
Qed.

(** What the exit of a function call does to a name that is not a
    positional parameter: the value recorded in the popped frame comes
    back, and a name the frame does not record keeps its value. *)
Lemma leaveFunction_restores (k original : string) (extra : Frame)
    (below : list Frame) (l : list string) (s : ShellState FS) :
  positionalName k = false -> k <> "__proto__" ->
  localScopes s = ((k, Some original) :: extra) :: below ->
  NoDup (map fst ((k, Some original) :: extra)) ->
  env (leaveFunction l s) !! k = Some original.
Proof.
  intros Hk Hproto Hscopes Hnd. destruct (positional_not_special k Hk) as [Hat Hhash].
  unfold leaveFunction. cbn [localScopes setCallDepth]. rewrite Hscopes.
  cbn [env setEnv setLocalScopes].
  rewrite !lookup_delete_ne by assumption.
  rewrite clearPositional_other by assumption.
  now apply restoreScope_first.
Qed.

Lemma leaveFunction_untouched (k : string) (below : list Frame)
    (l : list string) (s : ShellState FS) :
  positionalName k = false ->
  localScopes s = [] :: below ->
  env (leaveFunction l s) !! k = env s !! k.
Proof.
  intros Hk Hscopes. destruct (positional_not_special k Hk) as [Hat Hhash].
  unfold leaveFunction. cbn [localScopes setCallDepth]. rewrite Hscopes.
  cbn [env setEnv setLocalScopes restoreScope fold_left].
  rewrite !lookup_delete_ne by assumption.
  now apply clearPositional_other.
Qed.

(** A command word that names a function calls it, unless a redirection
    of its input fails first. *)
Lemma executeCommand_function
    (rec : string -> ShellState FS -> outcome (ShellState FS) ExecResult)
    (c : ParsedCommand) (stdin funcBody : string) (s : ShellState FS) :
  plainCommandName (command c) = true ->
  functions s !! command c = Some funcBody -> funcBody <> "" ->
  executeCommand rec c stdin s
  = match readStdin (redirections c) stdin s with
    | Err e => Ret (mkResult "" e 1) s
    | Ok _ =>
        callFunction rec (command c) funcBody
          (expandArgs (getAllPaths (fs s)) (cwd s)
                      (expandUnquoted (env s) (args c) (quotedArgs c))
                      (quotedArgs c)) s
    end.
Proof.
  unfold plainCommandName. intros Hname Hfun Hbody.
  apply andb_prop in Hname as [Hname Hbuiltin].
  apply andb_prop in Hname as [Hname Hif].
  apply andb_prop in Hname as [Hname Heq].
  apply andb_prop in Hname as [Hne Hdollar].
  apply negb_true_iff in Hbuiltin, Hif, Heq, Hne, Hdollar.
  apply orb_false_elim in Hbuiltin as [Hbuiltin Hlocal].
  apply orb_false_elim in Hbuiltin as [Hbuiltin Hexit].
  apply orb_false_elim in Hbuiltin as [Hbuiltin Hunset].
  apply orb_false_elim in Hbuiltin as [Hcd Hexport].
  unfold executeCommand. rewrite Hne.
  destruct (readStdin _ stdin s) as [stdin'|e]; [| reflexivity].
  rewrite Hif, (expandVariables_plain _ _ Hdollar).
  rewrite Hcd, Hexport, Hunset, Hexit, Hlocal.
  assert (Hassign : forall l, assignment (command c) l = None).
  { intros l. unfold assignment. rewrite (indexOf_none _ _ Heq). now destruct l. }
  rewrite Hassign, Hfun.
  destruct funcBody; [congruence | reflexivity].
Qed.

Lemma local_X_runs_builtin
    (rec : string -> ShellState FS -> outcome (ShellState FS) ExecResult)
    (stdin : string) (s : ShellState FS) :
  executeCommand rec (word "local" ["X=1"]) stdin s = handleLocal ["X=1"] s.
Proof.
  unfold executeCommand, word.
  cbn [command redirections args quotedArgs map readStdin].
  change (String.eqb "local" "") with false. cbv iota.
  change (Js.startsWith "if " "local" || Js.startsWith "if;" "local") with false.
  cbv iota. cbn [expandUnquoted hd tl].
  rewrite !expandVariables_plain by reflexivity.
  reflexivity.
Qed.

Lemma handleLocal_X_fresh (below : list Frame) (s : ShellState FS) :
  localScopes s = [] :: below ->
  handleLocal ["X=1"] s
  = Ret okResult (setLocalScopes ([("X", envGet (env s) "X")] :: below)
                                 (setEnv (<["X" := "1"]> (env s)) s)).
Proof.
  unfold handleLocal. intros ->. cbn [fold_left localArg Js.indexOf Ascii.eqb
    Bool.eqb Js.take Js.drop frameHas existsb app].
  now rewrite envSet_insert.
Qed.

Lemma runLine_simple
    (rec : string -> ShellState FS -> outcome (ShellState FS) ExecResult)
    (line : string) (s : ShellState FS) :
  simpleLine line = true ->
  runLine rec line s = runPipelines rec (parse (env s) line) "" okResult s.
Proof.
  unfold simpleLine, runLine. intros Hline. cbv zeta in *.
  apply andb_prop in Hline as [Hline Hdef].
  apply andb_prop in Hline as [Hline Huntil].
  apply andb_prop in Hline as [Hline Hwhile].
  apply andb_prop in Hline as [Hline Hfor].
  apply andb_prop in Hline as [Hblank Hif].
  apply negb_true_iff in Hblank, Hif, Hfor, Hwhile, Huntil.
  rewrite Hblank, Hif, Hfor, Hwhile, Huntil.
  now destruct (parseFunctionDefinition _).
Qed.

Lemma countCommand_env (s : ShellState FS) : env (countCommand s) = env s.
Proof. unfold countCommand. now destruct (callDepth s =? 0)%nat. Qed.

Lemma countCommand_localScopes (s : ShellState FS) :
  localScopes (countCommand s) = localScopes s.
Proof. unfold countCommand. now destruct (callDepth s =? 0)%nat. Qed.

(** What holds of a call that returns, when no registered command calls
    [ctx.exec]: a function whose body starts by executing [local X=1]
    while [X] holds the value [outer] leaves [X] with the value [outer],
    whatever the rest of the body does and whatever exit code it
    returns. *)
Lemma local_restored_when_the_call_returns (fuel : nat) (c : ParsedCommand)
    (stdin funcBody outer : string) (op : ChainOperator) (n : nat)
    (rest : list PipelineStage) (more : list Pipeline)
    (s s' : ShellState FS) (r : ExecResult) :
  leafCommands ->
  plainCommandName (command c) = true ->
  functions s !! command c = Some funcBody ->
  simpleLine funcBody = true ->
  (forall e, parse e funcBody
             = (mkStage (word "local" ["X=1"]) op n :: rest) :: more) ->
  isOr op = false ->
  env s !! "X" = Some outer ->
  executeCommand (exec fuel) c stdin s = Ret r s' ->
  env s' !! "X" = Some outer.
Proof.
  intros Hleaves Hname Hfun Hsimple Hparse Hop Houter Hrun.
  assert (Hbody : funcBody <> "") by (intros ->; discriminate).
  assert (HX : positionalName "X" = false) by reflexivity.
  rewrite (executeCommand_function _ _ _ _ _ Hname Hfun Hbody) in Hrun.
  destruct (readStdin _ stdin s) as [_|e]; [| now injection Hrun as _ <-].
  revert Hrun. set (l := expandArgs _ _ _ _). unfold callFunction.
  cbn [callDepth setCallDepth].
  destruct (maxCallDepth <? S (callDepth s))%nat; [now intros [= _ <-] |].
  set (s_in := enterFunction l _).
  assert (Hin : env s_in !! "X" = Some outer).
  { unfold s_in. now rewrite enterFunction_other. }
  assert (Hscopes : localScopes s_in = [] :: localScopes s) by reflexivity.
  clearbody s_in.
  destruct (exec fuel funcBody s_in) as [r1 s1| |] eqn:Hexec; try discriminate.
  cbn [bind]. intros [= _ <-].
  destruct fuel as [|fuel]; [discriminate |].
  cbn [exec] in Hexec. unfold execBody in Hexec. cbv zeta in Hexec.
  pose proof (countCommand_env s_in) as Henv.
  pose proof (countCommand_localScopes s_in) as Hsc. rewrite Hscopes in Hsc.
  set (s_c := countCommand s_in) in *. clearbody s_c.
  destruct (maxCommandCount <? commandCount s_c)%nat.
  { injection Hexec as _ <-.
    rewrite (leaveFunction_untouched _ _ _ _ HX Hsc). congruence. }
  rewrite (runLine_simple _ _ _ Hsimple), Hparse in Hexec.
  cbn [runPipelines] in Hexec.
  destruct (executePipeline _ _ _ s_c) as [res s2| |] eqn:Hpipe; try discriminate.
  cbn [bind] in Hexec.
  apply runPipelines_keeps in Hexec;
    [| intros; now apply exec_keeps | exact Hleaves].
  unfold executePipeline, runPipeline in Hpipe.
  destruct (stageLoop _ _ _ _ _ s_c) as [v s3| |] eqn:Hloop; try discriminate.
  cbn [bind] in Hpipe. injection Hpipe as _ ->.
  rewrite stageLoop_step in Hloop.
  replace (shouldRun _ _) with true in Hloop by (now destruct op).
  cbn [parsed] in Hloop.
  rewrite local_X_runs_builtin, (handleLocal_X_fresh _ _ Hsc) in Hloop.
  cbn [bind] in Hloop.
  apply stageLoop_keeps in Hloop;
    [| intros; apply executeCommand_keeps;
       [intros; now apply exec_keeps | exact Hleaves]].
  pose proof (balanced_trans _ _ _ Hloop Hexec) as [_ Hgrow].
  cbn [localScopes setLocalScopes setEnv] in Hgrow.
  destruct (localScopes s1) as [|frame below] eqn:Hs1; [contradiction |].
  cbn [scopesGrow] in Hgrow. destruct Hgrow as (-> & [extra ->] & Hnd).
  rewrite (envGet_own _ "X" eq_refl), Henv, Hin in Hs1, Hnd.
  apply (leaveFunction_restores "X" outer extra (localScopes s) _ _ HX);
    [discriminate | exact Hs1 |].
  apply Hnd. cbn [map fst]. apply NoDup_singleton.
Qed.

End Locals.

(** No command of the registry of [Demo] calls [ctx.exec]. *)
Lemma demo_leaves : leafCommands (H := Demo.host).
Proof.
  intros k cmd Hk. cbn [commands Demo.host] in Hk. unfold Demo.registry in Hk.
  repeat (apply lookup_insert_Some in Hk as [[_ <-] | [_ Hk]];
          [intros l ctx fs0 e; eexists _, _, _; reflexivity |]).
  now rewrite lookup_empty in Hk.
Qed.

Example local_is_restored_after_a_failing_command :
  exists r s',
    executeCommand (H := Demo.host) (exec 3) (word "h" []) ""
      (Demo.withVar "X" "outer"
         (Demo.withFunction "h" "local X=1; cat /missing" Demo.initial))
    = Ret r s'
    /\ exitCode r = 1 /\ env s' !! "X" = Some "outer".
Proof.
  eexists _, _. split; [vm_compute; reflexivity |]. split; reflexivity.
Qed.

(** C5 (failing input).  With [X] set to [outer], the line
    [h() { local X=1; echo x >> / }] defines a function whose body executes
    [local X=1] and then raises: its second command appends to a
    directory.  The exception leaves the call of [h] without the pop of
    its frame, so [X] stays at 1 where it was [outer] before the call, the
    frame that recorded [outer] stays on the scope stack and the call
    depth stays at 1.  At top level [local X=1] then succeeds with exit
    code 0, where before the call it fails with exit code 1. *)
Theorem local_is_not_restored_after_an_exception :
  exists s0 message s1 s2,
    exec (H := Demo.host) 1 "h() { local X=1; echo x >> / }"
         (Demo.withVar "X" "outer" Demo.initial) = Ret okResult s0
    /\ functions s0 !! "h" = Some "local X=1; echo x >> /"
    /\ env s0 !! "X" = Some "outer"
    /\ exec (H := Demo.host) 3 "h" s0 = Throw message s1
    /\ env s1 !! "X" = Some "1"
    /\ localScopes s1 = [[("X", Some "outer")]] /\ callDepth s1 = 1%nat
    /\ exec (H := Demo.host) 2 "local X=1" s1 = Ret okResult s2
    /\ exec (H := Demo.host) 2 "local X=1" s0
       = Ret (mkResult "" ("bash: local: can only be used in a function" +:+ nl) 1)
             (setCommandCount 1 s0).
Proof.
  eexists _, _, _, _. split; [vm_compute; reflexivity |].
  split; [reflexivity |]. split; [reflexivity |].
  split; [vm_compute; reflexivity |].
  split; [reflexivity |]. split; [reflexivity |]. split; [reflexivity |].
  split; vm_compute; reflexivity.
Qed.

(** ** The recursion guard *)

Section RecursionGuard.
Context `{Host}.

Lemma setCallDepth_back (s : ShellState FS) :
  setCallDepth (Nat.pred (callDepth (setCallDepth (S (callDepth s)) s)))
               (setCallDepth (S (callDepth s)) s) = s.
Proof. now destruct s. Qed.

(** The call that would exceed the limit: the depth goes up and comes
    back, and the body is not executed. *)
Lemma callFunction_at_limit
    (rec : string -> ShellState FS -> outcome (ShellState FS) ExecResult)
    (f funcBody : string) (l : list string) (s : ShellState FS) :
  (maxCallDepth <= callDepth s)%nat ->
  callFunction rec f funcBody l s = Ret (mkResult "" (recursionMessage f) 1) s.
Proof.
  intros Hdepth. unfold callFunction. cbn [callDepth setCallDepth].
  replace (maxCallDepth <? S (callDepth s))%nat with true
    by (symmetry; apply Nat.ltb_lt; lia).
  now rewrite <- (setCallDepth_back s) at 4.
Qed.

Variables f funcBody : string.
Hypothesis f_plain : plainCommandName f = true.
Hypothesis body_simple : simpleLine funcBody = true.
Hypothesis body_calls_f : forall e, parse e funcBody = [[stage OpPipe f []]].

(** A line that is the single command [f]. *)
Lemma runPipelines_call
    (rec : string -> ShellState FS -> outcome (ShellState FS) ExecResult)
    (s : ShellState FS) :
  runPipelines rec [[stage OpPipe f []]] "" okResult s
  = await (result, s') <- executeCommand rec (word f []) "" s in
    Ret (mkResult (stdout result) (stderr result) (exitCode result)) s'.
Proof.
  cbn [runPipelines]. unfold executePipeline, runPipeline.
  rewrite stageLoop_step. cbn [stage operator shouldRun parsed].
  rewrite !bind_assoc. apply bind_ext. intros result s' _. reflexivity.
Qed.

(** The calls unwind from any depth: [d] is the number of calls that the
    limit still allows. *)
Lemma call_unwinds (d : nat) :
  forall (fuel : nat) (s : ShellState FS),
  (callDepth s + d = maxCallDepth)%nat ->
  (commandCount s + d <= maxCommandCount)%nat ->
  (d <= fuel)%nat ->
  functions s !! f = Some funcBody ->
  exists s', executeCommand (exec fuel) (word f []) "" s
             = Ret (mkResult "" (recursionMessage f) 1) s'
             /\ callDepth s' = callDepth s
             /\ localScopes s' = localScopes s.
Proof.
  assert (Hbody : funcBody <> "") by (intros ->; discriminate).
  induction d as [|d IH]; intros fuel s Hdepth Hcount Hfuel Hfun.
  - exists s. rewrite (executeCommand_function _ (word f []) _ _ _ f_plain Hfun Hbody).
    cbn [word redirections readStdin].
    rewrite callFunction_at_limit by lia. auto.
  - destruct fuel as [|fuel]; [lia |].
    rewrite (executeCommand_function _ (word f []) _ _ _ f_plain Hfun Hbody).
    cbn [word redirections readStdin args quotedArgs map expandUnquoted expandArgs].
    unfold callFunction. cbn [callDepth setCallDepth].
    replace (maxCallDepth <? S (callDepth s))%nat with false
      by (symmetry; apply Nat.ltb_ge; lia).
    set (s_in := enterFunction [] _).
    cbn [exec]. unfold execBody. cbv zeta.
    assert (Hc : countCommand s_in = setCommandCount (S (commandCount s)) s_in)
      by reflexivity.
    rewrite Hc. cbn [commandCount setCommandCount].
    replace (maxCommandCount <? S (commandCount s))%nat with false
      by (symmetry; apply Nat.ltb_ge; lia).
    rewrite (runLine_simple _ _ _ body_simple), body_calls_f, runPipelines_call.
    destruct (IH fuel (setCommandCount (S (commandCount s)) s_in))
      as (s1 & Hcall & Hd1 & Hs1); [cbn; lia | cbn; lia | lia | exact Hfun |].
    rewrite Hcall. cbn [bind stdout stderr exitCode].
    eexists. split; [reflexivity |].
    cbn [callDepth localScopes setCommandCount] in Hd1, Hs1.
    unfold leaveFunction. cbn [localScopes setCallDepth]. rewrite Hs1.
    cbn [callDepth localScopes setEnv setLocalScopes setCallDepth].
    rewrite Hd1. cbn. auto.
Qed.

(** A function whose body is only a call to itself, called from the top
    level, returns: with enough fuel for the nesting that the limit allows,
    [exec] yields exit code 1 and the message of the recursion limit, and
    the call depth is back at 0. *)
Lemma single_call_recursion_stops (fuel : nat) (line : string) (s : ShellState FS) :
  simpleLine line = true ->
  (forall e, parse e line = [[stage OpPipe f []]]) ->
  functions s !! f = Some funcBody ->
  callDepth s = 0%nat ->
  (maxCallDepth + 1 <= maxCommandCount)%nat ->
  (maxCallDepth + 1 <= fuel)%nat ->
  exists s', exec fuel line s = Ret (mkResult "" (recursionMessage f) 1) s'
             /\ callDepth s' = 0%nat /\ localScopes s' = localScopes s.
Proof.
  intros Hline Hparse Hfun Hdepth Hcount Hfuel.
  destruct fuel as [|fuel]; [lia |].
  cbn [exec]. unfold execBody. cbv zeta.
  assert (Hc : countCommand s = setCommandCount 1 s).
  { unfold countCommand. now rewrite Hdepth. }
  rewrite Hc. cbn [commandCount setCommandCount].
  replace (maxCommandCount <? 1)%nat with false
    by (symmetry; apply Nat.ltb_ge; lia).
  rewrite (runLine_simple _ _ _ Hline), Hparse, runPipelines_call.
  destruct (call_unwinds maxCallDepth fuel (setCommandCount 1 s))
    as (s1 & Hcall & Hd1 & Hs1); [cbn; lia | cbn; lia | lia | exact Hfun |].
  rewrite Hcall. cbn [bind stdout stderr exitCode].
  exists s1. cbn [callDepth localScopes setCommandCount] in Hd1, Hs1.
  repeat split; congruence.
Qed.

End RecursionGuard.

(** ** Exceptions *)

Section Exceptions.
Context `{Host}.

(** An exception raised by a registered command is turned into a result
    at the dispatch boundary, under the command word as it was written;
    the redirections of the stage are then applied to that result. *)
Lemma dispatch_catches (rec : string -> ShellState FS -> outcome (ShellState FS) ExecResult)
    (cmd : Command FS) (c : ParsedCommand) (l : list string)
    (stdin message : string) (fs1 : FS) (e1 : Env) (s : ShellState FS) :
  execute cmd l (mkCtx (cwd s) stdin) (fs s) (env s) = mkRun (Err message) fs1 e1 ->
  dispatch rec cmd c l stdin s
  = applyRedirections (mkResult "" (command c +:+ ": " +:+ message +:+ nl) 1)
      (redirections c) (setEnv e1 (setFs fs1 s)).
Proof. unfold dispatch. now intros ->. Qed.

Lemma clearPositional_none (k : string) (l : list string) (from : nat) (e : Env) :
  e !! k = None -> clearPositional from l e !! k = None.
Proof.
  revert from e. induction l as [|a l IH]; intros from e Hk; [exact Hk |].
  cbn [clearPositional]. apply IH.
  destruct (decide (Js.ofNat from = k)) as [-> | Hne];
    [apply lookup_delete_eq | now rewrite lookup_delete_ne].
Qed.

Lemma clearPositional_clears (l : list string) (from i : nat) (e : Env) :
  (from <= i < from + length l)%nat -> clearPositional from l e !! Js.ofNat i = None.
Proof.
  revert from e. induction l as [|a l IH]; intros from e Hi; [simpl in Hi; lia |].
  cbn [clearPositional]. destruct (decide (i = from)) as [-> | Hne].
  - apply clearPositional_none, lookup_delete_eq.
  - apply IH. simpl in Hi. lia.
Qed.

(** A function call that returns has decremented the call depth once,
    popped its frame and cleared the positional parameters it bound. *)
Lemma callFunction_cleans_up
    (rec : string -> ShellState FS -> outcome (ShellState FS) ExecResult)
    (f funcBody : string) (l : list string) (s s' : ShellState FS)
    (r : ExecResult) :
  (forall line, keeps (rec line)) ->
  (callDepth s < maxCallDepth)%nat ->
  callFunction rec f funcBody l s = Ret r s' ->
  callDepth s' = callDepth s /\ localScopes s' = localScopes s
  /\ env s' !! "@" = None /\ env s' !! "#" = None
  /\ (forall i, (1 <= i <= length l)%nat -> env s' !! Js.ofNat i = None).
Proof.
  intros Hrec Hdepth. unfold callFunction. cbn [callDepth setCallDepth].
  replace (maxCallDepth <? S (callDepth s))%nat with false
    by (symmetry; apply Nat.ltb_ge; lia).
  destruct (rec funcBody _) as [r1 s1| |] eqn:Hbody; try discriminate.
  cbn [bind]. intros [= _ <-].
  apply Hrec in Hbody as [Hd Hscopes].
  cbn [callDepth localScopes enterFunction setEnv setLocalScopes setCallDepth]
    in Hd, Hscopes.
  destruct (localScopes s1) as [|frame below] eqn:Hs1; [contradiction |].
  cbn [scopesGrow] in Hscopes. destruct Hscopes as (-> & _ & _).
  unfold leaveFunction. cbn [localScopes setCallDepth]. rewrite Hs1.
  cbn [callDepth localScopes env setEnv setLocalScopes setCallDepth].
  rewrite Hd. repeat split.
  - rewrite lookup_delete_ne by discriminate. apply lookup_delete_eq.
  - apply lookup_delete_eq.
  - intros i Hi.
    assert (Hne : forall k, Js.all Js.isDigit k = false -> k <> Js.ofNat i).
    { intros k Hk ->. now rewrite ofNat_digits in Hk. }
    rewrite !lookup_delete_ne by (now apply Hne).
    apply clearPositional_clears. lia.
Qed.

(** The positional parameters are deleted last, whatever the body left on
    the scope stack. *)
Lemma callFunction_unsets
    (rec : string -> ShellState FS -> outcome (ShellState FS) ExecResult)
    (f funcBody : string) (l : list string) (s s' : ShellState FS)
    (r : ExecResult) :
  (callDepth s < maxCallDepth)%nat ->
  callFunction rec f funcBody l s = Ret r s' ->
  env s' !! "@" = None /\ env s' !! "#" = None
  /\ (forall i, (1 <= i <= length l)%nat -> env s' !! Js.ofNat i = None).
Proof.
  intros Hdepth. unfold callFunction. cbn [callDepth setCallDepth].
  replace (maxCallDepth <? S (callDepth s))%nat with false
    by (symmetry; apply Nat.ltb_ge; lia).
  destruct (rec funcBody _) as [r1 s1| |] eqn:Hbody; try discriminate.
  cbn [bind]. intros [= _ <-].
  unfold leaveFunction. cbn [env setEnv]. repeat split.
  - rewrite lookup_delete_ne by discriminate. apply lookup_delete_eq.
  - apply lookup_delete_eq.
  - intros i Hi.
    assert (Hne : forall k, Js.all Js.isDigit k = false -> k <> Js.ofNat i).
    { intros k Hk ->. now rewrite ofNat_digits in Hk. }
    rewrite !lookup_delete_ne by (now apply Hne).
    apply clearPositional_clears. lia.
Qed.

(** A function call whose body raises passes the exception on from the
    state the body reached: nothing of the exit of the call is executed. *)
Lemma callFunction_propagates
    (rec : string -> ShellState FS -> outcome (ShellState FS) ExecResult)
    (f funcBody message : string) (l : list string) (s s1 : ShellState FS) :
  (callDepth s < maxCallDepth)%nat ->
  rec funcBody (enterFunction l (setCallDepth (S (callDepth s)) s))
  = Throw message s1 ->
  callFunction rec f funcBody l s = Throw message s1.
Proof.
  intros Hdepth Hbody. unfold callFunction. cbn [callDepth setCallDepth].
  replace (maxCallDepth <? S (callDepth s))%nat with false
    by (symmetry; apply Nat.ltb_ge; lia).
  now rewrite Hbody.
Qed.

End Exceptions.

(** C9 (failing input).  The line [echo x >> /] appends to a directory: the
    file system raises, the redirection is applied outside the [try] of the
    dispatch, and the exception leaves [exec]. *)
Theorem redirection_failure_escapes_exec :
  exec (H := Demo.host) 2 "echo x >> /" Demo.initial
  = Throw "EISDIR: illegal operation on a directory, write '/'"
          (setCommandCount 1 Demo.initial).
Proof. vm_compute. reflexivity. Qed.

(** The exception of a registered command, on the other hand, is caught. *)
Example command_exception_is_caught :
  exec (H := Demo.host) 2 "boom" Demo.initial
  = Ret (mkResult "" ("boom: kaput" +:+ nl) 1) (setCommandCount 1 Demo.initial).
Proof. vm_compute. reflexivity. Qed.

(** C4 (failing input).  The line [g() { echo x >> / }] defines a function
    whose body raises when it is executed.  The exception leaves the call
    of [g] without the clean-up: the call depth stays at 1, the frame of
    the call stays on the scope stack and the positional parameters stay
    bound. *)
Theorem exception_skips_function_cleanup :
  exists s1 message s',
    exec (H := Demo.host) 1 "g() { echo x >> / }" Demo.initial = Ret okResult s1
    /\ functions s1 !! "g" = Some "echo x >> /"
    /\ exec (H := Demo.host) 3 "g" s1 = Throw message s'
    /\ callDepth s' = 1%nat /\ localScopes s' = [[]]
    /\ env s' !! "@" = Some "" /\ env s' !! "#" = Some "0".
Proof.
  eexists _, _, _. split; [vm_compute; reflexivity |].
  split; [reflexivity |]. split; [vm_compute; reflexivity |]. repeat split.
Qed.

Section PathNormalisation.
Import VirtualFs.

Lemma splitFrom_app (a cur s : string) :
  Js.includes "/" a = false ->
  splitFrom cur (a +:+ s) = splitFrom (cur +:+ a) s.
Proof.
  revert cur. induction a as [|x a IH]; intros cur Ha.
  - now rewrite app_nil, append_empty_r.
  - simpl in Ha. apply orb_false_elim in Ha as [Hx Ha].
    rewrite app_cons. cbn [splitFrom]. rewrite Hx, (IH _ Ha).
    f_equal. now rewrite append_assoc.
Qed.

Lemma splitFrom_slashfree (cur s : string) :
  Js.includes "/" cur = false ->
  Forall (fun p => Js.includes "/" p = false) (splitFrom cur s).
Proof.
  revert cur. induction s as [|c r IH]; intros cur Hcur; cbn [splitFrom].
  - now constructor.
  - destruct (Ascii.eqb c "/") eqn:Hc.
    + constructor; [exact Hcur | now apply IH].
    + apply IH. rewrite includes_append, Hcur. simpl. now rewrite Hc.
Qed.

Lemma splitFrom_join (p : string) (ps : list string) :
  Forall (fun p => Js.includes "/" p = false) (p :: ps) ->
  splitFrom "" (Js.join "/" (p :: ps)) = p :: ps.
Proof.
  revert p. induction ps as [|q ps IH]; intros p Hall.
  - cbn [Js.join]. rewrite <- (append_empty_r p) at 1.
    rewrite splitFrom_app by (now inversion Hall). reflexivity.
  - inversion Hall as [|? ? Hp Hrest]; subst.
    change (Js.join "/" (p :: q :: ps)) with (p +:+ "/" +:+ Js.join "/" (q :: ps)).
    rewrite splitFrom_app by exact Hp. rewrite app_nil.
    rewrite app_cons, app_nil. cbn [splitFrom Ascii.eqb Bool.eqb].
    now rewrite (IH q Hrest).
Qed.

Lemma resolveParts_clean (parts resolved : list string) :
  Forall (fun p => negb (String.eqb p "") && negb (String.eqb p ".")
                   && negb (Js.includes "/" p) = true) parts ->
  Forall (fun p => cleanPart p = true) resolved ->
  Forall (fun p => cleanPart p = true) (resolveParts parts resolved).
Proof.
  revert resolved. induction parts as [|part parts IH]; intros resolved Hp Hr.
  - cbn [resolveParts]. now apply Forall_rev.
  - inversion Hp as [|? ? Hpart Hparts]; subst. cbn [resolveParts].
    destruct (String.eqb part "..") eqn:Hdd.
    + apply IH; [exact Hparts |]. destruct resolved; [constructor |].
      now inversion Hr.
    + apply IH; [exact Hparts |]. constructor; [| exact Hr].
      unfold cleanPart. rewrite Hdd.
      apply andb_prop in Hpart as [Hpart Hs]. apply andb_prop in Hpart as [He Hd].
      now rewrite He, Hd, Hs.
Qed.

Lemma resolveParts_plain (parts resolved : list string) :
  Forall (fun p => cleanPart p = true) parts ->
  resolveParts parts resolved = (rev resolved ++ parts)%list.
Proof.
  revert resolved. induction parts as [|part parts IH]; intros resolved Hp.
  - cbn [resolveParts]. now rewrite app_nil_r.
  - inversion Hp as [|? ? Hpart Hparts]; subst. cbn [resolveParts].
    unfold cleanPart in Hpart.
    apply andb_prop in Hpart as [Hpart _]. apply andb_prop in Hpart as [_ Hdd].
    apply negb_true_iff in Hdd. rewrite Hdd, (IH _ Hparts).
    cbn [rev]. now rewrite <- app_assoc.
Qed.

Lemma filter_parts_good (l : list string) :
  Forall (fun p => Js.includes "/" p = false) l ->
  Forall (fun p => negb (String.eqb p "") && negb (String.eqb p ".")
                   && negb (Js.includes "/" p) = true)
         (filter (fun p => negb (String.eqb p "") && negb (String.eqb p ".")) l).
Proof.
  induction l as [|p l IH]; intros Hall; [constructor |].
  inversion Hall as [|? ? Hp Hl]; subst.
  rewrite filter_cons. destruct (decide _) as [Hd | Hd].
  - constructor; [| now apply IH].
    apply Is_true_true in Hd. now rewrite Hd, Hp.
  - now apply IH.
Qed.

Lemma filter_parts_clean (l : list string) :
  Forall (fun p => cleanPart p = true) l ->
  filter (fun p => negb (String.eqb p "") && negb (String.eqb p ".")) l = l.
Proof.
  induction l as [|p l IH]; intros Hall; [reflexivity |].
  inversion Hall as [|? ? Hp Hl]; subst.
  rewrite filter_cons. destruct (decide _) as [Hd | Hd].
  - now rewrite (IH Hl).
  - exfalso. apply Hd. apply Is_true_true.
    unfold cleanPart in Hp. apply andb_prop in Hp as [Hp _].
    now apply andb_prop in Hp as [Hp _].
Qed.

(** The last character of a text, as a text. *)
Lemma lastChar_cons (c : ascii) (t : string) :
  t <> "" ->
  Js.drop (Nat.pred (String.length (String c t))) (String c t)
  = Js.drop (Nat.pred (String.length t)) t.
Proof.
  intros Ht. destruct t as [|d r]; [congruence |]. reflexivity.
Qed.

Lemma endsWithSlash_slashfree (s : string) :
  Js.includes "/" s = false -> endsWithSlash s = false.
Proof.
  unfold endsWithSlash. induction s as [|c t IH]; intros Hs; [reflexivity |].
  simpl in Hs. apply orb_false_elim in Hs as [Hc Ht].
  destruct t as [|d r].
  - cbn [String.length Nat.pred Js.drop]. simpl. now rewrite Hc.
  - rewrite lastChar_cons by discriminate. now apply IH.
Qed.

Lemma endsWithSlash_append (a b : string) :
  b <> "" -> endsWithSlash (a +:+ b) = endsWithSlash b.
Proof.
  intros Hb. unfold endsWithSlash. induction a as [|x a IH]; [reflexivity |].
  rewrite app_cons, lastChar_cons; [exact IH |].
  destruct a; [now rewrite app_nil | discriminate].
Qed.

Lemma join_clean_nonempty (p : string) (ps : list string) :
  Forall (fun p => cleanPart p = true) (p :: ps) ->
  Js.join "/" (p :: ps) <> "" /\ endsWithSlash (Js.join "/" (p :: ps)) = false.
Proof.
  revert p. induction ps as [|q ps IH]; intros p Hall;
    inversion Hall as [|? ? Hp Hrest]; subst.
  - cbn [Js.join]. unfold cleanPart in Hp.
    apply andb_prop in Hp as [Hp Hs]. apply andb_prop in Hp as [Hp _].
    apply andb_prop in Hp as [He _].
    apply negb_true_iff in He, Hs. split.
    + intros ->. discriminate.
    + now apply endsWithSlash_slashfree.
  - destruct (IH q Hrest) as [Hne Hend].
    change (Js.join "/" (p :: q :: ps)) with (p +:+ "/" +:+ Js.join "/" (q :: ps)).
    split.
    + destruct p; [| discriminate]. rewrite app_nil, app_cons. discriminate.
    + rewrite <- append_assoc, endsWithSlash_append; assumption.
Qed.

Lemma cleanPart_slashfree (l : list string) :
  Forall (fun p => cleanPart p = true) l ->
  Forall (fun p => Js.includes "/" p = false) l.
Proof.
  intros Hall. eapply Forall_impl; [exact Hall |].
  intros p Hp. unfold cleanPart in Hp.
  apply andb_prop in Hp as [_ Hs]. now apply negb_true_iff in Hs.
Qed.

(** Every normalised path is a slash followed by clean components joined
    by slashes. *)
Lemma normalizePath_shape (path : string) :
  exists parts, Forall (fun p => cleanPart p = true) parts
                /\ normalizePath path = "/" +:+ Js.join "/" parts.
Proof.
  unfold normalizePath.
  destruct (String.eqb path "" || String.eqb path "/").
  { exists []. split; [constructor | reflexivity]. }
  eexists. split; [| reflexivity].
  apply resolveParts_clean; [| constructor].
  apply filter_parts_good. now apply splitFrom_slashfree.
Qed.

(** Such a path is a fixed point of [normalizePath]. *)
Lemma normalizePath_canonical (parts : list string) :
  Forall (fun p => cleanPart p = true) parts ->
  normalizePath ("/" +:+ Js.join "/" parts) = "/" +:+ Js.join "/" parts.
Proof.
  intros Hall. destruct parts as [|p ps]; [reflexivity |].
  destruct (join_clean_nonempty p ps Hall) as [Hne Hend].
  set (j := Js.join "/" (p :: ps)) in *.
  unfold normalizePath.
  assert (H1 : String.eqb ("/" +:+ j) "" = false) by reflexivity.
  assert (H2 : String.eqb ("/" +:+ j) "/" = false).
  { rewrite app_cons, app_nil. destruct j; [congruence | reflexivity]. }
  rewrite H1, H2. cbn [orb].
  rewrite (endsWithSlash_append "/" j Hne), Hend.
  assert (H3 : Js.startsWith "/" ("/" +:+ j) = true) by reflexivity.
  rewrite H3. change (splitFrom "" ("/" +:+ j)) with ("" :: splitFrom "" j).
  unfold j. rewrite splitFrom_join by (now apply cleanPart_slashfree).
  rewrite filter_cons. destruct (decide _) as [Hd | _]; [destruct Hd |].
  rewrite (filter_parts_clean _ Hall), (resolveParts_plain _ [] Hall).
  reflexivity.
Qed.

Lemma normalizePath_idem (path : string) :
  normalizePath (normalizePath path) = normalizePath path.
Proof.
  destruct (normalizePath_shape path) as (parts & Hall & ->).
  now apply normalizePath_canonical.
Qed.


Lemma resolvePath_normalized (base path : string) :
  normalizePath (resolvePath base path) = resolvePath base path.
Proof.
  unfold resolvePath. destruct (Js.startsWith "/" path); apply normalizePath_idem.
Qed.

Lemma join_snoc (q : string) (parts : list string) (p : string) :
  Js.join "/" ((q :: parts) ++ [p]) = Js.join "/" (q :: parts) +:+ "/" +:+ p.
Proof.
  revert q. induction parts as [|r parts IH]; intros q; [reflexivity |].
  change (Js.join "/" ((q :: r :: parts) ++ [p]))
    with (q +:+ "/" +:+ Js.join "/" ((r :: parts) ++ [p])).
  rewrite IH.
  change (Js.join "/" (q :: r :: parts)) with (q +:+ "/" +:+ Js.join "/" (r :: parts)).
  now rewrite !append_assoc.
Qed.

Lemma lastIndexOf_none (c : ascii) (s : string) :
  Js.includes c s = false -> lastIndexOf c s = None.
Proof.
  induction s as [|d r IH]; [reflexivity |]. simpl.
  intros H. apply orb_false_elim in H as [Hd Hr]. now rewrite (IH Hr), Hd.
Qed.

Lemma lastIndexOf_append (c : ascii) (a p : string) :
  Js.includes c p = false ->
  lastIndexOf c (a +:+ String c p) = Some (String.length a).
Proof.
  intros Hp. induction a as [|x a IH].
  - rewrite app_nil. simpl. now rewrite (lastIndexOf_none c p Hp), Ascii.eqb_refl.
  - rewrite app_cons. simpl. now rewrite IH.
Qed.

Lemma pathOf_snoc (parts : list string) (p : string) :
  parts <> [] -> pathOf (parts ++ [p]) = pathOf parts +:+ String "/" p.
Proof.
  intros Hne. destruct parts as [|q parts]; [congruence |].
  unfold pathOf. rewrite join_snoc. rewrite !append_assoc. reflexivity.
Qed.

Lemma cleanPart_inv (p : string) :
  cleanPart p = true -> p <> "" /\ Js.includes "/" p = false.
Proof.
  unfold cleanPart. intros H. apply andb_prop in H as [H Hs].
  apply andb_prop in H as [H _]. apply andb_prop in H as [He _].
  apply negb_true_iff in He, Hs. split; [| exact Hs].
  intros ->. discriminate.
Qed.

Lemma pathOf_normalized (parts : list string) :
  Forall (fun p => cleanPart p = true) parts ->
  normalizePath (pathOf parts) = pathOf parts.
Proof. apply normalizePath_canonical. Qed.

Lemma pathOf_not_root (parts : list string) (p : string) :
  Forall (fun p => cleanPart p = true) (parts ++ [p]) ->
  String.eqb (pathOf (parts ++ [p])) "/" = false.
Proof.
  intros Hall. unfold pathOf.
  destruct (parts ++ [p])%list as [|q l] eqn:Hl; [now destruct parts |].
  destruct (join_clean_nonempty q l Hall) as [Hne _].
  destruct (Js.join "/" (q :: l)); [congruence | reflexivity].
Qed.

(** The parent of a path in canonical form is the path of all components
    but the last. *)
Lemma dirname_snoc (parts : list string) (p : string) :
  Forall (fun p => cleanPart p = true) (parts ++ [p]) ->
  dirname (pathOf (parts ++ [p])) = pathOf parts.
Proof.
  intros Hall. unfold dirname.
  rewrite (pathOf_normalized _ Hall), (pathOf_not_root _ _ Hall).
  apply Forall_app in Hall as [Hparts Hp].
  inversion Hp as [|? ? Hcp _]; subst. apply cleanPart_inv in Hcp as [_ Hs].
  destruct parts as [|q parts].
  - unfold pathOf. cbn [app Js.join]. rewrite app_cons, app_nil.
    cbn [lastIndexOf]. rewrite (lastIndexOf_none _ _ Hs). reflexivity.
  - rewrite pathOf_snoc by discriminate.
    rewrite (lastIndexOf_append "/" _ p Hs).
    unfold pathOf at 1. rewrite app_cons. cbn [String.length].
    change (S (String.length ("" +:+ Js.join "/" (q :: parts))))
      with (String.length (pathOf (q :: parts))).
    apply take_append.
Qed.

Lemma pathOf_length (parts : list string) (p : string) :
  Forall (fun p => cleanPart p = true) (parts ++ [p]) ->
  (String.length (pathOf parts) < String.length (pathOf (parts ++ [p])))%nat.
Proof.
  intros Hall. destruct parts as [|q parts].
  - apply Forall_app in Hall as [_ Hp]. inversion Hp as [|? ? Hcp _]; subst.
    apply cleanPart_inv in Hcp as [Hne _].
    unfold pathOf. cbn [app Js.join]. rewrite !app_cons, !app_nil.
    destruct p; [congruence |]. simpl. lia.
  - rewrite pathOf_snoc by discriminate. rewrite length_append. simpl. lia.
Qed.

Lemma pathOf_inj_length (parts : list string) (p : string) :
  Forall (fun p => cleanPart p = true) (parts ++ [p]) ->
  pathOf parts <> pathOf (parts ++ [p]).
Proof.
  intros Hall Heq. pose proof (pathOf_length parts p Hall) as Hlt.
  rewrite <- Heq in Hlt. lia.
Qed.

(** A normalised path is the root or has a last component. *)
Lemma normalizePath_cases (path : string) :
  normalizePath path = "/"
  \/ exists parts p, Forall (fun p => cleanPart p = true) (parts ++ [p])
                     /\ normalizePath path = pathOf (parts ++ [p]).
Proof.
  destruct (normalizePath_shape path) as (parts & Hall & Heq).
  destruct (rev parts) as [|p rparts] eqn:Hrev.
  - left. apply (f_equal (@rev string)) in Hrev. rewrite rev_involutive in Hrev.
    now subst parts.
  - right. exists (rev rparts), p.
    apply (f_equal (@rev string)) in Hrev. rewrite rev_involutive in Hrev.
    cbn [rev] in Hrev. subst parts. now split.
Qed.

Lemma dirname_normalizePath (path : string) :
  dirname (normalizePath path) = dirname path.
Proof. unfold dirname. now rewrite normalizePath_idem. Qed.

Lemma dirname_normalized (path : string) :
  normalizePath (dirname path) = dirname path.
Proof.
  rewrite <- dirname_normalizePath.
  destruct (normalizePath_cases path) as [-> | (parts & p & Hall & ->)];
    [reflexivity |].
  rewrite (dirname_snoc _ _ Hall). apply pathOf_normalized.
  now apply Forall_app in Hall as [Hparts _].
Qed.

(** [ensureParentDirs] never touches an entry that exists. *)
Lemma ensureParentDirs_keeps (depth : nat) (path : string) (data : t)
    (q : string) (e : FsEntry) :
  data !! q = Some e -> ensureParentDirs depth path data !! q = Some e.
Proof.
  revert path. induction depth as [|depth IH]; intros path Hq;
    cbn [ensureParentDirs]; destruct (String.eqb (dirname path) "/");
    try exact Hq; destruct (data !! dirname path) eqn:Hd; try exact Hq.
  destruct (decide (q = dirname path)) as [-> | Hne]; [congruence |].
  rewrite lookup_insert_ne by congruence. now apply IH.
Qed.

(** What it adds is a directory with the default mode. *)
Lemma ensureParentDirs_adds (depth : nat) (path : string) (data : t)
    (q : string) (e : FsEntry) :
  ensureParentDirs depth path data !! q = Some e ->
  data !! q = Some e \/ (data !! q = None /\ e = DirectoryEntry 493).
Proof.
  revert path. induction depth as [|depth IH]; intros path;
    cbn [ensureParentDirs]; destruct (String.eqb (dirname path) "/");
    try (now left); destruct (data !! dirname path) eqn:Hd; try (now left).
  destruct (decide (q = dirname path)) as [-> | Hne].
  - rewrite lookup_insert_eq. intros [= <-]. right. now split.
  - rewrite lookup_insert_ne by congruence. apply IH.
Qed.

Lemma closed_insert (data : t) (k : string) (e : FsEntry) :
  closed data -> normalizePath k = k ->
  dirname k = "/" \/ is_Some (data !! dirname k) ->
  closed (<[k := e]> data).
Proof.
  intros Hc Hk Hparent q Hq.
  assert (Hcase : q = k \/ is_Some (data !! q)).
  { destruct (decide (q = k)) as [-> | Hne]; [now left | right].
    now rewrite lookup_insert_ne in Hq by congruence. }
  assert (Hup : forall x, is_Some (data !! x) -> is_Some (<[k := e]> data !! x)).
  { intros x Hx. destruct (decide (x = k)) as [-> | Hne].
    - rewrite lookup_insert_eq. eauto.
    - now rewrite lookup_insert_ne by congruence. }
  destruct Hcase as [-> | Hin].
  - split; [exact Hk |]. destruct Hparent as [Hr | Hp]; [now left | right; auto].
  - destruct (Hc q Hin) as [Hn [Hr | Hp]]; split; auto.
Qed.

(** With a bound that covers the length of the path, [ensureParentDirs]
    leaves a closed table closed and makes the parent of the path a key. *)
Lemma ensureParentDirs_closed (depth : nat) (parts : list string) (p : string)
    (data : t) :
  Forall (fun p => cleanPart p = true) (parts ++ [p]) ->
  (String.length (pathOf (parts ++ [p])) <= depth)%nat ->
  closed data ->
  let data' := ensureParentDirs depth (pathOf (parts ++ [p])) data in
  closed data' /\ (pathOf parts = "/" \/ is_Some (data' !! pathOf parts)).
Proof.
  revert parts p. induction depth as [|depth IH]; intros parts p Hall Hlen Hc.
  { pose proof (pathOf_length parts p Hall). lia. }
  cbn [ensureParentDirs]. rewrite (dirname_snoc _ _ Hall).
  destruct (String.eqb (pathOf parts) "/") eqn:Hroot.
  { split; [exact Hc | left]. now apply String.eqb_eq. }
  destruct (data !! pathOf parts) eqn:Hd.
  { split; [exact Hc | right]. rewrite Hd. eauto. }
  destruct (rev parts) as [|p' rparts] eqn:Hrev.
  { apply (f_equal (@rev string)) in Hrev. rewrite rev_involutive in Hrev.
    subst parts. discriminate. }
  apply (f_equal (@rev string)) in Hrev. rewrite rev_involutive in Hrev.
  cbn [rev] in Hrev. subst parts.
  assert (Hall' : Forall (fun p => cleanPart p = true) (rev rparts ++ [p'])).
  { now apply Forall_app in Hall as [Hparts _]. }
  pose proof (pathOf_length _ _ Hall) as Hlt.
  destruct (IH (rev rparts) p' Hall' ltac:(lia) Hc) as [Hc' Hparent].
  split.
  - apply closed_insert; [exact Hc' | now apply pathOf_normalized |].
    rewrite (dirname_snoc _ _ Hall'). exact Hparent.
  - right. rewrite lookup_insert_eq. eauto.
Qed.

Lemma writeFileSync_closed (path content : string) (data : t) :
  closed data -> closed (writeFileSync path content data).
Proof.
  intros Hc. unfold writeFileSync.
  destruct (normalizePath_cases path) as [-> | (parts & p & Hall & ->)].
  - apply closed_insert; [| reflexivity | now left].
    cbn [String.length ensureParentDirs]. exact Hc.
  - pose proof (ensureParentDirs_closed (String.length (pathOf (parts ++ [p])))
                  parts p data Hall ltac:(lia) Hc) as [Hc' Hparent].
    apply closed_insert; [exact Hc' | now apply pathOf_normalized |].
    now rewrite (dirname_snoc _ _ Hall).
Qed.

Lemma closed_empty : closed VirtualFs.empty.
Proof.
  intros k [e Hk]. unfold VirtualFs.empty in Hk.
  apply lookup_singleton_Some in Hk as [<- _]. split; [reflexivity | now left].
Qed.


Lemma has_true (k : string) (data : t) : has k data = true <-> is_Some (data !! k).
Proof.
  unfold has. destruct (data !! k); split; intros Hk; eauto; try discriminate.
  now destruct Hk.
Qed.

(** The recursive [mkdir] on a path that is not a key: with a bound that
    covers the length of the path it creates the directory, keeps what
    exists and leaves a closed table closed. *)
Lemma mkdir_parts (depth : nat) (parts : list string) (p : string)
    (data : t) (path : string) :
  Forall (fun p => cleanPart p = true) (parts ++ [p]) ->
  normalizePath path = pathOf (parts ++ [p]) ->
  (String.length (pathOf (parts ++ [p])) <= depth)%nat ->
  data !! pathOf (parts ++ [p]) = None ->
  exists data',
    mkdir depth data path true = Some (Ok data')
    /\ data' !! pathOf (parts ++ [p]) = Some (DirectoryEntry 493)
    /\ (forall q e, data !! q = Some e -> data' !! q = Some e)
    /\ (closed data -> closed data').
Proof.
  revert parts p path.
  induction depth as [|depth IH]; intros parts p path Hall Hpath Hlen Hnone.
  { pose proof (pathOf_length parts p Hall). lia. }
  cbn [mkdir]. rewrite Hpath, Hnone, (dirname_snoc _ _ Hall).
  assert (Hkeep : forall (d : t) q e, data !! q = Some e ->
            (forall q e, data !! q = Some e -> d !! q = Some e) ->
            <[pathOf (parts ++ [p]) := DirectoryEntry 493]> d !! q = Some e).
  { intros d q e Hq Hd. destruct (decide (q = pathOf (parts ++ [p]))) as [-> | Hne];
      [congruence |]. rewrite lookup_insert_ne by congruence. now apply Hd. }
  destruct (negb (String.eqb (pathOf parts) "/") && negb (has (pathOf parts) data))
    eqn:Hparent.
  - apply andb_prop in Hparent as [Hroot Habsent].
    apply negb_true_iff in Hroot, Habsent.
    destruct (rev parts) as [|p' rparts] eqn:Hrev.
    { apply (f_equal (@rev string)) in Hrev. rewrite rev_involutive in Hrev.
      subst parts. discriminate. }
    apply (f_equal (@rev string)) in Hrev. rewrite rev_involutive in Hrev.
    cbn [rev] in Hrev. subst parts.
    assert (Hall' : Forall (fun p => cleanPart p = true) (rev rparts ++ [p'])).
    { now apply Forall_app in Hall as [Hparts _]. }
    pose proof (pathOf_length _ _ Hall) as Hlt.
    assert (Hnone' : data !! pathOf (rev rparts ++ [p']) = None).
    { unfold has in Habsent. now destruct (data !! pathOf (rev rparts ++ [p'])). }
    destruct (IH (rev rparts) p' (pathOf (rev rparts ++ [p'])) Hall'
                 (pathOf_normalized _ Hall') ltac:(lia) Hnone')
      as (data1 & -> & Hdir & Hold & Hclosed).
    eexists. split; [reflexivity |]. split; [apply lookup_insert_eq |].
    split; [intros q e Hq; now apply Hkeep |].
    intros Hc. apply closed_insert; [now apply Hclosed | now apply pathOf_normalized |].
    rewrite (dirname_snoc _ _ Hall). right. rewrite Hdir. eauto.
  - eexists. split; [reflexivity |]. split; [apply lookup_insert_eq |].
    split; [intros q e Hq; now apply Hkeep |].
    intros Hc. apply closed_insert; [exact Hc | now apply pathOf_normalized |].
    rewrite (dirname_snoc _ _ Hall).
    apply andb_false_iff in Hparent as [Hroot | Hhas].
    + left. apply negb_false_iff in Hroot. now apply String.eqb_eq.
    + right. apply negb_false_iff in Hhas. now apply has_true.
Qed.


Lemma mkdir_key (depth : nat) (data data' : t) (path : string) (recursive : bool) :
  mkdir depth data path recursive = Some (Ok data') ->
  is_Some (data' !! normalizePath path).
Proof.
  destruct depth as [|depth]; cbn [mkdir];
    destruct (data !! normalizePath path) as [[c m | m] |] eqn:Hk;
    try discriminate.
  all: try (destruct recursive; [intros [= <-]; rewrite Hk; eauto | discriminate]).
  all: destruct (negb _ && negb _); destruct recursive; try discriminate.
  all: try (intros [= <-]; rewrite lookup_insert_eq; eauto).
  destruct (mkdir depth data _ true) as [[d1 | e] |]; try discriminate.
  intros [= <-]. rewrite lookup_insert_eq. eauto.
Qed.

Lemma mkdir_closed (depth : nat) (data data' : t) (path : string)
    (recursive : bool) :
  mkdir depth data path recursive = Some (Ok data') ->
  closed data -> closed data'.
Proof.
  revert data' path recursive.
  induction depth as [|depth IH]; intros data' path recursive; cbn [mkdir];
    destruct (data !! normalizePath path) as [[c m | m] |] eqn:Hk;
    try discriminate.
  all: try (destruct recursive; [now intros [= <-] | discriminate]).
  all: destruct (negb _ && negb _) eqn:Hparent; destruct recursive;
    try discriminate.
  all: try (intros [= <-] Hc;
            apply closed_insert; [exact Hc | apply normalizePath_idem |];
            apply andb_false_iff in Hparent as [Hroot | Hhas];
            [left; apply negb_false_iff in Hroot; now apply String.eqb_eq
            |right; apply negb_false_iff in Hhas; now apply has_true]).
  destruct (mkdir depth data _ true) as [[d1 | e] |] eqn:Hrec; try discriminate.
  intros [= <-] Hc.
  apply closed_insert; [now apply (IH _ _ _ Hrec) | apply normalizePath_idem |].
  right. rewrite <- (dirname_normalized (normalizePath path)).
  exact (mkdir_key _ _ _ _ _ Hrec).
Qed.


Lemma readFile_writeFileSync (data : t) (p q content : string) :
  normalizePath q = normalizePath p ->
  readFile (writeFileSync p content data) q = Ok content.
Proof.
  intros Hq. unfold readFile, writeFileSync. now rewrite Hq, lookup_insert_eq.
Qed.

End PathNormalisation.

(** ** The file table *)

Section FileTable.
Import VirtualFs.

(** X1.  [normalizePath] is idempotent: a normalised path is normalised to
    itself.  Consequently what [resolvePath] returns is a normalised path,
    whatever the base and the path are. *)
Theorem normalizePath_idempotent (base path : string) :
  normalizePath (normalizePath path) = normalizePath path
  /\ normalizePath (resolvePath base path) = resolvePath base path.
Proof. split; [apply normalizePath_idem | apply resolvePath_normalized]. Qed.

(** X2.  [writeFile] never fails, and the file it wrote is read back
    through every path that normalises to the same key: [readFile] returns
    the content and [stat] a regular file of mode 0o644. *)
Theorem write_then_read (data : t) (p q content : string) :
  normalizePath q = normalizePath p ->
  exists data', writeFile data p content = Ok data'
                /\ readFile data' q = Ok content
                /\ stat data' q = Ok (mkStat true false 420).
Proof.
  intros Hq. eexists. split; [reflexivity |].
  unfold readFile, stat, writeFileSync. rewrite Hq, lookup_insert_eq. now split.
Qed.

Lemma write_then_read_witness :
  exists data', writeFile empty "a/b/../c.txt" "hello" = Ok data'
                /\ readFile data' "/a/./c.txt/" = Ok "hello"
                /\ stat data' "/a/./c.txt/" = Ok (mkStat true false 420).
Proof.
  apply (write_then_read empty "a/b/../c.txt" "/a/./c.txt/" "hello").
  vm_compute. reflexivity.
Defined.

(** X3.  Writing a file leaves every other entry as it was; the only keys
    it adds besides the file are directories of mode 0o755. *)
Theorem write_keeps_other_entries (data : t) (p content q : string) :
  q <> normalizePath p ->
  writeFileSync p content data !! q = data !! q
  \/ (data !! q = None
      /\ writeFileSync p content data !! q = Some (DirectoryEntry 493)).
Proof.
  intros Hq. unfold writeFileSync. rewrite lookup_insert_ne by congruence.
  set (n := normalizePath p).
  destruct (ensureParentDirs (String.length n) n data !! q) as [e |] eqn:He.
  - destruct (ensureParentDirs_adds _ _ _ _ _ He) as [Hd | [Hd ->]];
      [left | right]; now rewrite Hd.
  - left. destruct (data !! q) as [e |] eqn:Hd; [| reflexivity].
    now rewrite (ensureParentDirs_keeps _ n _ _ _ Hd) in He.
Qed.

Lemma write_keeps_other_entries_witness :
  writeFileSync "/a/b" "x" empty !! "/" = empty !! "/"
  \/ (empty !! "/" = None
      /\ writeFileSync "/a/b" "x" empty !! "/" = Some (DirectoryEntry 493)).
Proof.
  apply (write_keeps_other_entries empty "/a/b" "x" "/").
  vm_compute. discriminate.
Defined.

(** X4.  The table stays closed: when every key is a normalised path whose
    parent is a key or the root, the same holds after [writeFile], after a
    successful [appendFile] and after a successful [mkdir].  The bound that
    the model of [ensureParentDirs] takes is therefore large enough. *)
Theorem table_stays_closed (data : t) (path content : string) :
  closed data ->
  closed (writeFileSync path content data)
  /\ (forall data', appendFile data path content = Ok data' -> closed data')
  /\ (forall depth recursive data',
        mkdir depth data path recursive = Some (Ok data') -> closed data').
Proof.
  intros Hc. split; [now apply writeFileSync_closed |]. split.
  - intros data'. unfold appendFile.
    destruct (data !! normalizePath path) as [[c m | m] |];
      try discriminate; intros [= <-]; now apply writeFileSync_closed.
  - intros depth recursive data' Hm. exact (mkdir_closed _ _ _ _ _ Hm Hc).
Qed.

Lemma table_stays_closed_witness :
  closed (writeFileSync "/a/b/c" "x" empty)
  /\ (forall data', appendFile empty "/a/b/c" "x" = Ok data' -> closed data')
  /\ (forall depth recursive data',
        mkdir depth empty "/a/b/c" recursive = Some (Ok data') -> closed data').
Proof. exact (table_stays_closed empty "/a/b/c" "x" closed_empty). Defined.

(** X5.  A successful [appendFile] is read back as the previous content
    followed by the new one, the previous content of a missing file being
    empty.  [appendFile] fails exactly when the path is a directory. *)
Theorem append_then_read (data : t) (path content : string) :
  (forall data', appendFile data path content = Ok data' ->
     readFile data' path
     = Ok (match readFile data path with Ok old => old | Err _ => "" end
           +:+ content))
  /\ ((exists e, appendFile data path content = Err e)
      <-> (exists m, data !! normalizePath path = Some (DirectoryEntry m))).
Proof.
  unfold appendFile, readFile. split.
  - intros data'. destruct (data !! normalizePath path) as [[c m | m] |];
      try discriminate; intros [= <-]; unfold writeFileSync;
      now rewrite lookup_insert_eq.
  - destruct (data !! normalizePath path) as [[c m | m] |]; split;
      try (intros [e He]; discriminate); eauto.
Qed.

Lemma append_then_read_witness :
  readFile (writeFileSync "/log" ("a" +:+ "b") (writeFileSync "/log" "a" empty)) "/log"
  = Ok (match readFile (writeFileSync "/log" "a" empty) "/log" with
        | Ok old => old | Err _ => "" end +:+ "b").
Proof.
  apply (proj1 (append_then_read (writeFileSync "/log" "a" empty) "/log" "b")).
  reflexivity.
Defined.

(** X6.  [mkdir] with the recursive option succeeds on every path that is
    not a regular file, whatever is missing above it: afterwards [stat]
    finds a directory there, and every entry that existed is unchanged. *)
Theorem mkdir_recursive_succeeds (data : t) (path : string) :
  (forall c m, data !! normalizePath path <> Some (FileEntry c m)) ->
  exists data' st,
    mkdir (String.length (normalizePath path)) data path true = Some (Ok data')
    /\ stat data' path = Ok st /\ isDirectory st = true
    /\ (forall q e, data !! q = Some e -> data' !! q = Some e).
Proof.
  intros Hfile.
  destruct (data !! normalizePath path) as [[c m | m] |] eqn:Hk.
  - now destruct (Hfile c m).
  - exists data, (mkStat false true m).
    destruct (String.length _); cbn [mkdir]; rewrite Hk; unfold stat; rewrite Hk; auto.
  - destruct (normalizePath_cases path) as [Hroot | (parts & p & Hall & Hpath)].
    + exists (<["/" := DirectoryEntry 493]> data), (mkStat false true 493).
      rewrite Hroot in *. cbn [String.length mkdir]. rewrite Hroot, Hk.
      cbn [dirname normalizePath String.eqb Ascii.eqb Bool.eqb orb negb andb].
      unfold stat. rewrite Hroot, lookup_insert_eq. repeat split.
      intros q e Hq. destruct (decide (q = "/")) as [-> | Hne]; [congruence |].
      now rewrite lookup_insert_ne by congruence.
    + rewrite Hpath in Hk |- *.
      destruct (mkdir_parts _ parts p data path Hall Hpath (Nat.le_refl _) Hk)
        as (data' & Hm & Hdir & Hold & _).
      exists data', (mkStat false true 493). unfold stat. rewrite Hpath, Hdir. auto.
Qed.

Lemma mkdir_recursive_succeeds_witness :
  exists data' st,
    mkdir (String.length (normalizePath "/a/b/c")) (writeFileSync "/a" "x" empty)
          "/a/b/c" true = Some (Ok data')
    /\ stat data' "/a/b/c" = Ok st /\ isDirectory st = true
    /\ (forall q e, writeFileSync "/a" "x" empty !! q = Some e -> data' !! q = Some e).
Proof.
  apply (mkdir_recursive_succeeds (writeFileSync "/a" "x" empty) "/a/b/c").
  intros c m. vm_compute. discriminate.
Defined.

End FileTable.

(** ** More on variable expansion *)

Section ExpansionForms.

Lemma nameStart_plain (c : ascii) :
  Js.isNameStart c = true ->
  Ascii.eqb c "{" = false /\ isParameterChar c = false.
Proof.
  destruct c as [[] [] [] [] [] [] [] []]; vm_compute; intros; try discriminate;
    now split.
Qed.

Lemma parameterChar_not_brace (c : ascii) :
  isParameterChar c = true -> Ascii.eqb c "{" = false.
Proof.
  destruct c as [[] [] [] [] [] [] [] []]; vm_compute; intros; try discriminate;
    reflexivity.
Qed.

Lemma not_dollar (c : ascii) :
  Ascii.eqb c "{" = true \/ Js.isNameStart c = true -> Ascii.eqb c "$" = false.
Proof.
  destruct c as [[] [] [] [] [] [] [] []]; vm_compute; intros [|]; try discriminate;
    reflexivity.
Qed.

Lemma takeWhile_append (p : ascii -> bool) (a rest : string) :
  Js.all p a = true ->
  match rest with String c _ => p c = false | EmptyString => True end ->
  Js.takeWhile p (a +:+ rest) = a.
Proof.
  intros Ha Hrest. induction a as [|x a IH].
  - rewrite app_nil. destruct rest as [|c r]; [reflexivity |].
    simpl. now rewrite Hrest.
  - simpl in Ha. apply andb_prop in Ha as [Hx Ha].
    rewrite app_cons. simpl. now rewrite Hx, (IH Ha).
Qed.

Lemma expandFrom_plain_prefix (e : Env) (a b : string) :
  Js.includes "$" a = false -> expandFrom e 0 (a +:+ b) = a +:+ expandFrom e 0 b.
Proof.
  induction a as [|c a IH]; intros Ha; [now rewrite !app_nil |].
  simpl in Ha. apply orb_false_elim in Ha as [Hc Ha].
  rewrite !app_cons. cbn [expandFrom].
  destruct (a +:+ b) as [|d r] eqn:Hab.
  - destruct a; [| discriminate]. rewrite app_nil in Hab. subst b. reflexivity.
  - rewrite Hc. f_equal. exact (IH Ha).
Qed.

Lemma expandFrom_dollar (e : Env) (c : ascii) (rest : string) :
  expandFrom e 0 (String "$" (String c rest))
  = fst (expandDollar e c rest)
      +:+ expandFrom e (snd (expandDollar e c rest)) (String c rest).
Proof. cbn [expandFrom Ascii.eqb Bool.eqb]. now destruct (expandDollar e c rest). Qed.

Lemma expandDollar_name (e : Env) (c : ascii) (t rest : string) :
  Js.isNameStart c = true -> Js.all Js.isNameChar t = true ->
  endsName rest = true ->
  expandDollar e c (t +:+ rest)
  = (orEmpty (envGet e (String c t)), String.length (String c t)).
Proof.
  intros Hc Ht Hrest. unfold expandDollar.
  destruct (nameStart_plain c Hc) as [Hbrace Hparam]. rewrite Hbrace.
  unfold isParameterChar in Hparam. rewrite Hparam, Hc.
  rewrite takeWhile_append; [reflexivity | exact Ht |].
  destruct rest as [|d r]; [exact I |]. now apply negb_true_iff in Hrest.
Qed.

(** X7.  Text without dollar sign is copied: a prefix that holds no dollar
    sign is left as it is, and the expansion goes on after it.  In
    particular a text without dollar sign expands to itself. *)
Theorem plain_text_is_copied (e : Env) (a b : string) :
  Js.includes "$" a = false ->
  expandVariables e (a +:+ b) = a +:+ expandVariables e b.
Proof. apply expandFrom_plain_prefix. Qed.

(** X8.  A dollar sign followed by an identifier expands to what the
    environment object gives for that name: the value of the variable when
    the name is a key of the environment; otherwise the text of the member
    of that name that the object inherits from [Object.prototype], if there
    is one, and nothing if there is none.  The name is the longest run of
    name characters, and the value is not expanded again. *)
Theorem named_variable_expands (e : Env) (varName rest : string) :
  isIdentifier varName = true -> endsName rest = true ->
  expandVariables e ("$" +:+ varName +:+ rest)
  = orEmpty (envGet e varName) +:+ expandVariables e rest
  /\ (forall v, e !! varName = Some v -> envGet e varName = Some v)
  /\ (e !! varName = None -> envGet e varName = inherited varName).
Proof.
  intros Hn Hrest. split.
  - destruct varName as [|c t]; [discriminate |].
    simpl in Hn. apply andb_prop in Hn as [Hc Ht].
    unfold expandVariables. rewrite !app_cons, app_nil.
    rewrite expandFrom_dollar, (expandDollar_name e c t rest Hc Ht Hrest).
    cbn [fst snd]. f_equal.
    change (String c (t +:+ rest)) with (String c t +:+ rest).
    apply expandFrom_skip.
  - unfold envGet. split; [now intros v -> | now intros ->].
Qed.

(** A dollar sign followed by a digit or by one of [@#$?!*] expands
    that one-character parameter only: what follows the character is
    ordinary text, so [$10] is [$1] followed by [0]. *)
Lemma one_character_parameter (e : Env) (c : ascii) (rest : string) :
  isParameterChar c = true ->
  expandVariables e (String "$" (String c rest))
  = orEmpty (e !! String c EmptyString) +:+ expandVariables e rest.
Proof.
  intros Hc. unfold expandVariables. rewrite expandFrom_dollar.
  unfold expandDollar. rewrite (parameterChar_not_brace c Hc).
  assert (Hown : envGet e (String c EmptyString) = e !! String c EmptyString).
  { apply envGet_own. destruct (inherited (String c "")) eqn:Hin; [| reflexivity].
    assert (Hstart : Js.isNameStart c = true).
    { apply (inherited_name_start (String c "")). congruence. }
    destruct (nameStart_plain c Hstart) as [_ Hparam]. congruence. }
  unfold isParameterChar in Hc. rewrite Hc, Hown. cbn [fst snd expandFrom].
  now destruct rest.
Qed.

(** X10.  The braced form without default expands to what the
    environment object gives for the name between the braces: the value of
    the variable when the name is a key of the environment; otherwise the
    text of the member of that name that the object inherits from
    [Object.prototype], if there is one, and nothing if there is none. *)
Theorem braced_variable_expands (e : Env) (varName rest : string) :
  Js.includes "}" varName = false -> Js.includes ":" varName = false ->
  expandVariables e ("${" +:+ varName +:+ "}" +:+ rest)
  = orEmpty (envGet e varName) +:+ expandVariables e rest
  /\ (forall v, e !! varName = Some v -> envGet e varName = Some v)
  /\ (e !! varName = None -> envGet e varName = inherited varName).
Proof.
  intros Hbrace Hcolon.
  split; [| unfold envGet; split; [now intros v -> | now intros ->]].
  replace ("${" +:+ varName +:+ "}" +:+ rest)
    with (String "$" (String "{" (varName +:+ String "}" rest)))
    by (now rewrite !app_cons, !app_nil).
  unfold expandVariables. rewrite expandFrom_dollar.
  unfold expandDollar. cbn [Ascii.eqb Bool.eqb].
  rewrite (indexOf_append "}" varName rest Hbrace), take_append.
  unfold defaultMatch. rewrite (indexOf_none ":" varName Hcolon).
  cbn [fst snd]. f_equal.
  replace (String "{" (varName +:+ String "}" rest))
    with (("{" +:+ varName +:+ "}") +:+ rest)
    by (now rewrite !app_cons, !app_nil, !append_assoc).
  replace (S (S (String.length varName)))
    with (String.length ("{" +:+ varName +:+ "}"))
    by (rewrite app_cons, app_nil; cbn [String.length];
        rewrite length_append; simpl; lia).
  apply expandFrom_skip.
Qed.

(** X11.  A dollar sign that starts no expansion is kept: before a
    character that is neither a name start, a digit, a special parameter
    nor the brace of a closed braced form, it is copied and the expansion
    goes on with that character; at the end of the text it is copied. *)
Theorem lone_dollar_is_kept (e : Env) (c : ascii) (rest : string) :
  startsExpansion c rest = false ->
  expandVariables e (String "$" (String c rest))
  = String "$" (expandVariables e (String c rest))
  /\ expandVariables e "$" = "$".
Proof.
  intros Hs. split; [| reflexivity].
  unfold startsExpansion in Hs.
  apply orb_false_elim in Hs as [Hs Hname]. apply orb_false_elim in Hs as [Hb Hp].
  unfold expandVariables. rewrite expandFrom_dollar. unfold expandDollar.
  unfold isParameterChar in Hp. rewrite Hp, Hname.
  destruct (Ascii.eqb c "{") eqn:Hc.
  - cbn [andb] in Hb. rewrite (indexOf_none "}" rest Hb). reflexivity.
  - reflexivity.
Qed.

End ExpansionForms.

Lemma plain_text_is_copied_witness :
  expandVariables {[ "HOME" := "/root" ]} ("cd " +:+ "$HOME")
  = "cd " +:+ expandVariables {[ "HOME" := "/root" ]} "$HOME".
Proof. apply (plain_text_is_copied {[ "HOME" := "/root" ]} "cd " "$HOME"). reflexivity. Defined.

Lemma named_variable_expands_witness :
  expandVariables {[ "USER" := "$HOME" ]} "$USER/bin" = "$HOME/bin"
  /\ expandVariables (∅ : Env) "$UNSET/bin" = "/bin"
  /\ expandVariables (∅ : Env) "$toString/bin"
     = "function toString() { [native code] }/bin".
Proof.
  split; [| split].
  - refine (proj1 (named_variable_expands {[ "USER" := "$HOME" ]} "USER" "/bin" _ _)); reflexivity.
  - refine (proj1 (named_variable_expands ∅ "UNSET" "/bin" _ _)); reflexivity.
  - refine (proj1 (named_variable_expands ∅ "toString" "/bin" _ _)); reflexivity.
Defined.

Lemma braced_variable_expands_witness :
  expandVariables {[ "A" := "x" ]} "${A}y" = "xy"
  /\ expandVariables (∅ : Env) "${A}y" = "y"
  /\ expandVariables (∅ : Env) "${__proto__}y" = "[object Object]y".
Proof.
  split; [| split].
  - refine (proj1 (braced_variable_expands {[ "A" := "x" ]} "A" "y" _ _)); reflexivity.
  - refine (proj1 (braced_variable_expands ∅ "A" "y" _ _)); reflexivity.
  - refine (proj1 (braced_variable_expands ∅ "__proto__" "y" _ _)); reflexivity.
Defined.

Lemma lone_dollar_is_kept_witness :
  expandVariables (∅ : Env) "${HOME"
  = String "$" (expandVariables (∅ : Env) "{HOME")
  /\ expandVariables (∅ : Env) "$" = "$".
Proof. apply (lone_dollar_is_kept ∅ "{" "HOME"). reflexivity. Defined.

(** ** Builtins *)

Section Builtins.
Context `{Host}.

Lemma unset_lookup (l : list string) (e : Env) (k : string) :
  (k ∈ l -> fold_left (fun e arg => delete arg e) l e !! k = None)
  /\ (k ∉ l -> fold_left (fun e arg => delete arg e) l e !! k = e !! k).
Proof.
  revert e. induction l as [|a l IH]; intros e; cbn [fold_left].
  - split; [intros Hk; now apply elem_of_nil in Hk | reflexivity].
  - destruct (IH (delete a e)) as [Hin Hout]. split.
    + intros Hk. destruct (decide (k ∈ l)) as [Hl | Hl]; [now apply Hin |].
      apply elem_of_cons in Hk as [-> | Hk]; [| contradiction].
      rewrite (Hout Hl). apply lookup_delete_eq.
    + intros Hk. apply not_elem_of_cons in Hk as [Hne Hl].
      rewrite (Hout Hl). now apply lookup_delete_ne.
Qed.

(** X12.  [unset] always succeeds: the names it is given are no longer
    set afterwards, whether they were set or not, every other variable
    keeps its value, and nothing but the environment changes. *)
Theorem unset_removes_the_names (l : list string) (s : ShellState FS) :
  exists e', handleUnset l s = Ret okResult (setEnv e' s)
             /\ (forall k, k ∈ l -> e' !! k = None)
             /\ (forall k, k ∉ l -> e' !! k = env s !! k).
Proof.
  eexists. split; [reflexivity |].
  split; intros k Hk; now apply unset_lookup.
Qed.

(** X13.  [cd] to a directory and then [cd -] leads back: the first call
    makes the resolved operand the working directory and remembers the
    old one, the second call returns to it and remembers the other. *)
Theorem cd_dash_returns (d : string) (s : ShellState FS) (st st0 : FsStat) :
  isPathOperand d = true ->
  stat (fs s) (resolvePath (fs s) (cwd s) d) = Ok st -> isDirectory st = true ->
  stat (fs s) (cwd s) = Ok st0 -> isDirectory st0 = true ->
  exists s1 s2,
    handleCd [d] s = Ret okResult s1
    /\ cwd s1 = resolvePath (fs s) (cwd s) d /\ previousDir s1 = cwd s
    /\ handleCd ["-"] s1 = Ret okResult s2
    /\ cwd s2 = cwd s /\ previousDir s2 = cwd s1.
Proof.
  unfold isPathOperand. intros Hd Hst Hdir Hst0 Hdir0.
  apply andb_prop in Hd as [Hd Htilde]. apply andb_prop in Hd as [Hempty Hdash].
  apply negb_true_iff in Hempty, Hdash, Htilde.
  assert (Htruthy : truthy (Some d) = Some d) by (destruct d; [discriminate | reflexivity]).
  eexists. eexists. split.
  { unfold handleCd. cbn [head]. rewrite Htruthy. cbv iota.
    rewrite Hdash, Htilde, Hst, Hdir. reflexivity. }
  split; [reflexivity |]. split; [reflexivity |]. split.
  { unfold handleCd. cbn [head truthy]. cbv iota.
    cbn [String.eqb Ascii.eqb Bool.eqb previousDir setDirs fs cwd].
    rewrite Hst0, Hdir0. reflexivity. }
  split; reflexivity.
Qed.

(** X14.  [cd] either succeeds or changes nothing.  On success, with exit
    code 0, the new working directory is one that [stat] reports as a
    directory, the previous directory is the old working directory, and
    the file system and the environment are the same; otherwise the exit
    code is 1, nothing is written to standard output and the state is
    untouched. *)
Theorem cd_succeeds_or_changes_nothing (l : list string) (s : ShellState FS) :
  exists r s',
    handleCd l s = Ret r s'
    /\ ((r = okResult /\ previousDir s' = cwd s
         /\ (exists st, stat (fs s) (cwd s') = Ok st /\ isDirectory st = true)
         /\ fs s' = fs s /\ env s' = env s)
        \/ (exitCode r = 1 /\ stdout r = "" /\ s' = s)).
Proof.
  unfold handleCd.
  set (tgt := match truthy (head l), truthy (env s !! "HOME") with
              | Some a, _ => a | None, Some h => h | None, None => "/" end).
  set (newDir := if String.eqb tgt "-" then previousDir s
                 else if String.eqb tgt "~" then default "/" (truthy (env s !! "HOME"))
                 else resolvePath (fs s) (cwd s) tgt).
  destruct (stat (fs s) newDir) as [st | e] eqn:Hst.
  - destruct (isDirectory st) eqn:Hdir; cbn [negb].
    + eexists. eexists. split; [reflexivity | left].
      repeat split. exists st. now split.
    + eexists. eexists. split; [reflexivity | right]. now repeat split.
  - eexists. eexists. split; [reflexivity | right]. now repeat split.
Qed.

End Builtins.

Lemma cd_dash_returns_witness :
  exists s1 s2,
    handleCd (H := Demo.host) ["d"]
      (setFs (VirtualFs.writeFileSync "/d/f" "" VirtualFs.empty) Demo.initial)
    = Ret okResult s1
    /\ cwd s1 = "/d" /\ previousDir s1 = "/"
    /\ handleCd (H := Demo.host) ["-"] s1 = Ret okResult s2
    /\ cwd s2 = "/" /\ previousDir s2 = cwd s1.
Proof.
  apply (cd_dash_returns (H := Demo.host) "d"
           (setFs (VirtualFs.writeFileSync "/d/f" "" VirtualFs.empty) Demo.initial)
           (mkStat false true 493) (mkStat false true 493)); reflexivity.
Defined.

(** ** The cases of [executeCommand] *)

Section CommandCases.
Context `{Host}.

(** A plain command word is looked up among the functions, then in the
    registry. *)
Lemma executeCommand_plain
    (rec : string -> ShellState FS -> outcome (ShellState FS) ExecResult)
    (c : ParsedCommand) (stdin : string) (s : ShellState FS) :
  plainCommandName (command c) = true ->
  executeCommand rec c stdin s
  = match readStdin (redirections c) stdin s with
    | Err e => Ret (mkResult "" e 1) s
    | Ok stdin' =>
        let expandedArgs :=
          expandArgs (getAllPaths (fs s)) (cwd s)
                     (expandUnquoted (env s) (args c) (quotedArgs c))
                     (quotedArgs c) in
        match truthy (functions s !! command c) with
        | Some funcBody => callFunction rec (command c) funcBody expandedArgs s
        | None =>
            match commands !! commandNameOf (command c) with
            | None =>
                Ret (mkResult "" ("bash: " +:+ command c
                                    +:+ ": command not found" +:+ nl) 127) s
            | Some cmd => dispatch rec cmd c expandedArgs stdin' s
            end
        end
    end.
Proof.
  unfold plainCommandName. intros Hname.
  apply andb_prop in Hname as [Hname Hbuiltin].
  apply andb_prop in Hname as [Hname Hif].
  apply andb_prop in Hname as [Hname Heq].
  apply andb_prop in Hname as [Hne Hdollar].
  apply negb_true_iff in Hbuiltin, Hif, Heq, Hne, Hdollar.
  apply orb_false_elim in Hbuiltin as [Hbuiltin Hlocal].
  apply orb_false_elim in Hbuiltin as [Hbuiltin Hexit].
  apply orb_false_elim in Hbuiltin as [Hbuiltin Hunset].
  apply orb_false_elim in Hbuiltin as [Hcd Hexport].
  unfold executeCommand. rewrite Hne.
  destruct (readStdin _ stdin s) as [stdin'|e]; [| reflexivity].
  rewrite Hif, (expandVariables_plain _ _ Hdollar).
  rewrite Hcd, Hexport, Hunset, Hexit, Hlocal.
  assert (Hassign : forall l, assignment (command c) l = None).
  { intros l. unfold assignment. rewrite (indexOf_none _ _ Heq). now destruct l. }
  rewrite Hassign. reflexivity.
Qed.

Lemma nameChar_plain (c : ascii) :
  Js.isNameChar c = true ->
  Ascii.eqb c "$" = false /\ Ascii.eqb c "=" = false /\ Js.isSpace c = false
  /\ Ascii.eqb c "(" = false /\ Ascii.eqb c ";" = false.
Proof.
  destruct c as [[] [] [] [] [] [] [] []]; vm_compute; intros; try discriminate;
    now repeat split.
Qed.

Lemma identifier_chars (n : string) :
  isIdentifier n = true -> Js.all Js.isNameChar n = true.
Proof.
  destruct n as [|c t]; [discriminate |]. simpl.
  intros Hn. apply andb_prop in Hn as [Hc Ht].
  unfold Js.isNameChar at 1. now rewrite Hc, Ht.
Qed.

Lemma nameChars_exclude (n : string) (c : ascii) :
  Js.all Js.isNameChar n = true -> Js.isNameChar c = false ->
  Js.includes c n = false.
Proof. apply all_excludes. Qed.

(** A prefix of a name followed by [d]: past its name characters it can
    only go on with [d]. *)
Lemma startsWith_name (p n : string) (d : ascii) (x : string) :
  Js.all Js.isNameChar n = true -> Js.isNameChar d = false ->
  Js.startsWith p (n +:+ String d x) = true ->
  match Js.dropWhile Js.isNameChar p with
  | String c _ => c = d
  | EmptyString => True
  end.
Proof.
  revert n. induction p as [|a p IH]; intros n Hn Hd Hp; [exact I |].
  destruct n as [|b n].
  - rewrite app_nil in Hp. cbn [Js.startsWith] in Hp.
    apply andb_prop in Hp as [Ha _]. apply Ascii.eqb_eq in Ha. subst a.
    cbn [Js.dropWhile]. now rewrite Hd.
  - rewrite app_cons in Hp. cbn [Js.startsWith] in Hp.
    apply andb_prop in Hp as [Ha Hp]. apply Ascii.eqb_eq in Ha. subst a.
    simpl in Hn. apply andb_prop in Hn as [Hb Hn].
    cbn [Js.dropWhile]. rewrite Hb. now apply (IH n).
Qed.

Lemma includes_eqb (c : ascii) (x y : string) :
  Js.includes c x = true -> Js.includes c y = false -> String.eqb x y = false.
Proof.
  intros Hx Hy. destruct (String.eqb_spec x y) as [-> | _]; [congruence | reflexivity].
Qed.

(** X15.  A command that is one word [NAME=value] with an identifier for
    name is an assignment: the expansion of the value is assigned to the
    name in the environment object, the exit code is 0 and nothing else
    changes.  For every name but [__proto__] the variable is then set to
    that value; the assignment to [__proto__] is taken by the setter that
    the object inherits and changes nothing, unless [__proto__] is a key
    of the environment already. *)
Theorem assignment_sets_the_variable
    (rec : string -> ShellState FS -> outcome (ShellState FS) ExecResult)
    (varName value stdin : string) (s : ShellState FS) :
  isIdentifier varName = true ->
  let assigned := expandVariables (env s) value in
  executeCommand rec (word (varName +:+ "=" +:+ value) []) stdin s
  = Ret okResult (setEnv (envSet varName assigned (env s)) s)
  /\ (varName <> "__proto__" ->
      envSet varName assigned (env s) = <[varName := assigned]> (env s))
  /\ (varName = "__proto__" -> env s !! varName = None ->
      envSet varName assigned (env s) = env s).
Proof.
  intros Hid assigned.
  split; [| split; [apply envSet_insert | intros -> Hown; unfold envSet; now rewrite Hown]].
  unfold assigned. clear assigned.
  pose proof (identifier_chars _ Hid) as Hall.
  assert (Hdollar : Js.includes "$" (varName +:+ "=") = false).
  { rewrite includes_append, (nameChars_exclude varName "$" Hall) by reflexivity.
    reflexivity. }
  assert (Heq : Js.includes "=" varName = false).
  { now apply nameChars_exclude. }
  set (cmd := varName +:+ "=" +:+ value).
  assert (Hcmd : cmd = varName +:+ String "=" value) by reflexivity.
  assert (Hne : String.eqb cmd "" = false).
  { unfold cmd. destruct varName; [discriminate | reflexivity]. }
  assert (Hif : Js.startsWith "if " cmd || Js.startsWith "if;" cmd = false).
  { apply orb_false_intro.
    - destruct (Js.startsWith "if " cmd) eqn:E; [| reflexivity].
      rewrite Hcmd in E. apply startsWith_name in E; [| exact Hall | reflexivity].
      simpl in E. discriminate.
    - destruct (Js.startsWith "if;" cmd) eqn:E; [| reflexivity].
      rewrite Hcmd in E. apply startsWith_name in E; [| exact Hall | reflexivity].
      simpl in E. discriminate. }
  assert (Hexp : expandVariables (env s) cmd
                 = varName +:+ String "=" (expandVariables (env s) value)).
  { unfold expandVariables, cmd.
    rewrite <- append_assoc, (expandFrom_plain_prefix _ _ _ Hdollar).
    now rewrite append_assoc. }
  assert (Hin : Js.includes "=" (varName +:+ String "=" (expandVariables (env s) value)) = true).
  { rewrite includes_append. simpl. now rewrite orb_true_r. }
  unfold executeCommand, word.
  cbn [command redirections args quotedArgs map readStdin].
  fold cmd. rewrite Hne, Hif, Hexp. cbn [expandUnquoted expandArgs].
  rewrite !(includes_eqb "=" _ _ Hin) by reflexivity.
  unfold assignment. rewrite (indexOf_append "=" varName _ Heq), take_append, Hid.
  now rewrite drop_append_cons.
Qed.

(** X16.  A plain command word that names neither a function with a body
    nor a registered command fails with exit code 127 and the message
    [command not found]; the state is untouched, so that no output
    redirection of the command creates a file.  A function defined with
    an empty body counts as no function. *)
Theorem unknown_command_is_not_found
    (rec : string -> ShellState FS -> outcome (ShellState FS) ExecResult)
    (c : ParsedCommand) (stdin : string) (s : ShellState FS) :
  plainCommandName (command c) = true ->
  noStdinRedirection (redirections c) = true ->
  truthy (functions s !! command c) = None ->
  commands !! commandNameOf (command c) = None ->
  executeCommand rec c stdin s
  = Ret (mkResult "" ("bash: " +:+ command c +:+ ": command not found" +:+ nl) 127) s.
Proof.
  intros Hname Hredir Hfun Hcmd.
  rewrite (executeCommand_plain rec c stdin s Hname), (readStdin_none _ _ _ Hredir).
  cbv zeta. now rewrite Hfun, Hcmd.
Qed.

Lemma readStdin_fails (l : list Redirection) (stdin : string) (s : ShellState FS)
    (redir : Redirection) (t e : string) :
  redir ∈ l -> rtype redir = RStdin -> truthy (target redir) = Some t ->
  readFile (fs s) (resolvePath (fs s) (cwd s) t) = Err e ->
  exists t', readStdin l stdin s
             = Err ("bash: " +:+ t' +:+ ": No such file or directory" +:+ nl).
Proof.
  intros Hin Htype Htarget Hread. revert stdin.
  induction l as [|first l IH]; intros stdin; [now apply elem_of_nil in Hin |].
  cbn [readStdin].
  apply elem_of_cons in Hin as [<- | Hin].
  { rewrite Htype, Htarget, Hread. eauto. }
  destruct (rtype first); try now apply IH.
  destruct (truthy (target first)) as [t1 |]; [| now apply IH].
  destruct (readFile (fs s) (resolvePath (fs s) (cwd s) t1));
    [now apply IH | eauto].
Qed.

(** X17.  A command with an input redirection from a file that cannot be
    read is not run: the exit code is 1, the message reports a file as
    missing, and the state is untouched.  This holds for builtins and
    functions as well. *)
Theorem unreadable_input_stops_the_command
    (rec : string -> ShellState FS -> outcome (ShellState FS) ExecResult)
    (c : ParsedCommand) (stdin : string) (s : ShellState FS)
    (redir : Redirection) (t e : string) :
  String.eqb (command c) "" = false ->
  redir ∈ redirections c -> rtype redir = RStdin ->
  truthy (target redir) = Some t ->
  readFile (fs s) (resolvePath (fs s) (cwd s) t) = Err e ->
  exists t',
    executeCommand rec c stdin s
    = Ret (mkResult "" ("bash: " +:+ t' +:+ ": No such file or directory" +:+ nl) 1) s.
Proof.
  intros Hne Hin Htype Htarget Hread.
  destruct (readStdin_fails _ stdin s redir t e Hin Htype Htarget Hread) as [t' Ht'].
  exists t'. unfold executeCommand. now rewrite Hne, Ht'.
Qed.

Lemma handleCd_fs (l : list string) (s s' : ShellState FS) (r : ExecResult) :
  handleCd l s = Ret r s' -> fs s' = fs s.
Proof.
  unfold handleCd. destruct (stat _ _) as [st | e];
    [destruct (negb (isDirectory st)) |]; now intros [= _ <-].
Qed.

Lemma handleLocal_fs (l : list string) (s s' : ShellState FS) (r : ExecResult) :
  handleLocal l s = Ret r s' -> fs s' = fs s.
Proof.
  unfold handleLocal. destruct (localScopes s) as [|scope below];
    [now intros [= _ <-] |].
  destruct (fold_left _ l _) as [scope' e']. now intros [= _ <-].
Qed.

(** X18.  The builtins [cd], [export], [unset], [exit] and [local] take no
    notice of output redirections: the command does what it does without
    them, and it never changes the file system. *)
Theorem builtins_ignore_output_redirections
    (rec : string -> ShellState FS -> outcome (ShellState FS) ExecResult)
    (b : string) (l : list string) (quoted : list bool)
    (redirs : list Redirection) (stdin : string) (s : ShellState FS) :
  isBuiltinName b = true ->
  noStdinRedirection redirs = true ->
  executeCommand rec (mkParsed b l quoted redirs) stdin s
  = executeCommand rec (mkParsed b l quoted []) stdin s
  /\ (forall r s', executeCommand rec (mkParsed b l quoted redirs) stdin s = Ret r s' ->
        fs s' = fs s).
Proof.
  unfold isBuiltinName. intros Hb Hredir.
  assert (Hcases : b = "cd" \/ b = "export" \/ b = "unset" \/ b = "exit" \/ b = "local").
  { repeat (apply orb_prop in Hb as [Hb | Hb]);
      apply String.eqb_eq in Hb; auto 6. }
  assert (Hrun : forall redirs, noStdinRedirection redirs = true ->
            executeCommand rec (mkParsed b l quoted redirs) stdin s
            = let expandedArgs :=
                expandArgs (getAllPaths (fs s)) (cwd s)
                           (expandUnquoted (env s) l quoted) quoted in
              if String.eqb b "cd" then handleCd expandedArgs s
              else if String.eqb b "export" then handleExport expandedArgs s
              else if String.eqb b "unset" then handleUnset expandedArgs s
              else if String.eqb b "exit" then Ret (exitBuiltin expandedArgs) s
              else handleLocal expandedArgs s).
  { intros redirs' Hredirs'. unfold executeCommand.
    cbn [command redirections args quotedArgs].
    rewrite (readStdin_none _ _ _ Hredirs').
    destruct Hcases as [-> | [-> | [-> | [-> | ->]]]];
      cbn [String.eqb Ascii.eqb Bool.eqb Js.startsWith andb orb];
      rewrite expandVariables_plain by reflexivity; reflexivity. }
  split.
  - now rewrite (Hrun redirs Hredir), (Hrun [] eq_refl).
  - intros r s'. rewrite (Hrun redirs Hredir). cbv zeta.
    destruct Hcases as [-> | [-> | [-> | [-> | ->]]]];
      cbn [String.eqb Ascii.eqb Bool.eqb].
    + apply handleCd_fs.
    + now intros [= _ <-].
    + now intros [= _ <-].
    + now intros [= _ <-].
    + apply handleLocal_fs.
Qed.

End CommandCases.

Lemma assignment_sets_the_variable_witness :
  executeCommand (H := Demo.host) (exec 1) (word "BIN=$HOME/bin" []) "" Demo.initial
  = Ret okResult (setEnv (<["BIN" := "//bin"]> (env Demo.initial)) Demo.initial)
  /\ executeCommand (H := Demo.host) (exec 1) (word "__proto__=x" []) "" Demo.initial
     = Ret okResult Demo.initial.
Proof.
  split.
  - refine (proj1 (assignment_sets_the_variable (H := Demo.host) (exec 1)
                     "BIN" "$HOME/bin" "" Demo.initial _)).
    reflexivity.
  - refine (proj1 (assignment_sets_the_variable (H := Demo.host) (exec 1)
                     "__proto__" "x" "" Demo.initial _)).
    reflexivity.
Defined.

Lemma unknown_command_is_not_found_witness :
  executeCommand (H := Demo.host) (exec 1)
    (mkParsed "nothing" [] [] [mkRedir RStdout (Some "/out") false]) ""
    (Demo.withFunction "nothing" "" Demo.initial)
  = Ret (mkResult "" ("bash: " +:+ "nothing" +:+ ": command not found" +:+ nl) 127)
        (Demo.withFunction "nothing" "" Demo.initial).
Proof.
  apply (unknown_command_is_not_found (H := Demo.host) (exec 1)
           (mkParsed "nothing" [] [] [mkRedir RStdout (Some "/out") false]) ""
           (Demo.withFunction "nothing" "" Demo.initial)); reflexivity.
Defined.

Lemma unreadable_input_stops_the_command_witness :
  exists t',
    executeCommand (H := Demo.host) (exec 1)
      (mkParsed "cd" ["/"] [false] [mkRedir RStdin (Some "/missing") false]) ""
      Demo.initial
    = Ret (mkResult "" ("bash: " +:+ t' +:+ ": No such file or directory" +:+ nl) 1)
          Demo.initial.
Proof.
  apply (unreadable_input_stops_the_command (H := Demo.host) (exec 1)
           (mkParsed "cd" ["/"] [false] [mkRedir RStdin (Some "/missing") false]) ""
           Demo.initial (mkRedir RStdin (Some "/missing") false) "/missing"
           "ENOENT: no such file or directory, open '/missing'").
  - reflexivity.
  - constructor.
  - reflexivity.
  - reflexivity.
  - reflexivity.
Defined.

Lemma builtins_ignore_output_redirections_witness :
  executeCommand (H := Demo.host) (exec 1)
    (mkParsed "export" ["A=1"] [false] [mkRedir RStdout (Some "/out") false]) ""
    Demo.initial
  = executeCommand (H := Demo.host) (exec 1)
      (mkParsed "export" ["A=1"] [false] []) "" Demo.initial
  /\ (forall r s',
        executeCommand (H := Demo.host) (exec 1)
          (mkParsed "export" ["A=1"] [false] [mkRedir RStdout (Some "/out") false]) ""
          Demo.initial = Ret r s' ->
        fs s' = fs Demo.initial).
Proof.
  apply (builtins_ignore_output_redirections (H := Demo.host) (exec 1) "export"
           ["A=1"] [false] [mkRedir RStdout (Some "/out") false] "" Demo.initial);
    reflexivity.
Defined.

(** ** Redirections *)

Section RedirectionFacts.
Context `{Host}.

Lemma setFs_setFs (x y : FS) (s : ShellState FS) : setFs x (setFs y s) = setFs x s.
Proof. reflexivity. Qed.

Lemma setFs_same (s : ShellState FS) : setFs (fs s) s = s.
Proof. now destruct s. Qed.

(** X19.  Redirections never change the exit code of a command, and of
    the shell state they change the file system only. *)
Theorem redirections_keep_the_exit_code (l : list Redirection)
    (result r : ExecResult) (s s' : ShellState FS) :
  applyRedirections result l s = Ret r s' ->
  exitCode r = exitCode result /\ s' = setFs (fs s') s.
Proof.
  revert result s. induction l as [|redir l IH]; intros result s; cbn [applyRedirections].
  - intros [= <- <-]. split; [reflexivity | now rewrite setFs_same].
  - assert (Hstep : forall result' (s0 : ShellState FS),
              exitCode result' = exitCode result -> setFs (fs s0) s = s0 ->
              applyRedirections result' l s0 = Ret r s' ->
              exitCode r = exitCode result /\ s' = setFs (fs s') s).
    { intros result' s0 Hcode Hs0 Hrun. apply IH in Hrun as [Hr Hs].
      split; [congruence |]. rewrite Hs at 1. now rewrite <- Hs0. }
    destruct (rtype redir).
    + destruct (truthy (target redir)) as [t |];
        [| apply Hstep; [reflexivity | apply setFs_same]].
      destruct (writeOrAppend _ _ _ _) as [fs' | e]; [| discriminate].
      now apply Hstep.
    + destruct (truthy (target redir)) as [t |];
        [| apply Hstep; [reflexivity | apply setFs_same]].
      destruct (String.eqb t "/dev/null");
        [apply Hstep; [reflexivity | apply setFs_same] |].
      destruct (writeOrAppend _ _ _ _) as [fs' | e]; [| discriminate].
      now apply Hstep.
    + apply Hstep; [reflexivity | apply setFs_same].
    + apply Hstep; [reflexivity | apply setFs_same].
Qed.

End RedirectionFacts.

Lemma redirections_keep_the_exit_code_witness :
  exitCode (mkResult "" "" 3) = exitCode (mkResult "out" "err" 3)
  /\ setFs (VirtualFs.writeFileSync "/f" "out" VirtualFs.empty) Demo.initial
     = setFs (fs (setFs (VirtualFs.writeFileSync "/f" "out" VirtualFs.empty) Demo.initial))
             Demo.initial.
Proof.
  apply (redirections_keep_the_exit_code (H := Demo.host)
           [mkRedir RStdout (Some "f") false; mkRedir RStderr (Some "/dev/null") false]
           (mkResult "out" "err" 3)).
  vm_compute. reflexivity.
Defined.

(** ** The echo command *)

Section EchoFacts.

Lemma parseFlags_word (l : list string) (noNewline interpretEscapes : bool) :
  startsWithWord l = true ->
  Echo.parseFlags l noNewline interpretEscapes = (noNewline, interpretEscapes, l).
Proof.
  destruct l as [|arg l]; [reflexivity |]. cbn [startsWithWord].
  unfold isEchoFlag. intros Hw. apply negb_true_iff in Hw.
  apply orb_false_elim in Hw as [Hw H5]. apply orb_false_elim in Hw as [Hw H4].
  apply orb_false_elim in Hw as [Hw H3]. apply orb_false_elim in Hw as [H1 H2].
  cbn [Echo.parseFlags]. now rewrite H1, H2, H3, H4, H5.
Qed.

(** X20.  [echo] prints its words joined by single spaces and a newline,
    with exit code 0 and nothing on the error stream, once the first word
    is not a flag: a flag that comes after a word is printed like any
    word.  With [-n] in front the newline is left out. *)
Theorem echo_prints_its_words (l : list string) :
  startsWithWord l = true ->
  Echo.run l = mkResult (Js.join " " l +:+ nl) "" 0
  /\ Echo.run ("-n" :: l) = mkResult (Js.join " " l) "" 0.
Proof.
  intros Hw. unfold Echo.run. cbn [Echo.parseFlags String.eqb Ascii.eqb Bool.eqb].
  now rewrite !(parseFlags_word l _ _ Hw).
Qed.

Lemma replaceAll_absent (pat rep s : string) (c : ascii) :
  Js.includes c s = false -> Js.startsWith (String c "") pat = true ->
  Js.replaceAll pat rep s = s.
Proof.
  intros Hs Hpat. unfold Js.replaceAll.
  destruct pat as [|p0 rest]; [discriminate |].
  cbn [Js.startsWith] in Hpat. apply andb_prop in Hpat as [Hc _].
  apply Ascii.eqb_eq in Hc. subst p0.
  induction s as [|d t IH]; [reflexivity |].
  simpl in Hs. apply orb_false_elim in Hs as [Hd Ht].
  cbn [Js.replaceFrom Js.startsWith]. rewrite Ascii.eqb_sym, Hd. cbn [andb].
  now rewrite (IH Ht).
Qed.

Lemma interpret_plain (s : string) : noEscape s = true -> Echo.interpret s = s.
Proof.
  unfold noEscape. intros Hs. apply andb_prop in Hs as [Hb Hz].
  apply negb_true_iff in Hb, Hz. unfold Echo.interpret.
  do 8 rewrite (replaceAll_absent _ _ s "\" Hb) by reflexivity.
  now rewrite (replaceAll_absent _ _ s "000" Hz) by reflexivity.
Qed.

Lemma includes_join (c : ascii) (l : list string) :
  Ascii.eqb " " c = false -> Forall (fun a => Js.includes c a = false) l ->
  Js.includes c (Js.join " " l) = false.
Proof.
  intros Hc Hl. induction l as [|a l IH]; [reflexivity |].
  inversion Hl as [|? ? Ha Hl']; subst. destruct l as [|b l]; [exact Ha |].
  change (Js.join " " (a :: b :: l)) with (a +:+ " " +:+ Js.join " " (b :: l)).
  rewrite !includes_append, Ha, (IH Hl').
  change (Js.includes c " ") with (Ascii.eqb " " c || false).
  now rewrite Hc.
Qed.

Lemma join_noEscape (l : list string) :
  Forall (fun a => noEscape a = true) l -> noEscape (Js.join " " l) = true.
Proof.
  intros Hl. unfold noEscape.
  rewrite !includes_join; [reflexivity | reflexivity | | reflexivity |].
  - eapply Forall_impl; [exact Hl |]. intros a Ha. unfold noEscape in Ha.
    apply andb_prop in Ha as [_ Hz]. now apply negb_true_iff in Hz.
  - eapply Forall_impl; [exact Hl |]. intros a Ha. unfold noEscape in Ha.
    apply andb_prop in Ha as [Hb _]. now apply negb_true_iff in Hb.
Qed.

(** The flag loop reads the same flags, whatever the escape flag is when
    it starts, and leaves a suffix of the words. *)
Lemma parseFlags_escape (P : string -> Prop) (l : list string)
    (noNewline e1 e2 : bool) :
  Forall P l ->
  fst (fst (Echo.parseFlags l noNewline e1)) = fst (fst (Echo.parseFlags l noNewline e2))
  /\ snd (Echo.parseFlags l noNewline e1) = snd (Echo.parseFlags l noNewline e2)
  /\ Forall P (snd (Echo.parseFlags l noNewline e1)).
Proof.
  intros Hl. revert noNewline e1 e2.
  induction l as [|arg l IH]; intros noNewline e1 e2; [now repeat split |].
  inversion Hl as [|? ? Harg Hl']; subst. cbn [Echo.parseFlags].
  destruct (String.eqb arg "-n"); [now apply IH |].
  destruct (String.eqb arg "-e"); [now apply IH |].
  destruct (String.eqb arg "-E"); [now apply IH |].
  destruct (String.eqb arg "-ne" || String.eqb arg "-en"); [now apply IH |].
  now repeat split.
Qed.

(** X21.  When no word holds a backslash or a NUL character, the escape
    interpretation changes nothing: [echo -e] prints what [echo] prints. *)
Theorem echo_escapes_need_a_backslash (l : list string) :
  Forall (fun a => noEscape a = true) l ->
  Echo.run ("-e" :: l) = Echo.run l.
Proof.
  intros Hl. unfold Echo.run. cbn [Echo.parseFlags String.eqb Ascii.eqb Bool.eqb].
  destruct (parseFlags_escape _ l false true false Hl) as (Hn & Hrest & Hall).
  destruct (Echo.parseFlags l false true) as [[n1 i1] rest1].
  destruct (Echo.parseFlags l false false) as [[n2 i2] rest2].
  cbn [fst snd] in *. subst n2 rest2.
  rewrite (interpret_plain _ (join_noEscape _ Hall)).
  now destruct i1, i2.
Qed.

End EchoFacts.

Lemma echo_prints_its_words_witness :
  Echo.run ["a"; "-n"; "b"] = mkResult (Js.join " " ["a"; "-n"; "b"] +:+ nl) "" 0
  /\ Echo.run ["-n"; "a"; "-n"; "b"] = mkResult (Js.join " " ["a"; "-n"; "b"]) "" 0.
Proof. apply (echo_prints_its_words ["a"; "-n"; "b"]). reflexivity. Defined.

Lemma echo_escapes_need_a_backslash_witness :
  Echo.run ["-e"; "a b"; "-n"] = Echo.run ["a b"; "-n"].
Proof.
  apply (echo_escapes_need_a_backslash ["a b"; "-n"]).
  repeat constructor.
Defined.

(** ** The engine on the in-memory file system *)

Section InMemoryShell.

Lemma truthy_nonempty (t : string) :
  String.eqb t "" = false -> truthy (Some t) = Some t.
Proof. destruct t; [discriminate | reflexivity]. Qed.

(** X22.  Redirections are applied in the order in which they are
    written, each to the streams the earlier ones have left.  With the
    merge of the error stream written first, the file receives both
    streams and nothing is left to print; with the file written first, it
    receives standard output only and the error stream is printed as
    standard output. *)
Theorem redirections_apply_in_order (result : ExecResult) (t : string)
    (s : ShellState VirtualFs.t) :
  String.eqb t "" = false ->
  let toFile := mkRedir RStdout (Some t) false in
  let merge := mkRedir RStderrToStdout None false in
  let path := VirtualFs.resolvePath (cwd s) t in
  (exists s1,
     applyRedirections (H := Demo.host) result [merge; toFile] s
     = Ret (mkResult "" "" (exitCode result)) s1
     /\ VirtualFs.readFile (fs s1) path = Ok (stdout result +:+ stderr result))
  /\ (exists s2,
     applyRedirections (H := Demo.host) result [toFile; merge] s
     = Ret (mkResult (stderr result) "" (exitCode result)) s2
     /\ VirtualFs.readFile (fs s2) path = Ok (stdout result)).
Proof.
  intros Ht toFile merge path. pose proof (truthy_nonempty t Ht) as Htruthy.
  split.
  - eexists. split.
    + cbn [applyRedirections rtype target append merge toFile]. rewrite Htruthy.
      unfold writeOrAppend. cbn [append stdout stderr exitCode]. reflexivity.
    + cbn [fs setFs]. now apply readFile_writeFileSync.
  - eexists. split.
    + cbn [applyRedirections rtype target append merge toFile]. rewrite Htruthy.
      unfold writeOrAppend. cbn [append stdout stderr exitCode]. reflexivity.
    + cbn [fs setFs]. now apply readFile_writeFileSync.
Qed.

(** X23.  [echo word > file] on the in-memory file system: the command
    prints nothing, succeeds, and the file then holds the word followed by
    a newline; the environment and the working directory are unchanged. *)
Theorem echo_to_file_is_read_back
    (rec : string -> ShellState (FS (Host := Demo.host))
           -> outcome (ShellState (FS (Host := Demo.host))) ExecResult)
    (w t stdin : string) (s : ShellState (FS (Host := Demo.host))) :
  isEchoFlag w = false -> String.eqb t "" = false ->
  truthy (functions s !! "echo") = None ->
  exists s',
    executeCommand (H := Demo.host) rec
      (mkParsed "echo" [w] [true] [mkRedir RStdout (Some t) false]) stdin s
    = Ret okResult s'
    /\ VirtualFs.readFile (fs s') (VirtualFs.resolvePath (cwd s) t) = Ok (w +:+ nl)
    /\ env s' = env s /\ cwd s' = cwd s.
Proof.
  intros Hw Ht Hfun. pose proof (truthy_nonempty t Ht) as Htruthy.
  rewrite (executeCommand_plain (H := Demo.host)) by reflexivity.
  rewrite (readStdin_none (H := Demo.host)) by reflexivity.
  cbv zeta. cbn [command args quotedArgs redirections].
  assert (Hreg : @commands Demo.host !! commandNameOf "echo"
                 = Some (Echo.echoCommand (FS := FS (Host := Demo.host))))
    by reflexivity.
  rewrite Hfun, Hreg. unfold dispatch.
  cbn [expandUnquoted expandArgs hd tl orb app Echo.echoCommand execute
       runCommand bind redirections].
  unfold Echo.run. rewrite (parseFlags_word [w] false false)
    by (cbn [startsWithWord]; now rewrite Hw).
  cbn [Js.join applyRedirections rtype target]. rewrite Htruthy.
  unfold writeOrAppend. cbn [append stdout stderr exitCode].
  eexists. split; [reflexivity |].
  split; [| split; reflexivity].
  cbn [fs setFs]. now apply readFile_writeFileSync.
Qed.

End InMemoryShell.

Lemma redirections_apply_in_order_witness :
  (exists s1,
     applyRedirections (H := Demo.host) (mkResult "out" "err" 0)
       [mkRedir RStderrToStdout None false; mkRedir RStdout (Some "log") false]
       Demo.initial
     = Ret (mkResult "" "" 0) s1
     /\ VirtualFs.readFile (fs s1) "/log" = Ok "outerr")
  /\ (exists s2,
     applyRedirections (H := Demo.host) (mkResult "out" "err" 0)
       [mkRedir RStdout (Some "log") false; mkRedir RStderrToStdout None false]
       Demo.initial
     = Ret (mkResult "err" "" 0) s2
     /\ VirtualFs.readFile (fs s2) "/log" = Ok "out").
Proof.
  apply (redirections_apply_in_order (mkResult "out" "err" 0) "log" Demo.initial).
  reflexivity.
Defined.

Lemma echo_to_file_is_read_back_witness :
  exists s',
    executeCommand (H := Demo.host) (exec 1)
      (mkParsed "echo" ["hello"] [true] [mkRedir RStdout (Some "greeting") false])
      "" Demo.initial
    = Ret okResult s'
    /\ VirtualFs.readFile (fs s') (VirtualFs.resolvePath (cwd Demo.initial) "greeting")
       = Ok ("hello" +:+ nl)
    /\ env s' = env Demo.initial /\ cwd s' = cwd Demo.initial.
Proof.
  apply (echo_to_file_is_read_back (exec 1) "hello" "greeting" "" Demo.initial);
    reflexivity.
Defined.

(** ** Function calls and definitions *)

Section FunctionFacts.
Context `{Host}.

Lemma expandUnquoted_length (e : Env) (l : list string) (quoted : list bool) :
  length (expandUnquoted e l quoted) = length l.
Proof.
  revert quoted. induction l as [|a l IH]; intros quoted; [reflexivity |].
  cbn [expandUnquoted length]. now rewrite IH.
Qed.

Lemma expandArgs_length (paths : list string) (dir : string) (l : list string)
    (quoted : list bool) :
  (length l <= length (expandArgs paths dir l quoted))%nat.
Proof.
  revert quoted. induction l as [|a l IH]; intros quoted; [reflexivity |].
  cbn [expandArgs]. rewrite length_app. cbn [length].
  specialize (IH (tl quoted)).
  destruct (hd false quoted || negb (hasGlobChar a)); [cbn [length]; lia |].
  destruct (globMatch paths dir a); cbn [length]; lia.
Qed.

(** X24.  When a function call made below the call-depth limit returns,
    the positional parameters are unset, not restored: [$@], [$#] and, if the call had arguments, [$1]
    are no longer set, whatever they were before the call.  A function
    that calls another one with arguments loses its own. *)
Theorem function_call_unsets_parameters (fuel : nat) (f : string)
    (l : list string) (quoted : list bool) (stdin funcBody : string)
    (s s' : ShellState FS) (r : ExecResult) :
  plainCommandName f = true ->
  functions s !! f = Some funcBody -> String.eqb funcBody "" = false ->
  (callDepth s < maxCallDepth)%nat ->
  executeCommand (exec fuel) (mkParsed f l quoted []) stdin s = Ret r s' ->
  env s' !! "@" = None /\ env s' !! "#" = None
  /\ (l <> [] -> env s' !! "1" = None).
Proof.
  intros Hname Hfun Hbody Hdepth.
  rewrite (executeCommand_function (exec fuel) (mkParsed f l quoted []) stdin funcBody s
             Hname Hfun) by (intros ->; discriminate).
  cbn [redirections readStdin command args quotedArgs]. intros Hcall.
  destruct (callFunction_unsets _ _ _ _ _ _ _ Hdepth Hcall) as (Hat & Hcount & Hpos).
  split; [exact Hat |]. split; [exact Hcount |].
  intros Hl. apply (Hpos 1%nat).
  pose proof (expandArgs_length (getAllPaths (fs s)) (cwd s)
                (expandUnquoted (env s) l quoted) quoted) as Hlen.
  rewrite expandUnquoted_length in Hlen. destruct l; [congruence |].
  cbn [length] in Hlen. lia.
Qed.

Lemma trimEnd_snoc (a : string) (c : ascii) :
  Js.isSpace c = false -> Js.trimEnd (a +:+ String c "") = a +:+ String c "".
Proof.
  intros Hc. induction a as [|x a IH].
  - rewrite app_nil. cbn [Js.trimEnd]. now rewrite Hc.
  - rewrite app_cons. cbn [Js.trimEnd]. rewrite IH.
    destruct (a +:+ String c "") eqn:Ha; [| reflexivity].
    destruct a; discriminate.
Qed.

Lemma unsnoc_snoc (a : string) (c : ascii) :
  unsnoc (a +:+ String c "") = Some (a, c).
Proof.
  induction a as [|x a IH]; [reflexivity |].
  rewrite app_cons. cbn [unsnoc]. now rewrite IH.
Qed.

Lemma dropWhile_stop (p : ascii -> bool) (c : ascii) (t : string) :
  p c = false -> Js.dropWhile p (String c t) = String c t.
Proof. intros Hc. cbn [Js.dropWhile]. now rewrite Hc. Qed.

Lemma leadingIdentifier_name (n : string) (d : ascii) (x : string) :
  isIdentifier n = true -> Js.isNameChar d = false ->
  leadingIdentifier (n +:+ String d x) = Some (n, String d x).
Proof.
  intros Hn Hd. destruct n as [|c t]; [discriminate |].
  simpl in Hn. apply andb_prop in Hn as [Hc Ht].
  rewrite app_cons. unfold leadingIdentifier. rewrite Hc.
  rewrite takeWhile_append by (assumption || exact Hd).
  f_equal. f_equal. change (String c (t +:+ String d x)) with (String c t +:+ String d x).
  apply drop_append.
Qed.

(** A prefix made of name characters lies within the name. *)
Lemma startsWith_within (p n : string) (d : ascii) (x : string) :
  Js.all Js.isNameChar p = true -> Js.isNameChar d = false ->
  Js.startsWith p (n +:+ String d x) = true ->
  exists m, n = p +:+ m.
Proof.
  revert n. induction p as [|a p IH]; intros n Hp Hd Hs; [now exists n |].
  simpl in Hp. apply andb_prop in Hp as [Ha Hp].
  destruct n as [|b n].
  - rewrite app_nil in Hs. cbn [Js.startsWith] in Hs.
    apply andb_prop in Hs as [Hab _]. apply Ascii.eqb_eq in Hab. congruence.
  - rewrite app_cons in Hs. cbn [Js.startsWith] in Hs.
    apply andb_prop in Hs as [Hab Hs]. apply Ascii.eqb_eq in Hab. subst b.
    destruct (IH n Hp Hd Hs) as [m ->]. now exists m.
Qed.

Lemma funcKeywordMatch_paren (n x : string) :
  isIdentifier n = true -> funcKeywordMatch (n +:+ String "(" x) = None.
Proof.
  intros Hn. pose proof (identifier_chars _ Hn) as Hall.
  unfold funcKeywordMatch.
  destruct (Js.startsWith "function" (n +:+ String "(" x)) eqn:Hs; [| reflexivity].
  destruct (startsWith_within "function" n "(" x eq_refl eq_refl Hs) as [m ->].
  rewrite append_assoc.
  change 8%nat with (String.length "function"). rewrite drop_append.
  rewrite all_append in Hall. apply andb_prop in Hall as [_ Hm].
  destruct m as [|c m].
  - rewrite app_nil. reflexivity.
  - rewrite app_cons. simpl in Hm. apply andb_prop in Hm as [Hc _].
    destruct (nameChar_plain c Hc) as (_ & _ & Hspace & _). now rewrite Hspace.
Qed.

Lemma parenMatch_definition (n b : string) :
  isIdentifier n = true ->
  parenMatch (n +:+ "() {" +:+ b +:+ "}") = Some (n, Js.trim b).
Proof.
  intros Hn. unfold parenMatch.
  change (n +:+ "() {" +:+ b +:+ "}") with (n +:+ String "(" (") {" +:+ b +:+ "}")).
  rewrite (leadingIdentifier_name n "(" _ Hn eq_refl).
  rewrite dropWhile_stop by reflexivity.
  change (") {" +:+ b +:+ "}") with (String ")" (String " " (String "{" (b +:+ "}")))).
  rewrite dropWhile_stop by reflexivity.
  cbn [Ascii.eqb Bool.eqb andb].
  change (Js.dropWhile Js.isSpace (String " " (String "{" (b +:+ "}"))))
    with (String "{" (b +:+ "}")).
  unfold bracedBody. rewrite trimEnd_snoc by reflexivity.
  now rewrite unsnoc_snoc.
Qed.

Lemma definition_line (n b : string) :
  isIdentifier n = true ->
  let line := n +:+ "() {" +:+ b +:+ "}" in
  Js.trim line = line
  /\ String.eqb line "" = false
  /\ Js.startsWith "if " line || Js.startsWith "if;" line || String.eqb line "if" = false
  /\ Js.startsWith "for " line = false
  /\ Js.startsWith "while " line = false
  /\ Js.startsWith "until " line = false.
Proof.
  intros Hn line. pose proof (identifier_chars _ Hn) as Hall.
  assert (Hline : line = n +:+ String "(" (") {" +:+ b +:+ "}")) by reflexivity.
  assert (Hprefix : forall p,
            match Js.dropWhile Js.isNameChar p with
            | String c _ => c <> "("%char
            | EmptyString => False
            end -> Js.startsWith p line = false).
  { intros p Hp. destruct (Js.startsWith p line) eqn:Hs; [| reflexivity].
    rewrite Hline in Hs. apply startsWith_name in Hs; [| exact Hall | reflexivity].
    destruct (Js.dropWhile Js.isNameChar p); [destruct Hp | congruence]. }
  repeat split.
  - unfold Js.trim, Js.trimStart.
    destruct n as [|c t]; [discriminate |].
    simpl in Hall. apply andb_prop in Hall as [Hc _].
    destruct (nameChar_plain c Hc) as (_ & _ & Hspace & _).
    unfold line. rewrite app_cons, dropWhile_stop by exact Hspace.
    rewrite <- app_cons.
    replace (String c t +:+ "() {" +:+ b +:+ "}")
      with ((String c t +:+ "() {" +:+ b) +:+ "}")
      by (now rewrite !append_assoc).
    now apply trimEnd_snoc.
  - unfold line. destruct n; [discriminate | reflexivity].
  - rewrite !Hprefix by (simpl; discriminate). cbn [orb].
    apply (includes_eqb "("); [| reflexivity].
    rewrite Hline, includes_append. simpl. now rewrite orb_true_r.
  - apply Hprefix. simpl. discriminate.
  - apply Hprefix. simpl. discriminate.
  - apply Hprefix. simpl. discriminate.
Qed.

(** X25.  A line [name() { body }] with an identifier for name and an
    ASCII text for body defines a function: [exec] stores the body,
    trimmed, under the name, replacing what was stored there, runs nothing
    and returns exit code 0. *)
Theorem function_definition_is_stored (fuel : nat) (n b : string)
    (s : ShellState FS) :
  isIdentifier n = true -> Js.all Js.isAscii b = true ->
  (commandCount (countCommand s) <= maxCommandCount)%nat ->
  exec (S fuel) (n +:+ "() {" +:+ b +:+ "}") s
  = Ret okResult
        (setFunctions (<[n := Js.trim b]> (functions s)) (countCommand s)).
Proof.
  intros Hn _ Hcount.
  destruct (definition_line n b Hn) as (Htrim & Hne & Hif & Hfor & Hwhile & Huntil).
  cbn [exec]. unfold execBody.
  assert (Hlimit : (maxCommandCount <? commandCount (countCommand s))%nat = false)
    by (apply Nat.ltb_ge; exact Hcount).
  rewrite Hlimit. unfold runLine. cbv zeta.
  rewrite Htrim, Hne, Hif, Hfor, Hwhile, Huntil.
  unfold parseFunctionDefinition.
  change (n +:+ "() {" +:+ b +:+ "}") with (n +:+ String "(" (") {" +:+ b +:+ "}")) at 1.
  rewrite (funcKeywordMatch_paren n _ Hn), (parenMatch_definition n b Hn).
  f_equal. unfold countCommand. now destruct (callDepth s =? 0)%nat.
Qed.

End FunctionFacts.

(** ** Loops *)

Section LoopFacts.
Context `{Host}.
Variable rec : string -> ShellState FS -> outcome (ShellState FS) ExecResult.

Lemma forItems_runBodies (varName body : string) (items : list string) :
  forall (iterations : nat) (acc : ExecResult) (s : ShellState FS),
  (iterations <= maxLoopIterations)%nat ->
  forItems rec varName body items iterations acc s
  = if (iterations + length items <=? maxLoopIterations)%nat
    then await (r, s') <- runBodies rec varName body items acc s in
         Ret r (setEnv (delete varName (env s')) s')
    else await (r, s') <-
           runBodies rec varName body
                     (take (maxLoopIterations - iterations) items) acc s in
         Ret (mkResult (stdout r) (stderr r +:+ loopLimitMessage "for") 1) s'.
Proof.
  induction items as [|item items IH]; intros iterations acc s Hle.
  - cbn [forItems length runBodies bind]. rewrite Nat.add_0_r.
    apply Nat.leb_le in Hle. now rewrite Hle.
  - cbn [forItems length].
    destruct (maxLoopIterations <=? iterations)%nat eqn:Hlimit.
    + apply Nat.leb_le in Hlimit.
      replace (iterations + S (length items) <=? maxLoopIterations)%nat with false
        by (symmetry; apply Nat.leb_gt; lia).
      replace (maxLoopIterations - iterations)%nat with 0%nat by lia.
      reflexivity.
    + apply Nat.leb_gt in Hlimit.
      replace (maxLoopIterations - iterations)%nat
        with (S (maxLoopIterations - S iterations)) by lia.
      replace (iterations + S (length items))%nat
        with (S iterations + length items)%nat by lia.
      cbn [take runBodies].
      destruct (rec body _) as [result s1 | e s1 |];
        [| now destruct (_ <=? _)%nat | now destruct (_ <=? _)%nat].
      cbn [bind]. rewrite IH by lia.
      now destruct (S iterations + length items <=? maxLoopIterations)%nat.
Qed.

(** X26.  The [for] loop and its iteration limit.  A loop over a list
    within the limit runs its body once for each item, in order, the
    variable assigned the item, and then deletes the variable, also when
    it was set before the loop and when the list is empty.  A loop over a
    longer list runs its body for the first [maxLoopIterations] items
    only and then returns exit code 1, the message about too many
    iterations added to the error output of those runs; the variable is
    not deleted then.  In both cases a run of the body that does not
    return ends the loop the same way. *)
Theorem for_loop_and_its_limit (varName body : string) (items : list string)
    (s : ShellState FS) :
  forItems rec varName body items 0 okResult s
  = if (length items <=? maxLoopIterations)%nat
    then await (r, s') <- runBodies rec varName body items okResult s in
         Ret r (setEnv (delete varName (env s')) s')
    else await (r, s') <-
           runBodies rec varName body (take maxLoopIterations items) okResult s in
         Ret (mkResult (stdout r) (stderr r +:+ loopLimitMessage "for") 1) s'.
Proof.
  rewrite forItems_runBodies by lia. now rewrite Nat.sub_0_r.
Qed.

Lemma condLoop_stops (kind : string) (stopOn : Z -> bool) (cond body : string)
    (inv : ShellState FS -> Prop) :
  (forall s0, inv s0 ->
     exists condResult s1 result s2,
       rec cond s0 = Ret condResult s1 /\ stopOn (exitCode condResult) = false
       /\ rec body s1 = Ret result s2 /\ inv s2) ->
  forall (left : nat) (acc : ExecResult) (s : ShellState FS),
  inv s ->
  exists r s', condLoop rec kind stopOn cond body left acc s = Ret r s'
               /\ exitCode r = 1
               /\ (exists output, stderr r = output +:+ loopLimitMessage kind)
               /\ inv s'.
Proof.
  intros Hround. induction left as [|left IH]; intros acc s Hs; cbn [condLoop].
  - eexists. eexists. split; [reflexivity |]. split; [reflexivity |].
    cbn [stderr]. eauto.
  - destruct (Hround s Hs) as (condResult & s1 & result & s2 & -> & Hgo & Hbody & Hs2).
    cbn [bind]. rewrite Hgo, Hbody. cbn [bind]. now apply IH.
Qed.

(** X27.  A [while] loop whose condition succeeds every time it is run,
    and an [until] loop whose condition fails every time it is run, stop
    at the iteration limit.  The states in which the loop runs its
    condition are described by an invariant [inv]: when, from every such
    state, the condition returns (with exit code 0 for [while], another
    one for [until]) and the body then returns in such a state again, the
    loop returns exit code 1, its error stream ends with the message about
    too many iterations, and the invariant holds of the state it
    leaves. *)
Theorem endless_loop_stops_at_the_limit (cond body : string)
    (inv : ShellState FS -> Prop) (s : ShellState FS) :
  inv s ->
  ((forall s0, inv s0 ->
      exists condResult s1 result s2,
        rec cond s0 = Ret condResult s1 /\ exitCode condResult = 0
        /\ rec body s1 = Ret result s2 /\ inv s2) ->
   exists r s',
     condLoop rec "while" (fun code => negb (code =? 0)) cond body
              maxLoopIterations okResult s = Ret r s'
     /\ exitCode r = 1
     /\ (exists output, stderr r = output +:+ loopLimitMessage "while")
     /\ inv s')
  /\ ((forall s0, inv s0 ->
         exists condResult s1 result s2,
           rec cond s0 = Ret condResult s1 /\ exitCode condResult <> 0
           /\ rec body s1 = Ret result s2 /\ inv s2) ->
     exists r s',
       condLoop rec "until" (fun code => code =? 0) cond body
                maxLoopIterations okResult s = Ret r s'
       /\ exitCode r = 1
       /\ (exists output, stderr r = output +:+ loopLimitMessage "until")
       /\ inv s').
Proof.
  intros Hs. split; intros Hround.
  - apply (condLoop_stops _ _ _ _ inv); [| exact Hs].
    intros s0 Hs0.
    destruct (Hround s0 Hs0) as (condResult & s1 & result & s2 & Hc & Hcode & Hb & Hs2).
    exists condResult, s1, result, s2. now rewrite Hcode.
  - apply (condLoop_stops _ _ _ _ inv); [| exact Hs].
    intros s0 Hs0.
    destruct (Hround s0 Hs0) as (condResult & s1 & result & s2 & Hc & Hcode & Hb & Hs2).
    exists condResult, s1, result, s2. repeat split; try assumption.
    now apply Z.eqb_neq.
Qed.

(** ** If statements *)

Lemma runBranches_first_success (l : list IfBranch) :
  forall (s s' : ShellState FS) (r : ExecResult),
  runBranches rec l s = Ret r s' ->
  (r = okResult /\ conditionsFail rec l s s')
  \/ (exists before branch after s0 s1,
        l = (before ++ branch :: after)%list
        /\ conditionsFail rec before s s0
        /\ conditionHolds rec branch s0 s1
        /\ rec (body branch) s1 = Ret r s').
Proof.
  induction l as [|branch l IH]; intros s s' r; cbn [runBranches].
  - intros [= <- <-]. left. split; reflexivity.
  - destruct (condition branch) as [cond |] eqn:Hcond.
    + destruct (rec cond s) as [condResult s1 | e s1 |] eqn:Hrun; cbn [bind];
        try discriminate.
      destruct (exitCode condResult =? 0) eqn:Hcode.
      * intros Hbody. right. exists [], branch, l, s, s1.
        split; [reflexivity |]. split; [reflexivity |]. split; [| exact Hbody].
        unfold conditionHolds. rewrite Hcond. exists condResult.
        split; [exact Hrun | now apply Z.eqb_eq].
      * assert (Hfails : forall s2, conditionsFail rec l s1 s2 ->
                                    conditionsFail rec (branch :: l) s s2).
        { intros s2 Hl. cbn [conditionsFail]. exists cond, condResult, s1.
          repeat split; try assumption. now apply Z.eqb_neq. }
        intros Hrest.
        apply IH in Hrest
          as [[-> Hall] | (before & b & after & s0 & s2 & -> & Hbefore & Hb & Hbody)].
        -- left. split; [reflexivity | now apply Hfails].
        -- right. exists (branch :: before), b, after, s0, s2.
           split; [reflexivity |]. split; [| now split].
           cbn [conditionsFail]. exists cond, condResult, s1.
           repeat split; try assumption. now apply Z.eqb_neq.
    + intros Hbody. right. exists [], branch, l, s, s.
      split; [reflexivity |]. split; [reflexivity |]. split; [| exact Hbody].
      unfold conditionHolds. now rewrite Hcond.
Qed.

(** X28.  What an [if] statement returns.  A statement that does not
    parse returns exit code 2 with the message of the scanner and runs
    nothing.  Otherwise the conditions are run in order, each from the
    state the one before it left, up to the first that returns exit code
    0 or to the branch without condition: the statement returns exactly
    what the body of that branch returns, run from the state that
    condition left, and the output of the conditions is dropped.  When
    every condition returns another exit code, the statement returns the
    empty success result in the state the last condition left. *)
Theorem if_statement_returns_one_body (input : string)
    (s s' : ShellState FS) (r : ExecResult) :
  executeIfStatement rec input s = Ret r s' ->
  match IfParser.parseIfStatement input with
  | Err e => r = mkResult "" e 2 /\ s' = s
  | Ok branches =>
      (r = okResult /\ conditionsFail rec branches s s')
      \/ (exists before branch after s0 s1,
            branches = (before ++ branch :: after)%list
            /\ conditionsFail rec before s s0
            /\ conditionHolds rec branch s0 s1
            /\ rec (body branch) s1 = Ret r s')
  end.
Proof.
  unfold executeIfStatement.
  destruct (IfParser.parseIfStatement input) as [branches | e].
  - apply runBranches_first_success.
  - now intros [= <- <-].
Qed.

End LoopFacts.

Lemma function_call_unsets_parameters_witness :
  exists r s',
    executeCommand (H := Demo.host) (exec 3) (mkParsed "h" ["a"] [false] []) ""
      (Demo.withVar "1" "outer" (Demo.withFunction "h" "local X=1" Demo.initial))
    = Ret r s'
    /\ env s' !! "@" = None /\ env s' !! "#" = None
    /\ (["a"] <> [] -> env s' !! "1" = None).
Proof.
  eexists _, _. split; [vm_compute; reflexivity |].
  refine (function_call_unsets_parameters (H := Demo.host) 3 "h" ["a"] [false] ""
            "local X=1"
            (Demo.withVar "1" "outer" (Demo.withFunction "h" "local X=1" Demo.initial))
            _ _ eq_refl eq_refl eq_refl _ _).
  - apply Nat.ltb_lt. vm_compute. reflexivity.
  - vm_compute. reflexivity.
Defined.

Lemma function_definition_is_stored_witness :
  exec (H := Demo.host) 1 "greet() { echo hi; }" Demo.initial
  = Ret okResult
        (setFunctions (<["greet" := "echo hi;"]> (functions Demo.initial))
                      (setCommandCount 1 Demo.initial)).
Proof.
  apply (function_definition_is_stored (H := Demo.host) 0 "greet" " echo hi; "
           Demo.initial); [reflexivity | reflexivity |].
  apply Nat.leb_le. vm_compute. reflexivity.
Defined.

(** Two lines of the table of [Demo], run on an instance that has no
    function and is not inside a call: the command count starts anew, so
    neither the state before nor the limit on commands bears on them. *)
Lemma capped_echo (s0 : ShellState (FS (Host := Demo.capped))) :
  functions s0 = ∅ -> callDepth s0 = 0%nat ->
  exec (H := Demo.capped) 2 "echo hi | cat | cat" s0
  = Ret (mkResult ("hi" +:+ nl) "" 0) (setCommandCount 1 s0).
Proof. destruct s0. cbn [functions callDepth]. intros -> ->. reflexivity. Qed.

Lemma capped_boom (s0 : ShellState (FS (Host := Demo.capped))) :
  functions s0 = ∅ -> callDepth s0 = 0%nat ->
  exec (H := Demo.capped) 2 "boom" s0
  = Ret (mkResult "" ("boom: kaput" +:+ nl) 1) (setCommandCount 1 s0).
Proof. destruct s0. cbn [functions callDepth]. intros -> ->. reflexivity. Qed.

Lemma for_loop_and_its_limit_witness :
  (exists s',
     forItems (H := Demo.capped) (exec 2) "x" "boom" ["a"; "b"; "c"] 0 okResult
              Demo.initial
     = Ret (mkResult ""
              ("boom: kaput" +:+ nl +:+ "boom: kaput" +:+ nl
                 +:+ "bash: for loop: too many iterations (2). "
                 +:+ "Increase with maxLoopIterations option." +:+ nl) 1) s'
     /\ env s' !! "x" = Some "b")
  /\ (exists r s',
        forItems (H := Demo.capped) (exec 2) "x" "boom" ["a"; "b"] 0 okResult
                 (Demo.withVar "x" "before" Demo.initial)
        = Ret r s'
        /\ env s' !! "x" = None).
Proof.
  split.
  - rewrite (for_loop_and_its_limit (H := Demo.capped)).
    eexists. split; vm_compute; reflexivity.
  - rewrite (for_loop_and_its_limit (H := Demo.capped)).
    eexists _, _. split; vm_compute; reflexivity.
Defined.

(** The same loop as a line of [exec]. *)
Example for_loop_over_the_limit :
  exists s',
    exec (H := Demo.capped) 3 "for x in a b c; do boom; done" Demo.initial
    = Ret (mkResult ""
             ("boom: kaput" +:+ nl +:+ "boom: kaput" +:+ nl
                +:+ "bash: for loop: too many iterations (2). "
                +:+ "Increase with maxLoopIterations option." +:+ nl) 1) s'
    /\ env s' !! "x" = Some "b".
Proof. eexists. split; vm_compute; reflexivity. Qed.

Lemma endless_loop_stops_at_the_limit_witness :
  (exists r s',
     condLoop (H := Demo.capped) (exec 2) "while" (fun code => negb (code =? 0))
              "echo hi | cat | cat" "boom"
              (maxLoopIterations (Host := Demo.capped)) okResult Demo.initial
     = Ret r s'
     /\ exitCode r = 1
     /\ (exists output,
           stderr r = output +:+ loopLimitMessage (H := Demo.capped) "while")
     /\ (functions s' = ∅ /\ callDepth s' = 0%nat))
  /\ (exists r s',
        condLoop (H := Demo.capped) (exec 2) "until" (fun code => code =? 0)
                 "boom" "echo hi | cat | cat"
                 (maxLoopIterations (Host := Demo.capped)) okResult Demo.initial
        = Ret r s'
        /\ exitCode r = 1
        /\ (exists output,
              stderr r = output +:+ loopLimitMessage (H := Demo.capped) "until")
        /\ (functions s' = ∅ /\ callDepth s' = 0%nat)).
Proof.
  split.
  - refine (proj1 (endless_loop_stops_at_the_limit (H := Demo.capped) (exec 2)
                     "echo hi | cat | cat" "boom"
                     (fun s0 => functions s0 = ∅ /\ callDepth s0 = 0%nat)
                     Demo.initial (conj eq_refl eq_refl)) _).
    intros s0 [Hf Hd]. eexists _, _, _, _.
    split; [apply (capped_echo s0 Hf Hd) |]. split; [reflexivity |].
    split; [apply capped_boom; [exact Hf | exact Hd] |]. split; [exact Hf | exact Hd].
  - refine (proj2 (endless_loop_stops_at_the_limit (H := Demo.capped) (exec 2)
                     "boom" "echo hi | cat | cat"
                     (fun s0 => functions s0 = ∅ /\ callDepth s0 = 0%nat)
                     Demo.initial (conj eq_refl eq_refl)) _).
    intros s0 [Hf Hd]. eexists _, _, _, _.
    split; [apply (capped_boom s0 Hf Hd) |]. split; [discriminate |].
    split; [apply capped_echo; [exact Hf | exact Hd] |]. split; [exact Hf | exact Hd].
Defined.

(** The same loops as lines of [exec]. *)
Example while_loop_over_the_limit :
  exec (H := Demo.capped) 3 "while echo hi | cat | cat; do boom; done" Demo.initial
  = Ret (mkResult ""
           ("boom: kaput" +:+ nl +:+ "boom: kaput" +:+ nl
              +:+ "bash: while loop: too many iterations (2). "
              +:+ "Increase with maxLoopIterations option." +:+ nl) 1)
        (setCommandCount 1 Demo.initial).
Proof. vm_compute. reflexivity. Qed.

Example until_loop_over_the_limit :
  exec (H := Demo.capped) 3 "until boom; do echo hi | cat | cat; done" Demo.initial
  = Ret (mkResult ("hi" +:+ nl +:+ "hi" +:+ nl)
           ("bash: until loop: too many iterations (2). "
              +:+ "Increase with maxLoopIterations option." +:+ nl) 1)
        (setCommandCount 1 Demo.initial).
Proof. vm_compute. reflexivity. Qed.

Lemma if_statement_returns_one_body_witness :
  match IfParser.parseIfStatement "if boom then echo hi | cat | cat else boom fi" with
  | Err e =>
      mkResult "" ("boom: kaput" +:+ nl) 1 = mkResult "" e 2
      /\ setCommandCount 1 Demo.initial = Demo.initial
  | Ok branches =>
      (mkResult "" ("boom: kaput" +:+ nl) 1 = okResult
       /\ conditionsFail (exec (H := Demo.host) 2) branches Demo.initial
            (setCommandCount 1 Demo.initial))
      \/ (exists before branch after s0 s1,
            branches = (before ++ branch :: after)%list
            /\ conditionsFail (exec (H := Demo.host) 2) before Demo.initial s0
            /\ conditionHolds (exec (H := Demo.host) 2) branch s0 s1
            /\ exec (H := Demo.host) 2 (body branch) s1
               = Ret (mkResult "" ("boom: kaput" +:+ nl) 1)
                     (setCommandCount 1 Demo.initial))
  end.
Proof.
  apply (if_statement_returns_one_body (H := Demo.host) (exec 2)
           "if boom then echo hi | cat | cat else boom fi" Demo.initial).
  vm_compute. reflexivity.
Defined.

(** The statement as a line of [exec]: the first condition fails, so the
    body of the [else] branch is what runs; with a condition that
    succeeds, the body of its branch is. *)
Example if_runs_the_else_branch :
  exec (H := Demo.host) 3 "if boom then echo hi | cat | cat else boom fi" Demo.initial
  = Ret (mkResult "" ("boom: kaput" +:+ nl) 1) (setCommandCount 1 Demo.initial)
  /\ exec (H := Demo.host) 3 "if echo hi | cat | cat then echo x >> / else boom fi"
          Demo.initial
     = Throw "EISDIR: illegal operation on a directory, write '/'"
             (setCommandCount 1 Demo.initial)
  /\ exec (H := Demo.host) 3 "if echo hi | cat | cat; then boom; fi" Demo.initial
     = Ret okResult (setCommandCount 1 Demo.initial).
Proof. repeat split; vm_compute; reflexivity. Qed.

(** ** The scanner of if statements *)

Section IfStatements.
Import IfParser.

Lemma truthy_not_empty (o : option string) : truthy o <> Some "".
Proof. destruct o as [[|c t] |]; discriminate. Qed.

Lemma markElse_snoc (init : list IfBranch) (final : IfBranch) :
  markElse (init ++ [final])
  = (init ++ [mkBranch (truthy (condition final)) (body final)])%list.
Proof.
  induction init as [|b init IH]; [reflexivity |].
  cbn [app markElse]. rewrite IH.
  destruct (init ++ [final])%list eqn:Hl; [now destruct init | reflexivity].
Qed.

(** The branches saved while the scan goes on have a condition; the
    branch that the closing [fi] saves is the only one that may have
    none. *)
Definition scanned (v : Scan) : Prop :=
  Forall (fun b => hasCondition b = true) (branches v)
  \/ (depth v = 0%nat
      /\ exists init final,
           branches v = (init ++ [final])%list
           /\ Forall (fun b => hasCondition b = true) init
           /\ condition final <> Some "").

Lemma scan_scanned (s : string) :
  forall (v : Scan) (skip : nat) (cls : Skip),
  Forall (fun b => hasCondition b = true) (branches v) ->
  scanned (scan v skip cls s).
Proof.
  induction s as [|c t IH]; intros v skip cls Hv; cbn [scan].
  { now left. }
  assert (Hsave : forall next,
            Forall (fun b => hasCondition b = true) (branches (saveBranch next v))).
  { intros next. unfold saveBranch. cbn [branches].
    destruct (negb _ || negb _); [| exact Hv].
    apply Forall_app. split; [exact Hv | now repeat constructor]. }
  assert (Hadd : forall text d,
            Forall (fun b => hasCondition b = true)
                   (branches (setDepth d (addText text v)))).
  { intros text d. unfold setDepth, addText. now destruct (state v). }
  assert (Hadd' : forall text,
            Forall (fun b => hasCondition b = true) (branches (addText text v))).
  { intros text. unfold addText. now destruct (state v). }
  destruct skip as [|k]; [| now apply IH].
  destruct (skips cls c); [now apply IH |].
  destruct (keyword "if" false (String c t)); [now apply IH |].
  destruct (keyword "fi" true (String c t)).
  { destruct (depth v =? 1)%nat; [| now apply IH].
    unfold close. destruct (state v) eqn:Hstate.
    - left. exact Hv.
    - right. split; [reflexivity |]. eexists _, _.
      split; [reflexivity |]. split; [exact Hv |]. apply truthy_not_empty. }
  destruct ((depth v =? 1)%nat && keyword "then" true (String c t));
    [now apply IH |].
  destruct ((depth v =? 1)%nat && keyword "elif" false (String c t));
    [now apply IH |].
  destruct ((depth v =? 1)%nat && keyword "else" true (String c t));
    [now apply IH |].
  destruct (state v) eqn:Hstate.
  - destruct (Ascii.eqb c ";"); now apply IH.
  - now apply IH.
Qed.

Lemma markElse_shape (l : list IfBranch) :
  Forall (fun b => hasCondition b = true) (removelast l) ->
  l <> [] ->
  exists init final,
    markElse l = (init ++ [final])%list
    /\ Forall (fun b => hasCondition b = true) init
    /\ condition final <> Some "".
Proof.
  intros Hall Hne. destruct l as [|b l _] using rev_ind; [congruence |].
  rewrite removelast_last in Hall. rewrite markElse_snoc.
  eexists _, _. split; [reflexivity |]. split; [exact Hall | apply truthy_not_empty].
Qed.

Lemma scanned_removelast (v : Scan) :
  scanned v -> Forall (fun b => hasCondition b = true) (removelast (branches v)).
Proof.
  intros [Hall | (_ & init & final & -> & Hinit & _)].
  - destruct (branches v) as [|b l _] using rev_ind; [constructor |].
    rewrite removelast_last. now apply Forall_app in Hall as [Hl _].
  - now rewrite removelast_last.
Qed.

(** X29.  A successful parse of an if statement returns at least one
    branch; every branch but the last has a condition, so that only the
    last branch can be the [else] branch, and the condition of the last
    branch is never the empty string.  The input, trimmed, starts with
    [if] followed by a space or a semicolon. *)
Theorem parsed_branches_are_well_formed (input : string) (found : list IfBranch) :
  parseIfStatement input = Ok found ->
  (exists init final,
      found = (init ++ [final])%list
      /\ Forall (fun b => hasCondition b = true) init
      /\ condition final <> Some "")
  /\ Js.startsWith "if " (Js.trim input) || Js.startsWith "if;" (Js.trim input) = true.
Proof.
  unfold parseIfStatement. cbv zeta.
  destruct (negb (Js.startsWith "if " (Js.trim input))
            && negb (Js.startsWith "if;" (Js.trim input))) eqn:Hstart;
    [discriminate |].
  set (v := scan _ 0 NoSkip _).
  assert (Hv : Forall (fun b => hasCondition b = true) (removelast (branches v))).
  { apply scanned_removelast, scan_scanned. constructor. }
  destruct (negb (depth v =? 0)%nat); [discriminate |].
  destruct (markElse (branches v)) as [|b l] eqn:Hmark; [discriminate |].
  intros [= <-]. split.
  - rewrite <- Hmark. apply markElse_shape; [exact Hv |].
    intros Hnil. now rewrite Hnil in Hmark.
  - apply andb_false_iff in Hstart as [H1 | H2].
    + apply negb_false_iff in H1. now rewrite H1.
    + apply negb_false_iff in H2. rewrite H2. apply orb_true_r.
Qed.


Lemma addText_addText (a b : string) (v : Scan) :
  addText b (addText a v) = addText (a +:+ b) v.
Proof.
  unfold addText. destruct v as [d st c0 b0 l]. cbn.
  destruct st; cbn; now rewrite append_assoc.
Qed.

Lemma addText_empty (v : Scan) : addText "" v = v.
Proof.
  unfold addText. destruct v as [d st c b l]. cbn.
  destruct st; now rewrite append_empty_r.
Qed.

Lemma startsWith_semicolon (kw b x : string) :
  Js.includes ";" kw = false ->
  Js.startsWith kw (b +:+ String ";" x) = Js.startsWith kw b.
Proof.
  revert b. induction kw as [|a kw IH]; intros b Hkw; [reflexivity |].
  simpl in Hkw. apply orb_false_elim in Hkw as [Ha Hkw].
  destruct b as [|c b].
  - rewrite app_nil. cbn [Js.startsWith]. now rewrite Ha.
  - rewrite app_cons. cbn [Js.startsWith]. now rewrite (IH b Hkw).
Qed.

Lemma drop_within (kw b y : string) :
  Js.startsWith kw b = true ->
  Js.drop (String.length kw) (b +:+ y) = Js.drop (String.length kw) b +:+ y.
Proof.
  revert b. induction kw as [|a kw IH]; intros b Hs.
  - cbn [String.length]. now destruct b, y.
  - destruct b as [|c b]; [discriminate |].
    cbn [Js.startsWith] in Hs. apply andb_prop in Hs as [_ Hs].
    rewrite app_cons. cbn [String.length Js.drop]. now apply IH.
Qed.

(** Before a semicolon, what a keyword test finds does not depend on what
    follows the semicolon. *)
Lemma keyword_semicolon (kw : string) (loose : bool) (b x : string) :
  Js.includes ";" kw = false ->
  keyword kw loose (b +:+ String ";" x) = keyword kw loose (b +:+ ";").
Proof.
  intros Hkw. unfold keyword. rewrite !(startsWith_semicolon kw b _ Hkw).
  destruct (Js.startsWith kw b) eqn:Hs; [| reflexivity].
  rewrite !(drop_within kw b _ Hs).
  now destruct (Js.drop (String.length kw) b).
Qed.

Lemma keywordFree_follow (a x : string) :
  keywordFree a (String ";" x) = keywordFree a ";".
Proof.
  induction a as [|c a IH]; [reflexivity |].
  cbn [keywordFree]. rewrite IH.
  now rewrite !(keyword_semicolon _ _ (String c a) x) by reflexivity.
Qed.

Lemma keywordFree_append (a b follow : string) :
  keywordFree (a +:+ b) follow
  = keywordFree a (b +:+ follow) && keywordFree b follow.
Proof.
  induction a as [|c a IH]; [reflexivity |].
  rewrite app_cons. cbn [keywordFree]. rewrite IH.
  change (String c (a +:+ b)) with (String c a +:+ b).
  now rewrite !append_assoc, andb_assoc.
Qed.

(** A text without keyword is taken character by character. *)
Lemma scan_text (a follow : string) :
  forall v : Scan,
  keywordFree a follow = true ->
  (state v = Condition -> Js.includes ";" a = false) ->
  scan v 0 NoSkip (a +:+ follow) = scan (addText a v) 0 NoSkip follow.
Proof.
  induction a as [|c a IH]; intros v Hfree Hsemi.
  - now rewrite app_nil, addText_empty.
  - cbn [keywordFree] in Hfree. apply andb_prop in Hfree as [Hkw Hfree].
    apply negb_true_iff in Hkw.
    apply orb_false_elim in Hkw as [Hkw Helse].
    apply orb_false_elim in Hkw as [Hkw Helif].
    apply orb_false_elim in Hkw as [Hkw Hthen].
    apply orb_false_elim in Hkw as [Hif Hfi].
    rewrite app_cons. cbn [scan skips].
    change (String c (a +:+ follow)) with (String c a +:+ follow).
    rewrite Hif, Hfi, Hthen, Helif, Helse, !andb_false_r.
    assert (Hnext : scan (addText (String c "") v) 0 NoSkip (a +:+ follow)
                    = scan (addText (String c a) v) 0 NoSkip follow).
    { rewrite IH; [now rewrite addText_addText | exact Hfree |].
      intros Hstate. unfold addText in Hstate.
      destruct (state v) eqn:Hv; [| discriminate].
      specialize (Hsemi eq_refl). simpl in Hsemi.
      now apply orb_false_elim in Hsemi as [_ Hsemi]. }
    destruct (state v) eqn:Hstate; [| exact Hnext].
    specialize (Hsemi eq_refl). simpl in Hsemi.
    apply orb_false_elim in Hsemi as [Hc _]. now rewrite Hc.
Qed.

Lemma scan_unskipped (v : Scan) (cls : Skip) (c : ascii) (t : string) :
  skips cls c = false -> scan v 0 cls (String c t) = scan v 0 NoSkip (String c t).
Proof. intros Hc. cbn [scan skips]. now rewrite Hc. Qed.

Lemma startsPlain_unskipped (text : string) (cls : Skip) (v : Scan) :
  startsPlain text = true -> scan v 0 cls text = scan v 0 NoSkip text.
Proof.
  destruct text as [|c t]; [discriminate |]. cbn [startsPlain].
  intros Hc. apply andb_prop in Hc as [Hspace Hsemi].
  apply negb_true_iff in Hspace, Hsemi. apply scan_unskipped.
  destruct cls; cbn [skips]; rewrite ?Hsemi; [reflexivity | |];
    destruct (Ascii.eqb_spec c " ") as [-> | _]; try reflexivity; discriminate.
Qed.

Lemma trimEnd_space (a : string) : Js.trimEnd (a +:+ " ") = Js.trimEnd a.
Proof.
  induction a as [|x a IH]; [reflexivity |].
  rewrite app_cons. cbn [Js.trimEnd]. now rewrite IH.
Qed.

Lemma trim_plain (text : string) (c : ascii) :
  startsPlain text = true -> Js.isSpace c = false ->
  Js.trim (text +:+ String c "") = text +:+ String c ""
  /\ Js.trim (text +:+ String c " ") = text +:+ String c "".
Proof.
  destruct text as [|d t]; [discriminate |]. cbn [startsPlain].
  intros Hd Hc. apply andb_prop in Hd as [Hd _]. apply negb_true_iff in Hd.
  unfold Js.trim, Js.trimStart. rewrite !app_cons, !dropWhile_stop by exact Hd.
  rewrite <- !app_cons. split; [now apply trimEnd_snoc |].
  change (String c " ") with (String c "" +:+ " ").
  rewrite <- append_assoc, trimEnd_space. now apply trimEnd_snoc.
Qed.

Lemma trim_starts_plain (text : string) :
  startsPlain text = true -> Js.trim text <> "".
Proof.
  destruct text as [|d t]; [discriminate |]. cbn [startsPlain].
  intros Hd. apply andb_prop in Hd as [Hd _]. apply negb_true_iff in Hd.
  unfold Js.trim, Js.trimStart. rewrite dropWhile_stop by exact Hd.
  cbn [Js.trimEnd]. rewrite Hd. now destruct (Js.trimEnd t).
Qed.

Lemma scan_then (c : string) (x : string) :
  scan (mkScan 1 Condition c "" []) 0 NoSkip
       (String ";" (String " " ("then " +:+ x)))
  = scan (mkScan 1 Body c "" []) 0 Separators x.
Proof. reflexivity. Qed.

Lemma scan_fi (c b : string) :
  scan (mkScan 1 Body c b []) 0 NoSkip "fi"
  = mkScan 0 Body c b [mkBranch (truthy (Some (Js.trim c))) (Js.trim b)].
Proof. reflexivity. Qed.

Lemma scan_simple (cond text : string) :
  Js.includes ";" cond = false -> keywordFree cond ";" = true ->
  startsPlain text = true -> keywordFree text ";" = true ->
  scan (mkScan 1 Condition "" "" []) 0 NoSkip
       (cond +:+ "; then " +:+ text +:+ "; fi")
  = mkScan 0 Body cond (text +:+ "; ")
           [mkBranch (truthy (Some (Js.trim cond))) (Js.trim (text +:+ "; "))].
Proof.
  intros Hsemi Hfree Htext Hfree'.
  change ("; then " +:+ text +:+ "; fi")
    with (String ";" (String " " ("then " +:+ text +:+ "; fi"))).
  rewrite scan_text; [| now rewrite keywordFree_follow | now intros _].
  change (addText cond (mkScan 1 Condition "" "" []))
    with (mkScan 1 Condition cond "" []).
  rewrite scan_then.
  rewrite startsPlain_unskipped
    by (destruct text; [discriminate | exact Htext]).
  replace (text +:+ "; fi") with ((text +:+ "; ") +:+ "fi")
    by (now rewrite append_assoc).
  rewrite scan_text.
  - change (addText (text +:+ "; ") (mkScan 1 Body cond "" []))
      with (mkScan 1 Body cond (text +:+ "; ") []).
    apply scan_fi.
  - rewrite keywordFree_append.
    change ("; " +:+ "fi") with (String ";" " fi").
    now rewrite keywordFree_follow, Hfree'.
  - intros Hstate. discriminate Hstate.
Qed.

(** X30.  The statement [if COND; then BODY; fi], where the two texts are
    ASCII, neither holds a keyword of the if statement, the condition
    holds no semicolon and both start with a character that is neither
    white space nor a semicolon, parses into one branch: its condition is
    COND trimmed, and its body is BODY followed by the semicolon. *)
Theorem simple_if_is_one_branch (cond text : string) :
  Js.all Js.isAscii cond = true -> Js.all Js.isAscii text = true ->
  startsPlain cond = true -> Js.includes ";" cond = false ->
  keywordFree cond ";" = true ->
  startsPlain text = true -> keywordFree text ";" = true ->
  parseIfStatement ("if " +:+ cond +:+ "; then " +:+ text +:+ "; fi")
  = Ok [mkBranch (Some (Js.trim cond)) (text +:+ ";")].
Proof.
  intros _ _ Hcond Hsemi Hfree Htext Hfree'.
  set (rest := "; then " +:+ text +:+ "; fi").
  assert (Hinput : Js.trim ("if " +:+ cond +:+ rest) = "if " +:+ cond +:+ rest).
  { replace ("if " +:+ cond +:+ rest)
      with (("if " +:+ cond +:+ "; then " +:+ text +:+ "; f") +:+ "i")
      by (unfold rest; now rewrite !append_assoc).
    unfold Js.trim, Js.trimStart. rewrite !app_cons, dropWhile_stop by reflexivity.
    rewrite <- !app_cons. now apply trimEnd_snoc. }
  assert (Hrest : Js.trim (Js.drop 2 ("if " +:+ cond +:+ rest)) = cond +:+ rest).
  { change (Js.drop 2 ("if " +:+ cond +:+ rest)) with (String " " (cond +:+ rest)).
    replace (cond +:+ rest) with ((cond +:+ "; then " +:+ text +:+ "; f") +:+ "i")
      by (unfold rest; now rewrite !append_assoc).
    destruct cond as [|c cond']; [discriminate |].
    cbn [startsPlain] in Hcond. apply andb_prop in Hcond as [Hc _].
    apply negb_true_iff in Hc.
    unfold Js.trim, Js.trimStart.
    change (Js.dropWhile Js.isSpace (String " " ?x)) with (Js.dropWhile Js.isSpace x).
    rewrite !app_cons, dropWhile_stop by exact Hc.
    rewrite <- !app_cons. now apply trimEnd_snoc. }
  unfold parseIfStatement. cbv zeta. rewrite Hinput, Hrest.
  change (Js.startsWith "if " ("if " +:+ cond +:+ rest)) with true.
  cbn [negb andb]. unfold rest.
  rewrite (scan_simple cond text Hsemi Hfree Htext Hfree').
  cbn [depth branches Nat.eqb negb markElse condition body].
  assert (Htruthy : truthy (Some (Js.trim cond)) = Some (Js.trim cond)).
  { pose proof (trim_starts_plain cond Hcond). now destruct (Js.trim cond). }
  rewrite ?Htruthy. cbn [condition body]. rewrite ?Htruthy.
  now destruct (trim_plain text ";" Htext eq_refl) as [_ ->].
Qed.

End IfStatements.

Lemma parsed_branches_are_well_formed_witness :
  (exists init final,
      [mkBranch (Some "a") "b;"; mkBranch (Some "c") "d;"; mkBranch None "e;"]
      = (init ++ [final])%list
      /\ Forall (fun b => hasCondition b = true) init
      /\ condition final <> Some "")
  /\ Js.startsWith "if " (Js.trim "if a; then b; elif c; then d; else e; fi")
     || Js.startsWith "if;" (Js.trim "if a; then b; elif c; then d; else e; fi")
     = true.
Proof.
  apply (parsed_branches_are_well_formed "if a; then b; elif c; then d; else e; fi").
  vm_compute. reflexivity.
Defined.

Lemma simple_if_is_one_branch_witness :
  IfParser.parseIfStatement "if test -d /tmp ; then echo yes; fi"
  = Ok [mkBranch (Some "test -d /tmp") "echo yes;"].
Proof.
  apply (simple_if_is_one_branch "test -d /tmp " "echo yes"); reflexivity.
Defined.

(** ** Termination *)

Section Lengths.

Lemma dropWhile_length (p : ascii -> bool) (s : string) :
  (String.length (Js.dropWhile p s) <= String.length s)%nat.
Proof.
  induction s as [|c t IH]; [reflexivity |]. cbn [Js.dropWhile].
  destruct (p c); cbn [String.length]; lia.
Qed.

Lemma trimEnd_length (s : string) :
  (String.length (Js.trimEnd s) <= String.length s)%nat.
Proof.
  induction s as [|c t IH]; [reflexivity |]. cbn [Js.trimEnd].
  destruct (Js.trimEnd t); [destruct (Js.isSpace c) |];
    cbn [String.length] in *; lia.
Qed.

Lemma trim_length (s : string) :
  (String.length (Js.trim s) <= String.length s)%nat.
Proof.
  unfold Js.trim, Js.trimStart.
  pose proof (trimEnd_length (Js.dropWhile Js.isSpace s)).
  pose proof (dropWhile_length Js.isSpace s). lia.
Qed.

Lemma drop_length (k : nat) (s : string) :
  (String.length (Js.drop k s) <= String.length s)%nat.
Proof.
  revert s. induction k as [|k IH]; intros s; [now destruct s |].
  destruct s as [|c t]; [reflexivity |]. cbn [Js.drop String.length].
  specialize (IH t). lia.
Qed.

Lemma unsnoc_length (s init : string) (z : ascii) :
  unsnoc s = Some (init, z) -> (String.length init < String.length s)%nat.
Proof.
  revert init z. induction s as [|c t IH]; intros init z; [discriminate |].
  cbn [unsnoc]. destruct (unsnoc t) as [[init' z'] |].
  - intros [= <- _]. specialize (IH init' z' eq_refl). cbn [String.length]. lia.
  - intros [= <- _]. cbn [String.length]. lia.
Qed.

Lemma bracedBody_short (s text : string) :
  bracedBody s = Some text -> (String.length text < String.length s)%nat.
Proof.
  unfold bracedBody. destruct s as [|c t]; [discriminate |].
  destruct (unsnoc (Js.trimEnd t)) as [[inner z] |] eqn:Hu; [| discriminate].
  destruct (Ascii.eqb c "{" && Ascii.eqb z "}"); [| discriminate].
  intros [= <-]. apply unsnoc_length in Hu.
  pose proof (trimEnd_length t). pose proof (trim_length inner).
  cbn [String.length]. lia.
Qed.

Lemma leadingIdentifier_short (s name rest : string) :
  leadingIdentifier s = Some (name, rest) ->
  (String.length rest <= String.length s)%nat.
Proof.
  unfold leadingIdentifier. destruct s as [|c t]; [discriminate |].
  destruct (Js.isNameStart c); [| discriminate].
  intros [= _ <-]. cbn [String.length Js.drop].
  pose proof (drop_length (String.length (Js.takeWhile Js.isNameChar t)) t). lia.
Qed.

Lemma parseFunctionDefinition_short (input funcName funcBody : string) :
  parseFunctionDefinition input = Some (funcName, funcBody) ->
  (String.length funcBody < String.length input)%nat.
Proof.
  unfold parseFunctionDefinition.
  destruct (funcKeywordMatch input) as [[n1 b1] |] eqn:Hkey.
  - intros [= _ <-]. unfold funcKeywordMatch in Hkey.
    destruct (Js.startsWith "function" input); [| discriminate].
    destruct (Js.drop 8 input) as [|c t] eqn:Hdrop; [discriminate |].
    destruct (Js.isSpace c); [| discriminate].
    destruct (leadingIdentifier _) as [[n rest] |] eqn:Hid; [| discriminate].
    destruct (bracedBody _) as [b |] eqn:Hb; [| discriminate].
    injection Hkey as _ <-.
    apply bracedBody_short in Hb. apply leadingIdentifier_short in Hid.
    pose proof (dropWhile_length Js.isSpace rest).
    pose proof (dropWhile_length Js.isSpace t).
    pose proof (drop_length 8 input) as Hd. rewrite Hdrop in Hd.
    cbn [String.length] in Hd. lia.
  - unfold parenMatch.
    destruct (leadingIdentifier input) as [[n rest] |] eqn:Hid; [| discriminate].
    destruct (Js.dropWhile Js.isSpace rest) as [|c1 rest1] eqn:H1; [discriminate |].
    destruct (Js.dropWhile Js.isSpace rest1) as [|c2 rest2] eqn:H2; [discriminate |].
    destruct (Ascii.eqb c1 "(" && Ascii.eqb c2 ")"); [| discriminate].
    destruct (bracedBody _) as [b |] eqn:Hb; [| discriminate].
    intros [= _ <-].
    apply bracedBody_short in Hb. apply leadingIdentifier_short in Hid.
    pose proof (dropWhile_length Js.isSpace rest) as Hr. rewrite H1 in Hr.
    pose proof (dropWhile_length Js.isSpace rest1) as Hr1. rewrite H2 in Hr1.
    pose proof (dropWhile_length Js.isSpace rest2).
    cbn [String.length] in *. lia.
Qed.

End Lengths.

(** ** The regular expressions of the loops *)

Section LoopExpressions.
Import LoopRegex.

Section Parts.
Context {A : Type}.
Implicit Type next : string -> option A.

Lemma startsWith_drop (text s : string) :
  Js.startsWith text s = true ->
  (String.length (Js.drop (String.length text) s) + String.length text
   = String.length s)%nat.
Proof.
  revert s. induction text as [|c text IH]; intros s.
  - intros _. destruct s; cbn; lia.
  - destruct s as [|d s]; [discriminate |]. cbn [Js.startsWith]. intros Hs.
    apply andb_prop in Hs as [_ Hs]. cbn [String.length Js.drop].
    specialize (IH s Hs). lia.
Qed.

Lemma lit_next (text : string) next (s : string) (r : A) :
  lit text next s = Some r ->
  exists s', next s' = Some r
             /\ (String.length s' + String.length text = String.length s)%nat.
Proof.
  unfold lit. destruct (Js.startsWith text s) eqn:Hs; [| discriminate].
  intros Hn. eexists. split; [exact Hn |]. now apply startsWith_drop.
Qed.

Lemma spaces_next next (s : string) (r : A) :
  spaces next s = Some r ->
  exists s', next s' = Some r /\ (String.length s' <= String.length s)%nat.
Proof.
  induction s as [|c t IH]; cbn [spaces].
  - intros Hn. exists "". auto.
  - destruct (Js.isSpace c); [| intros Hn; exists (String c t); auto].
    destruct (spaces next t) as [r' |] eqn:Ht.
    + intros [= ->]. destruct (IH eq_refl) as (s' & Hn & Hl).
      exists s'. split; [exact Hn | cbn [String.length]; lia].
    + intros Hn. exists (String c t). auto.
Qed.

Lemma spaces1_next next (s : string) (r : A) :
  spaces1 next s = Some r ->
  exists s', next s' = Some r /\ (String.length s' < String.length s)%nat.
Proof.
  unfold spaces1. destruct s as [|c t]; [discriminate |].
  destruct (Js.isSpace c); [| discriminate].
  intros Hs. apply spaces_next in Hs as (s' & Hn & Hl).
  exists s'. split; [exact Hn | cbn [String.length]; lia].
Qed.

Lemma lazyGroup_next (next : string -> string -> option A) (s : string) :
  forall (seen : string) (r : A),
  lazyGroup seen next s = Some r ->
  exists taken s',
    next (seen +:+ taken) s' = Some r
    /\ (String.length taken + String.length s' = String.length s)%nat.
Proof.
  induction s as [|c t IH]; intros seen r; cbn [lazyGroup].
  - destruct (next seen "") eqn:Hn; [| discriminate]. intros [= <-].
    exists "", "". now rewrite append_empty_r.
  - destruct (next seen (String c t)) eqn:Hn.
    + intros [= <-]. exists "", (String c t). now rewrite append_empty_r.
    + intros Hrest. apply IH in Hrest as (taken & s' & Hnext & Hl).
      exists (String c taken), s'. split; [| cbn [String.length]; lia].
      rewrite append_assoc in Hnext. exact Hnext.
Qed.

Lemma nameChars_next (next : string -> string -> option A) (s : string) :
  forall (seen : string) (r : A),
  nameChars seen next s = Some r ->
  exists found s',
    next found s' = Some r /\ (String.length s' <= String.length s)%nat.
Proof.
  induction s as [|c t IH]; intros seen r; cbn [nameChars].
  - intros Hn. exists seen, "". auto.
  - destruct (Js.isNameChar c); [| intros Hn; exists seen, (String c t); auto].
    destruct (nameChars _ next t) as [r' |] eqn:Ht.
    + intros [= ->]. apply IH in Ht as (found & s' & Hn & Hl).
      exists found, s'. split; [exact Hn | cbn [String.length]; lia].
    + intros Hn. exists seen, (String c t). auto.
Qed.

Lemma identifier_next (next : string -> string -> option A) (s : string) (r : A) :
  identifier next s = Some r ->
  exists found s',
    next found s' = Some r /\ (String.length s' <= String.length s)%nat.
Proof.
  unfold identifier. destruct s as [|c t]; [discriminate |].
  destruct (Js.isNameStart c); [| discriminate].
  intros Hs. apply nameChars_next in Hs as (found & s' & Hn & Hl).
  exists found, s'. split; [exact Hn | cbn [String.length]; lia].
Qed.

Lemma doneTail_result (r r' : A) (s : string) : doneTail r s = Some r' -> r' = r.
Proof.
  unfold doneTail. intros Hs.
  apply spaces_next in Hs as (s1 & Hs & _). apply lit_next in Hs as (s2 & Hs & _).
  apply spaces_next in Hs as (s3 & Hs & _). apply lit_next in Hs as (s4 & Hs & _).
  apply spaces_next in Hs as (s5 & Hs & _). unfold atEnd in Hs.
  destruct (String.eqb s5 ""); congruence.
Qed.

Lemma doBody_short (result : string -> A) (s : string) (r : A) :
  doBody result s = Some r ->
  exists text, r = result text /\ (String.length text < String.length s)%nat.
Proof.
  unfold doBody. intros Hs.
  apply lit_next in Hs as (s1 & Hs & Hl1). apply spaces1_next in Hs as (s2 & Hs & Hl2).
  apply lazyGroup_next in Hs as (taken & s3 & Hs & Hl3).
  apply doneTail_result in Hs. exists taken. cbn [String.length] in Hl1.
  split; [exact Hs | lia].
Qed.

Lemma semicolonDo_short (result : string -> A) (s : string) (r : A) :
  semicolonDo result s = Some r ->
  exists text, r = result text /\ (String.length text < String.length s)%nat.
Proof.
  unfold semicolonDo. intros Hs.
  apply spaces_next in Hs as (s1 & Hs & Hl1). apply lit_next in Hs as (s2 & Hs & Hl2).
  apply spaces_next in Hs as (s3 & Hs & Hl3).
  apply doBody_short in Hs as (text & Hr & Hl). exists text. split; [exact Hr | lia].
Qed.

Lemma spaceDo_short (result : string -> A) (s : string) (r : A) :
  spaceDo result s = Some r ->
  exists text, r = result text /\ (String.length text < String.length s)%nat.
Proof.
  unfold spaceDo. intros Hs. apply spaces1_next in Hs as (s1 & Hs & Hl1).
  apply doBody_short in Hs as (text & Hr & Hl). exists text. split; [exact Hr | lia].
Qed.

End Parts.

Lemma condWith_short (kw : string)
    (toDo : (string -> string * string) -> string -> option (string * string))
    (input cond text : string) :
  (forall result s r, toDo result s = Some r ->
     exists found, r = result found /\ (String.length found < String.length s)%nat) ->
  condWith kw toDo input = Some (cond, text) ->
  (String.length cond < String.length input)%nat
  /\ (String.length text < String.length input)%nat.
Proof.
  intros HtoDo. unfold condWith. intros Hs.
  apply lit_next in Hs as (s1 & Hs & Hl1). apply spaces1_next in Hs as (s2 & Hs & Hl2).
  apply lazyGroup_next in Hs as (taken & s3 & Hs & Hl3).
  apply HtoDo in Hs as (found & [= -> ->] & Hl). rewrite app_nil. lia.
Qed.

Lemma forWith_short
    (toDo : (string -> string * string * string) -> string
            -> option (string * string * string))
    (input varName listStr text : string) :
  (forall result s r, toDo result s = Some r ->
     exists found, r = result found /\ (String.length found < String.length s)%nat) ->
  forWith toDo input = Some (varName, listStr, text) ->
  (String.length text < String.length input)%nat.
Proof.
  intros HtoDo. unfold forWith. intros Hs.
  apply lit_next in Hs as (s1 & Hs & Hl1). apply spaces1_next in Hs as (s2 & Hs & Hl2).
  apply identifier_next in Hs as (found & s3 & Hs & Hl3).
  apply spaces1_next in Hs as (s4 & Hs & Hl4). apply lit_next in Hs as (s5 & Hs & Hl5).
  apply spaces_next in Hs as (s6 & Hs & Hl6).
  apply lazyGroup_next in Hs as (taken & s7 & Hs & Hl7).
  apply HtoDo in Hs as (body & [= _ _ ->] & Hl). lia.
Qed.

(** The regular expressions of the loops capture parts that are shorter
    than the statement. *)
Lemma matchForLoop_short (input varName listStr text : string) :
  matchForLoop input = Some (varName, listStr, text) ->
  (String.length text < String.length input)%nat.
Proof.
  unfold matchForLoop. destruct (forWith semicolonDo input) as [found |] eqn:Hfirst.
  - intros [= ->]. revert Hfirst. apply forWith_short. apply semicolonDo_short.
  - apply forWith_short. apply spaceDo_short.
Qed.

Lemma matchWhileLoop_short (input cond text : string) :
  matchWhileLoop input = Some (cond, text) ->
  (String.length cond < String.length input)%nat
  /\ (String.length text < String.length input)%nat.
Proof.
  unfold matchWhileLoop.
  destruct (condWith "while" semicolonDo input) as [found |] eqn:Hfirst.
  - intros [= ->]. revert Hfirst. apply condWith_short. apply semicolonDo_short.
  - apply condWith_short. apply spaceDo_short.
Qed.

Lemma matchUntilLoop_short (input cond text : string) :
  matchUntilLoop input = Some (cond, text) ->
  (String.length cond < String.length input)%nat
  /\ (String.length text < String.length input)%nat.
Proof.
  unfold matchUntilLoop.
  destruct (condWith "until" semicolonDo input) as [found |] eqn:Hfirst.
  - intros [= ->]. revert Hfirst. apply condWith_short. apply semicolonDo_short.
  - apply condWith_short. apply spaceDo_short.
Qed.

End LoopExpressions.

Section Termination.
Context `{Host}.
Variable bound : nat.

(** What is asked of the registry and of the scanners: no command calls
    [ctx.exec], the commands of a parsed line are not longer than the
    line, and the parts of a compound statement are shorter than the
    statement. *)
Hypothesis leaves : leafCommands.
Hypothesis parse_short : forall e line pipeline st,
  pipeline ∈ parse e line -> st ∈ pipeline ->
  (String.length (command (parsed st)) <= String.length line)%nat.
Hypothesis if_short : forall input found branch,
  IfParser.parseIfStatement input = Ok found -> branch ∈ found ->
  (String.length (body branch) < String.length input)%nat
  /\ (forall cond, condition branch = Some cond ->
        (String.length cond < String.length input)%nat).
Hypothesis for_short : forall input varName listStr text,
  LoopRegex.matchForLoop input = Some (varName, listStr, text) ->
  (String.length text < String.length input)%nat.
Hypothesis while_short : forall input cond text,
  LoopRegex.matchWhileLoop input = Some (cond, text) ->
  (String.length cond < String.length input)%nat
  /\ (String.length text < String.length input)%nat.
Hypothesis until_short : forall input cond text,
  LoopRegex.matchUntilLoop input = Some (cond, text) ->
  (String.length cond < String.length input)%nat
  /\ (String.length text < String.length input)%nat.

Lemma comesBack_ret {A} (d : nat) (a : A) :
  comesBack bound d (fun s : ShellState FS => Ret a s).
Proof. intros s Hd Hb. now split. Qed.

Lemma comesBack_bind {A B} (d : nat)
    (m : ShellState FS -> outcome (ShellState FS) A)
    (k : A -> ShellState FS -> outcome (ShellState FS) B) :
  comesBack bound d m -> (forall a, comesBack bound d (k a)) ->
  comesBack bound d (fun s => bind (m s) k).
Proof.
  intros Hm Hk s Hd Hb. specialize (Hm s Hd Hb).
  destruct (m s) as [a s1 | e s1 |]; cbn [bind]; [| exact I | exact Hm].
  destruct Hm as [Hd1 Hb1]. exact (Hk a s1 Hd1 Hb1).
Qed.

(** A step that touches neither the call depth nor the functions. *)
Lemma comesBack_step {A} (d : nat) (a : ShellState FS -> A)
    (f : ShellState FS -> ShellState FS) :
  (forall s, callDepth (f s) = callDepth s /\ functions (f s) = functions s) ->
  comesBack bound d (fun s => Ret (a s) (f s)).
Proof.
  intros Hf s Hd Hb. destruct (Hf s) as [Hdepth Hfun]. split; [congruence |].
  intros g funcBody. rewrite Hfun. apply Hb.
Qed.

Lemma handleCd_comesBack (d : nat) (l : list string) :
  comesBack bound d (handleCd l).
Proof.
  intros s Hd Hb. unfold handleCd.
  destruct (stat _ _) as [st | e]; [destruct (negb (isDirectory st)) |];
    now split.
Qed.

Lemma handleLocal_comesBack (d : nat) (l : list string) :
  comesBack bound d (handleLocal l).
Proof.
  intros s Hd Hb. unfold handleLocal.
  destruct (localScopes s) as [|scope below]; [now split |].
  destruct (fold_left _ l _) as [scope' e']. now split.
Qed.

Lemma applyRedirections_comesBack (d : nat) (l : list Redirection) :
  forall result, comesBack bound d (applyRedirections result l).
Proof.
  induction l as [|redir l IH]; intros result s Hd Hb; cbn [applyRedirections];
    [now split |].
  destruct (rtype redir); try (now apply IH).
  - destruct (truthy (target redir)) as [t |]; [| now apply IH].
    destruct (writeOrAppend _ _ _ _) as [fs' | e]; [| exact I]. now apply IH.
  - destruct (truthy (target redir)) as [t |]; [| now apply IH].
    destruct (String.eqb t "/dev/null"); [now apply IH |].
    destruct (writeOrAppend _ _ _ _) as [fs' | e]; [| exact I]. now apply IH.
Qed.

Lemma dispatch_comesBack
    (rec : string -> ShellState FS -> outcome (ShellState FS) ExecResult)
    (d : nat) (cmd : Command FS) (c : ParsedCommand)
    (l : list string) (stdin : string) :
  isLeaf cmd -> comesBack bound d (dispatch rec cmd c l stdin).
Proof.
  intros Hleaf s Hd Hb. unfold dispatch.
  destruct (Hleaf l (mkCtx (cwd s) stdin) (fs s) (env s)) as (ended & fs1 & e1 & ->).
  cbn [runCommand bind]. now apply applyRedirections_comesBack.
Qed.

Section OpenRecursion.
Variable rec : string -> ShellState FS -> outcome (ShellState FS) ExecResult.
Variables n d : nat.
Hypothesis rec_short : forall line,
  (String.length line < n)%nat -> comesBack bound d (rec line).
Hypothesis rec_call : (d < maxCallDepth)%nat ->
  forall funcBody, (String.length funcBody <= bound)%nat ->
  comesBack bound (S d) (rec funcBody).

Lemma runBranches_comesBack (l : list IfBranch) :
  (forall branch, branch ∈ l ->
     (String.length (body branch) < n)%nat
     /\ (forall cond, condition branch = Some cond ->
           (String.length cond < n)%nat)) ->
  comesBack bound d (runBranches rec l).
Proof.
  induction l as [|branch l IH]; intros Hl; cbn [runBranches].
  - apply comesBack_ret.
  - destruct (Hl branch ltac:(constructor)) as [Hbody Hcond].
    assert (Hl' : comesBack bound d (runBranches rec l)).
    { apply IH. intros b Hb. apply Hl. now constructor. }
    destruct (condition branch) as [cond |]; [| now apply rec_short].
    apply (comesBack_bind d (rec cond)); [now apply rec_short, Hcond |].
    intros condResult. destruct (exitCode condResult =? 0);
      [now apply rec_short | exact Hl'].
Qed.

Lemma executeIfStatement_comesBack (input : string) :
  (String.length input <= n)%nat ->
  comesBack bound d (executeIfStatement rec input).
Proof.
  intros Hlen. unfold executeIfStatement.
  destruct (IfParser.parseIfStatement input) as [found | e] eqn:Hparse;
    [| apply comesBack_ret].
  apply runBranches_comesBack. intros branch Hin.
  destruct (if_short input found branch Hparse Hin) as [Hbody Hcond].
  split; [lia |]. intros cond Hc. specialize (Hcond cond Hc). lia.
Qed.

Lemma forItems_comesBack (varName text : string) (items : list string) :
  (String.length text < n)%nat ->
  forall iterations acc,
  comesBack bound d (forItems rec varName text items iterations acc).
Proof.
  intros Hlen. induction items as [|item items IH]; intros iterations acc;
    cbn [forItems].
  - now apply (comesBack_step d (fun _ => acc)
                 (fun s => setEnv (delete varName (env s)) s)).
  - destruct (maxLoopIterations <=? iterations)%nat; [apply comesBack_ret |].
    intros s Hd Hb.
    apply (comesBack_bind d (rec text)); [now apply rec_short | | exact Hd |].
    + intros result. apply IH.
    + intros g funcBody. apply Hb.
Qed.

Lemma condLoop_comesBack (kind : string) (stopOn : Z -> bool)
    (cond text : string) (left : nat) :
  (String.length cond < n)%nat -> (String.length text < n)%nat ->
  forall acc, comesBack bound d (condLoop rec kind stopOn cond text left acc).
Proof.
  intros Hcond Htext. induction left as [|left IH]; intros acc; cbn [condLoop].
  - apply comesBack_ret.
  - apply (comesBack_bind d (rec cond)); [now apply rec_short |].
    intros condResult. destruct (stopOn (exitCode condResult));
      [apply comesBack_ret |].
    apply (comesBack_bind d (rec text)); [now apply rec_short |].
    intros result. apply IH.
Qed.

Lemma callFunction_comesBack (expandedCommand funcBody : string)
    (l : list string) :
  (String.length funcBody <= bound)%nat ->
  comesBack bound d (callFunction rec expandedCommand funcBody l).
Proof.
  intros Hlen s Hd Hb. unfold callFunction. cbn [callDepth setCallDepth].
  destruct (maxCallDepth <? S (callDepth s))%nat eqn:Hlimit.
  - split; [exact Hd | exact Hb].
  - apply Nat.ltb_ge in Hlimit.
    assert (Hcall : comesBack bound (S d) (rec funcBody))
      by (apply rec_call; [lia | exact Hlen]).
    specialize (Hcall (enterFunction l (setCallDepth (S (callDepth s)) s))).
    destruct (rec funcBody _) as [result s1 | e s1 |]; cbn [bind].
    + destruct Hcall as [Hd1 Hb1]; [cbn; now rewrite Hd | exact Hb |].
      split.
      * unfold leaveFunction. cbn [callDepth setCallDepth setEnv].
        destruct (localScopes _); cbn [callDepth setCallDepth setEnv setLocalScopes];
          now rewrite Hd1.
      * intros g body'. unfold leaveFunction.
        destruct (localScopes (setCallDepth _ s1)); apply Hb1.
    + exact I.
    + apply Hcall; [cbn; now rewrite Hd | exact Hb].
Qed.

Lemma executeCommand_comesBack (c : ParsedCommand) (stdin : string) :
  (String.length (command c) <= n)%nat ->
  comesBack bound d (executeCommand rec c stdin).
Proof.
  intros Hlen s Hd Hb. unfold executeCommand.
  destruct (String.eqb (command c) ""); [now split |].
  destruct (readStdin _ _ _) as [stdin' | e]; [| now split].
  destruct (Js.startsWith "if " (command c) || Js.startsWith "if;" (command c)).
  { now apply executeIfStatement_comesBack. }
  destruct (String.eqb _ "cd"); [now apply handleCd_comesBack |].
  destruct (String.eqb _ "export"); [now split |].
  destruct (String.eqb _ "unset"); [now split |].
  destruct (String.eqb _ "exit"); [now split |].
  destruct (String.eqb _ "local"); [now apply handleLocal_comesBack |].
  destruct (assignment _ _) as [[varName value] |]; [now split |].
  destruct (functions s !! expandVariables (env s) (command c))
    as [funcBody |] eqn:Hfun; cbn [truthy].
  - destruct funcBody as [|x funcBody'] eqn:Hbody.
    + destruct (commands !! _) as [cmd |] eqn:Hcmd; [| now split].
      apply dispatch_comesBack; [exact (leaves _ _ Hcmd) | exact Hd | exact Hb].
    + apply callFunction_comesBack; [| exact Hd | exact Hb].
      exact (Hb _ _ Hfun).
  - destruct (commands !! _) as [cmd |] eqn:Hcmd; [| now split].
    apply dispatch_comesBack; [exact (leaves _ _ Hcmd) | exact Hd | exact Hb].
Qed.

Lemma stageLoop_comesBack (initialStdin : string) (stages : list PipelineStage) :
  (forall st, st ∈ stages -> (String.length (command (parsed st)) <= n)%nat) ->
  forall i v,
  comesBack bound d (stageLoop (executeCommand rec) initialStdin i stages v).
Proof.
  induction stages as [|st following IH]; intros Hstages i v; cbn [stageLoop].
  - apply comesBack_ret.
  - assert (Hrest : forall i v,
              comesBack bound d
                (stageLoop (executeCommand rec) initialStdin i following v)).
    { apply IH. intros st' Hin. apply Hstages. now constructor. }
    destruct (skipped _ _); [apply Hrest |].
    apply (comesBack_bind d (executeCommand rec (parsed st) _)).
    + apply executeCommand_comesBack, Hstages. constructor.
    + intros result. apply Hrest.
Qed.

Lemma runPipelines_comesBack (l : list Pipeline) :
  (forall pipeline st, pipeline ∈ l -> st ∈ pipeline ->
     (String.length (command (parsed st)) <= n)%nat) ->
  forall stdin lastRes, comesBack bound d (runPipelines rec l stdin lastRes).
Proof.
  induction l as [|pipeline l IH]; intros Hl stdin lastRes; cbn [runPipelines].
  - apply comesBack_ret.
  - apply (comesBack_bind d (executePipeline rec pipeline stdin)).
    + unfold executePipeline, runPipeline.
      apply (comesBack_bind d (stageLoop (executeCommand rec) stdin 0 pipeline _)).
      * apply stageLoop_comesBack. intros st Hin. apply (Hl pipeline); [constructor | exact Hin].
      * intros v. apply comesBack_ret.
    + intros result. apply IH. intros p st Hp. apply Hl. now constructor.
Qed.


Lemma runLine_comesBack (line : string) :
  (String.length line <= n)%nat -> (String.length line <= bound)%nat ->
  comesBack bound d (runLine rec line).
Proof.
  intros Hn Hbound. unfold runLine. cbv zeta.
  pose proof (trim_length line) as Htrim.
  destruct (String.eqb (Js.trim line) ""); [apply comesBack_ret |].
  destruct (Js.startsWith "if " _ || Js.startsWith "if;" _ || String.eqb _ "if").
  { apply executeIfStatement_comesBack. lia. }
  destruct (Js.startsWith "for " _).
  { unfold executeForLoop.
    destruct (LoopRegex.matchForLoop _) as [[[varName listStr] text] |] eqn:Hm;
      [| apply comesBack_ret].
    apply forItems_comesBack. apply for_short in Hm. lia. }
  destruct (Js.startsWith "while " _).
  { unfold executeWhileLoop.
    destruct (LoopRegex.matchWhileLoop _) as [[cond text] |] eqn:Hm; [| apply comesBack_ret].
    apply while_short in Hm as [Hc Ht]. apply condLoop_comesBack; lia. }
  destruct (Js.startsWith "until " _).
  { unfold executeUntilLoop.
    destruct (LoopRegex.matchUntilLoop _) as [[cond text] |] eqn:Hm; [| apply comesBack_ret].
    apply until_short in Hm as [Hc Ht]. apply condLoop_comesBack; lia. }
  destruct (parseFunctionDefinition _) as [[funcName funcBody] |] eqn:Hdef.
  - apply parseFunctionDefinition_short in Hdef.
    intros s Hd Hb. split; [exact Hd |].
    intros g text. cbn [functions setFunctions].
    destruct (decide (g = funcName)) as [-> | Hne].
    + rewrite lookup_insert_eq. intros [= <-]. lia.
    + rewrite lookup_insert_ne by congruence. apply Hb.
  - intros s Hd Hb. apply runPipelines_comesBack; [| exact Hd | exact Hb].
    intros pipeline st Hp Hst. pose proof (parse_short _ _ _ _ Hp Hst). lia.
Qed.

Lemma execBody_comesBack (line : string) :
  (String.length line <= n)%nat -> (String.length line <= bound)%nat ->
  comesBack bound d (execBody rec line).
Proof.
  intros Hn Hbound s Hd Hb. unfold execBody.
  assert (Hd' : callDepth (countCommand s) = d).
  { unfold countCommand. now destruct (callDepth s =? 0)%nat. }
  assert (Hb' : bounded bound (countCommand s)).
  { intros g text. unfold countCommand.
    destruct (callDepth s =? 0)%nat; apply Hb. }
  destruct (maxCommandCount <? _)%nat; [now split |].
  now apply runLine_comesBack.
Qed.

End OpenRecursion.

Lemma exec_comesBack (fuel : nat) :
  forall (d : nat) (line : string),
  (String.length line <= bound)%nat ->
  ((maxCallDepth - d) * (bound + 1) + String.length line + 1 <= fuel)%nat ->
  comesBack bound d (exec fuel line).
Proof.
  induction fuel as [|fuel IH]; intros d line Hbound Hfuel.
  { set (x := ((maxCallDepth - d) * (bound + 1))%nat) in Hfuel. lia. }
  cbn [exec]. apply (execBody_comesBack (exec fuel) (String.length line) d).
  - intros sub Hsub. apply IH; [lia |].
    set (x := ((maxCallDepth - d) * (bound + 1))%nat) in *. lia.
  - intros Hd funcBody Hbody. apply IH; [exact Hbody |].
    replace (maxCallDepth - d)%nat with (S (maxCallDepth - S d)) in Hfuel by lia.
    cbn [Nat.mul] in Hfuel.
    set (x := ((maxCallDepth - S d) * (bound + 1))%nat) in *. lia.
  - lia.
  - exact Hbound.
Qed.

End Termination.

(** ** The scanner returns parts of its input *)

Section ScannedLengths.
Import IfParser.

Lemma drop_length_exact (k : nat) (s : string) :
  String.length (Js.drop k s) = (String.length s - k)%nat.
Proof.
  revert s. induction k as [|k IH]; intros s; [destruct s; cbn; lia |].
  destruct s as [|c t]; [reflexivity |]. cbn [Js.drop String.length]. apply IH.
Qed.

Lemma startsWith_length (p s : string) :
  Js.startsWith p s = true -> (String.length p <= String.length s)%nat.
Proof.
  revert s. induction p as [|a p IH]; intros s Hs; [cbn; lia |].
  destruct s as [|b s]; [discriminate |]. cbn [Js.startsWith] in Hs.
  apply andb_prop in Hs as [_ Hs]. specialize (IH s Hs). cbn [String.length]. lia.
Qed.

(** A recognised keyword lies within the text, with the character that
    ends it when the test asks for one. *)
Lemma keyword_length (kw : string) (loose : bool) (s : string) :
  keyword kw loose s = true ->
  (String.length kw + (if loose then 0 else 1) <= String.length s)%nat.
Proof.
  unfold keyword. intros Hk. apply andb_prop in Hk as [Hs Hd].
  pose proof (startsWith_length kw s Hs) as Hlen.
  pose proof (drop_length_exact (String.length kw) s) as Hdrop.
  destruct loose; [lia |].
  destruct (Js.drop (String.length kw) s); [discriminate |].
  cbn [String.length] in Hdrop. lia.
Qed.

Lemma scan_short (m : nat) (s : string) :
  forall (v : Scan) (skip : nat) (cls : Skip),
  (skip <= String.length s)%nat ->
  (String.length (currentCondition v) + String.length s <= m + skip)%nat ->
  (String.length (currentBody v) + String.length s <= m + skip)%nat ->
  Forall (shortBranch m) (branches v) ->
  Forall (shortBranch m) (branches (scan v skip cls s)).
Proof.
  induction s as [|c t IH]; intros v skip cls Hskip Hcond Hbody Hv;
    cbn [scan]; [exact Hv |].
  cbn [String.length] in Hskip, Hcond, Hbody.
  destruct skip as [|k]; [| apply IH; [lia | lia | lia | exact Hv]].
  assert (Hsaved : forall next,
            Forall (shortBranch m) (branches (saveBranch next v))).
  { intros next. unfold saveBranch. cbn [branches].
    destruct (negb _ || negb _); [| exact Hv].
    apply Forall_app. split; [exact Hv |]. constructor; [| constructor].
    pose proof (trim_length (currentCondition v)).
    pose proof (trim_length (currentBody v)).
    split; cbn [body condition]; [lia |]. intros cond [= <-]. lia. }
  assert (Hadd : forall text extra d,
            (String.length text <= S extra)%nat -> (extra <= String.length t)%nat ->
            Forall (shortBranch m)
                   (branches (scan (setDepth d (addText text v)) extra NoSkip t))).
  { intros text extra d Htext Hextra. apply IH; [exact Hextra | | |].
    - unfold setDepth, addText. destruct (state v);
        cbn [currentCondition]; rewrite ?length_append; lia.
    - unfold setDepth, addText. destruct (state v);
        cbn [currentBody]; rewrite ?length_append; lia.
    - unfold setDepth, addText. now destruct (state v). }
  assert (Hchar : Forall (shortBranch m)
                    (branches (scan (addText (String c "") v) 0 NoSkip t))).
  { apply IH; [lia | | |].
    - unfold addText. destruct (state v);
        cbn [currentCondition]; rewrite ?length_append; cbn [String.length]; lia.
    - unfold addText. destruct (state v);
        cbn [currentBody]; rewrite ?length_append; cbn [String.length]; lia.
    - unfold addText. now destruct (state v). }
  destruct (skips cls c); [apply IH; [lia | lia | lia | exact Hv] |].
  destruct (keyword "if" false (String c t)) eqn:Hif.
  { apply keyword_length in Hif. cbn [String.length] in Hif.
    apply Hadd; cbn [String.length]; lia. }
  destruct (keyword "fi" true (String c t)) eqn:Hfi.
  { apply keyword_length in Hfi. cbn [String.length] in Hfi.
    destruct (depth v =? 1)%nat; [| apply Hadd; cbn [String.length]; lia].
    unfold close. cbn [branches]. destruct (state v); [exact Hv |].
    apply Forall_app. split; [exact Hv |]. constructor; [| constructor].
    pose proof (trim_length (currentCondition v)).
    pose proof (trim_length (currentBody v)).
    split; cbn [body condition]; [lia |].
    intros cond Hc. destruct (Js.trim (currentCondition v)) eqn:Ht;
      [discriminate |]. injection Hc as <-. lia. }
  destruct ((depth v =? 1)%nat && keyword "then" true (String c t)) eqn:Hthen.
  { apply andb_prop in Hthen as [_ Hthen].
    apply keyword_length in Hthen. cbn [String.length] in Hthen.
    apply IH; cbn [setState currentCondition currentBody branches];
      [lia | lia | lia | exact Hv]. }
  destruct ((depth v =? 1)%nat && keyword "elif" false (String c t)) eqn:Helif.
  { apply andb_prop in Helif as [_ Helif].
    apply keyword_length in Helif. cbn [String.length] in Helif.
    apply IH; [lia | | | apply Hsaved];
      unfold saveBranch; cbn [currentCondition currentBody String.length]; lia. }
  destruct ((depth v =? 1)%nat && keyword "else" true (String c t)) eqn:Helse.
  { apply andb_prop in Helse as [_ Helse].
    apply keyword_length in Helse. cbn [String.length] in Helse.
    apply IH; [lia | | | apply Hsaved];
      unfold saveBranch; cbn [currentCondition currentBody String.length]; lia. }
  destruct (state v); [| exact Hchar].
  destruct (Ascii.eqb c ";"); [| exact Hchar].
  apply IH; [lia | lia | lia | exact Hv].
Qed.

Lemma markElse_short (m : nat) (l : list IfBranch) :
  Forall (shortBranch m) l -> Forall (shortBranch m) (markElse l).
Proof.
  induction l as [|b l IH]; intros Hl; [constructor |].
  inversion Hl as [|? ? Hb Hl']; subst. cbn [markElse].
  destruct l as [|b' l'].
  - constructor; [| constructor]. destruct Hb as [Hbody Hcond].
    split; cbn [body condition]; [exact Hbody |].
    intros cond Hc. apply Hcond. now destruct (condition b) as [[|x y] |].
  - constructor; [exact Hb | now apply IH].
Qed.

(** The texts of the branches are shorter than the statement. *)
Lemma parseIfStatement_short (input : string) (found : list IfBranch)
    (branch : IfBranch) :
  parseIfStatement input = Ok found -> branch ∈ found ->
  (String.length (body branch) < String.length input)%nat
  /\ (forall cond, condition branch = Some cond ->
        (String.length cond < String.length input)%nat).
Proof.
  unfold parseIfStatement. cbv zeta.
  destruct (negb (Js.startsWith "if " (Js.trim input))
            && negb (Js.startsWith "if;" (Js.trim input))) eqn:Hstart;
    [intros Hfound; discriminate Hfound |].
  set (rest := Js.trim (Js.drop 2 (Js.trim input))).
  assert (Hrest : (String.length rest + 2 <= String.length input)%nat).
  { assert (Hlong : (3 <= String.length (Js.trim input))%nat).
    { apply andb_false_iff in Hstart as [Hs | Hs]; apply negb_false_iff in Hs;
        now apply startsWith_length in Hs. }
    pose proof (trim_length input).
    pose proof (trim_length (Js.drop 2 (Js.trim input))).
    pose proof (drop_length_exact 2 (Js.trim input)). unfold rest. lia. }
  pose proof (scan_short (String.length rest) rest (mkScan 1 Condition "" "" [])
                0 NoSkip ltac:(lia) ltac:(cbn; lia) ltac:(cbn; lia)
                ltac:(constructor)) as Hscan.
  apply markElse_short in Hscan.
  destruct (negb (depth _ =? 0)%nat); [intros Hfound; discriminate Hfound |].
  destruct (markElse _) as [|b l] eqn:Hmark; [intros Hfound; discriminate Hfound |].
  intros [= <-] Hin.
  rewrite Forall_forall in Hscan. destruct (Hscan branch Hin) as [Hbody Hcond].
  split; [lia |]. intros cond Hc. specialize (Hcond cond Hc). lia.
Qed.

End ScannedLengths.

(** ** exec comes back *)

Section ComesBack.
Context `{Host}.

(** X9.  [exec] always comes back when no registered command calls
    [ctx.exec].  With such a registry and a parser whose commands are not
    longer than the line, a line and function bodies of at most [bound]
    characters are run to the end within a nesting of activations that the
    call-depth limit and [bound] determine: the call returns or throws,
    whatever the line is. *)
Theorem exec_always_comes_back (bound fuel : nat) (line : string)
    (s : ShellState FS) :
  leafCommands -> parsesWithin ->
  bounded bound s ->
  (String.length line <= bound)%nat ->
  ((maxCallDepth - callDepth s) * (bound + 1) + String.length line + 1 <= fuel)%nat ->
  finished (exec fuel line s) = true.
Proof.
  intros Hleaves Hparse Hb Hline Hfuel.
  pose proof (exec_comesBack bound Hleaves Hparse parseIfStatement_short
                matchForLoop_short matchWhileLoop_short matchUntilLoop_short fuel
                (callDepth s) line Hline Hfuel s eq_refl Hb) as Hrun.
  now destruct (exec fuel line s).
Qed.

End ComesBack.

Lemma tableLookup_within (table : list (string * list Pipeline)) :
  Forall (fun entry =>
            Forall (Forall (fun st =>
                      (String.length (command (parsed st))
                       <= String.length (fst entry))%nat))
                   (snd entry)) table ->
  forall line pipeline st,
    pipeline ∈ Demo.tableLookup table line -> st ∈ pipeline ->
    (String.length (command (parsed st)) <= String.length line)%nat.
Proof.
  intros Htable line pipeline st.
  induction table as [|[l p] table IH]; cbn [Demo.tableLookup].
  - intros Hp. now apply elem_of_nil in Hp.
  - inversion Htable as [|? ? Hentry Hrest]; subst.
    destruct (String.eqb l line) eqn:Hline; [| now apply IH].
    apply String.eqb_eq in Hline. subst line. cbn [fst snd] in Hentry.
    intros Hp Hst. rewrite Forall_forall in Hentry.
    specialize (Hentry pipeline Hp). rewrite Forall_forall in Hentry.
    exact (Hentry st Hst).
Qed.

Lemma table_parsesWithin : parsesWithin (H := Demo.host).
Proof.
  intros e line pipeline st. cbn [parse Demo.host].
  apply tableLookup_within. unfold Demo.table.
  repeat first [apply List.Forall_nil | apply List.Forall_cons]; cbn; lia.
Qed.

Lemma looping_bounded :
  bounded 19 (Demo.withFunction "f" "f" Demo.initial).
Proof.
  intros g funcBody. cbn [functions Demo.withFunction setFunctions Demo.initial].
  intros Hg. apply lookup_insert_Some in Hg as [[_ <-] | [_ Hg]]; [cbn; lia |].
  now rewrite lookup_empty in Hg.
Qed.

Lemma exec_always_comes_back_witness :
  finished (exec (H := Demo.host) 2020 "while f; do f; done"
                 (Demo.withFunction "f" "f" Demo.initial)) = true.
Proof.
  apply (exec_always_comes_back (H := Demo.host) 19 2020 "while f; do f; done"
           (Demo.withFunction "f" "f" Demo.initial)
           demo_leaves table_parsesWithin looping_bounded).
  - cbn. lia.
  - apply Nat.leb_le. vm_compute. reflexivity.
Defined.

(** ** Runaway recursion *)

Section RunawayRecursion.
Context `{Host}.

(** C6 (amended).  Recursion without base case does not hang.  When no
    registered command calls [ctx.exec] and the parser returns commands
    that are not longer than the line, every line is run to the end,
    whatever functions it calls: [exec] returns or throws within a
    nesting of activations that the call-depth limit and the length of
    the texts determine.  For every function and every body, the call
    made when the call depth has reached the limit returns exit code 1
    with the message of the recursion limit and leaves the state as it
    found it (the depth is incremented, found too large and decremented
    back), whatever the evaluator of the body would do: the body is not
    executed.  And a function whose body is only a call to itself, called
    from the top level, returns exit code 1 with that message, the call
    depth back at 0. *)
Theorem runaway_recursion_stops (bound fuel : nat) (f funcBody line : string)
    (s : ShellState FS) :
  (leafCommands -> parsesWithin -> bounded bound s ->
   (String.length line <= bound)%nat ->
   ((maxCallDepth - callDepth s) * (bound + 1) + String.length line + 1 <= fuel)%nat ->
   finished (exec fuel line s) = true)
  /\ (forall rec g text l s0, (maxCallDepth <= callDepth s0)%nat ->
      callFunction rec g text l s0
      = Ret (mkResult "" (recursionMessage g) 1) s0)
  /\ (plainCommandName f = true -> simpleLine funcBody = true ->
      (forall e, parse e funcBody = [[stage OpPipe f []]]) ->
      simpleLine line = true ->
      (forall e, parse e line = [[stage OpPipe f []]]) ->
      functions s !! f = Some funcBody ->
      callDepth s = 0%nat ->
      (maxCallDepth + 1 <= maxCommandCount)%nat ->
      (maxCallDepth + 1 <= fuel)%nat ->
      exists s', exec fuel line s = Ret (mkResult "" (recursionMessage f) 1) s'
                 /\ callDepth s' = 0%nat /\ localScopes s' = localScopes s).
Proof.
  split; [| split].
  - intros Hleaves Hparse Hb Hline Hfuel.
    pose proof (exec_comesBack bound Hleaves Hparse parseIfStatement_short
                  matchForLoop_short matchWhileLoop_short matchUntilLoop_short fuel
                  (callDepth s) line Hline Hfuel s eq_refl Hb) as Hrun.
    now destruct (exec fuel line s).
  - intros rec g text l s0. apply callFunction_at_limit.
  - intros Hf Hbody Hcalls. now apply single_call_recursion_stops.
Qed.

End RunawayRecursion.

Lemma echoing_bounded :
  bounded 9 (Demo.withFunction "f" "f; echo x" Demo.initial).
Proof.
  intros g funcBody. cbn [functions Demo.withFunction setFunctions Demo.initial].
  intros Hg. apply lookup_insert_Some in Hg as [[_ <-] | [_ Hg]]; [cbn; lia |].
  now rewrite lookup_empty in Hg.
Qed.

Lemma runaway_recursion_stops_witness :
  (exists s', exec (H := Demo.host) 101 "f" (Demo.withFunction "f" "f" Demo.initial)
              = Ret (mkResult ""
                       ("bash: f: maximum recursion depth (100) exceeded. "
                          +:+ "Increase with maxCallDepth option." +:+ nl) 1) s'
              /\ callDepth s' = 0%nat
              /\ localScopes s' = [])
  /\ finished (exec (H := Demo.host) 1002 "f"
                    (Demo.withFunction "f" "f; echo x" Demo.initial)) = true.
Proof.
  split.
  - refine (proj2 (proj2 (runaway_recursion_stops (H := Demo.host) 1 101 "f" "f" "f"
                            (Demo.withFunction "f" "f" Demo.initial)))
              eq_refl eq_refl (fun _ => eq_refl) eq_refl (fun _ => eq_refl)
              eq_refl eq_refl _ _);
      apply Nat.leb_le; vm_compute; reflexivity.
  - refine (proj1 (runaway_recursion_stops (H := Demo.host) 9 1002 "f" "f; echo x" "f"
                     (Demo.withFunction "f" "f; echo x" Demo.initial))
              demo_leaves table_parsesWithin echoing_bounded _ _).
    + cbn. lia.
    + apply Nat.leb_le. vm_compute. reflexivity.
Defined.

(** C6 (as stated).  The function [f() { f; echo x; }] calls itself without
    base case.  Under the default limits the innermost call is refused with
    the message of the recursion limit, but every call goes on with
    [echo x] and returns its exit code: the outermost call returns exit
    code 0, with the message on the error stream. *)
Lemma recursion_then_echo_returns_zero :
  exists out s',
    exec (H := Demo.host) 102 "f" (Demo.withFunction "f" "f; echo x" Demo.initial)
    = Ret (mkResult out
             ("bash: f: maximum recursion depth (100) exceeded. "
                +:+ "Increase with maxCallDepth option." +:+ nl) 0) s'
    /\ callDepth s' = 0%nat.
Proof. eexists _, _. split; [vm_compute; reflexivity | reflexivity]. Qed.
